(** * Meteor agent runtime: recipe validation and the run executor

    A shallow embedding of [agent/agent.go] (package [agent]) of the Meteor
    metadata collector, together with the collaborators the agent drives
    (plugin interfaces, registry, retrier, stream).

    Conventions.
    - A Go [error] is an [option error]; [None] is [nil].
    - A method [func (r *Agent) M] is the definition [Agent_M].
    - Struct fields carry the struct name as a prefix ([Run_Error] is
      [run.Error]).
    - Effects (logger, plugin calls, retrier sleeps, monitor) are [Event]s:
      every effectful operation returns, next to its result, the events it
      caused, in call order.
    - [agent/stream.go], [agent/retrier.go] and package [registry] are
      modelled from the specification; what comes from it is marked.
    - Concurrency.  The stream serves its subscribers and close hooks in a
      fixed order, and the extractor goroutine runs before [broadcast]
      drains the stream: one schedule among those the specification admits.
      The two writes to [run.Error] that the program leaves unordered are a
      parameter ([WriteOrder]); [RunMultiple] takes the order of its
      goroutines as a parameter. *)

From stdpp Require Import base list strings gmap pretty sorting.
From Stdlib Require Import ZArith Lia OrdersEx.

Local Open Scope Z_scope.
Local Open Scope string_scope.
Local Open Scope list_scope.

(** ** Go's [int] (64 bit, two's complement) *)

Definition int_min : Z := - 2 ^ 63.

(** Wrap-around of a mathematical integer into the range of [int]. *)
Definition int_wrap (z : Z) : Z := (z + 2 ^ 63) mod 2 ^ 64 - 2 ^ 63.

(** [n++] on an [int]. *)
Definition int_incr (n : Z) : Z := int_wrap (n + 1).

(** ** Package [models]: records *)

(** [models.Record] is an opaque envelope around one asset; the agent never
    looks inside it.  The embedding carries the asset's URN. *)
Definition models_Record := string.

(** ** Package [plugins]: errors, configuration, plugin interfaces *)

Inductive PluginType :=
| PluginTypeExtractor
| PluginTypeProcessor
| PluginTypeSink.

(** Modelled from the spec: the declaration of the [plugins.PluginType]
    constants is not part of the sources at hand; their string values, as
    printed by [%s], are taken to be the role names of the specification. *)
Definition PluginType_string (t : PluginType) : string :=
  match t with
  | PluginTypeExtractor => "extractor"
  | PluginTypeProcessor => "processor"
  | PluginTypeSink => "sink"
  end.

(** Go error values as the agent builds and meets them.  The error types of
    package [plugins] ([RetryError], [NotFoundError], [InvalidConfigError])
    are used by the sources but declared elsewhere; they are kept as
    constructors of their own. *)
Inductive error :=
| New (msg : string)                                (* errors.New(msg) *)
| Wrap (cause : error) (msg : string)               (* errors.Wrap / errors.Wrapf *)
| Errorf (text : string)                            (* fmt.Errorf("%s", v) *)
| RetryError (cause : error)                        (* plugins.NewRetryError(cause) *)
| NotFoundError (role : PluginType) (name : string) (* registry lookup failure *)
| InvalidConfigError.                               (* plugins.InvalidConfigError{} *)

(** [err.Error()].  [errors.Wrap(err, msg)] prints [msg: cause]; a
    [RetryError] prints its cause. *)
Fixpoint Error_text (e : error) : string :=
  match e with
  | New msg => msg
  | Wrap cause msg => msg +:+ ": " +:+ Error_text cause
  | Errorf text => text
  | RetryError cause => Error_text cause
  | NotFoundError role name =>
      "could not find " +:+ PluginType_string role +:+ " " +:+ name
  | InvalidConfigError => "invalid config"
  end.

(** [err == nil] *)
Definition is_nil (e : option error) : bool :=
  match e with None => true | Some _ => false end.

(** A value handed to [panic].  [fmt] belongs to Go's library, not to these
    sources: a value that is neither a string nor an error is given by the
    text that the verb [%s] prints for it, for instance [%!s(int=5)] for the
    int 5 and [[%!s(int=1) %!s(int=2)]] for the slice [[]int{1, 2}]. *)
Inductive PanicValue :=
| PanicNil                      (* panic(nil) *)
| PanicString (s : string)
| PanicError (e : error)
| PanicOther (text : string).   (* any other value, by its [%s] text *)

(** [recover()] in a deferred function while the goroutine panics with [v]:
    the panic stops and its value is returned.  For [panic(nil)] this is
    [nil] (the language version of these sources is older than Go 1.21,
    which made it a [*runtime.PanicNilError]), so that the caller cannot
    tell it from no panic at all. *)
Definition recover (v : PanicValue) : option PanicValue :=
  match v with
  | PanicNil => None
  | _ => Some v
  end.

(** [fmt.Sprintf("%s", v)]: strings print as they are, errors print their
    [Error()] text, [nil] prints with the bad-verb marker. *)
Definition format_s (v : PanicValue) : string :=
  match v with
  | PanicNil => "%!s(<nil>)"
  | PanicString s => s
  | PanicError e => Error_text e
  | PanicOther text => text
  end.

(** [map[string]interface{}]: the untyped plugin configuration. *)
Definition Config := list (string * string).

(** How a call of [Extract] ends. *)
Inductive ExtractOutcome :=
| Returned (err : option error)
| Panicked (v : PanicValue).

(** What one call of [Process] does. *)
Inductive ProcessResult :=
| Processed (dst : models_Record)
| ProcessFailed (e : error)
| ProcessPanicked (v : PanicValue).

(** [plugins.Extractor].  [emit] returns nothing, so what an initialised
    extractor does in [Extract(ctx, emit)] is the sequence of records it
    emits followed by how the call ends. *)
Record Extractor := {
  Extractor_Validate : Config → option error;
  Extractor_Init : Config → option error;
  Extractor_Extract : Config → list models_Record * ExtractOutcome;
}.

(** [plugins.Processor]. *)
Record Processor := {
  Processor_Validate : Config → option error;
  Processor_Init : Config → option error;
  Processor_Process : Config → models_Record → ProcessResult;
}.

(** [plugins.Syncer].  A sink keeps state between calls: the result of
    [Sink] may depend on how often this instance was called before. *)
Record Syncer := {
  Syncer_Validate : Config → option error;
  Syncer_Init : Config → option error;
  Syncer_Sink : Config → nat → list models_Record → option error;
  Syncer_Close : Config → option error;
}.

(** ** Package [recipe] *)

Record SourceRecipe := {
  Source_Type : string;
  Source_Config : Config;
}.

Record ProcessorRecipe := {
  Processor_Name : string;
  Processor_Config : Config;
}.

Record SinkRecipe := {
  Sink_Name : string;
  Sink_Config : Config;
}.

Record Recipe := {
  Recipe_Name : string;
  Recipe_Source : SourceRecipe;
  Recipe_Processors : list ProcessorRecipe;
  Recipe_Sinks : list SinkRecipe;
}.

(** ** Package [registry] *)

(** Modelled from the spec: the three factories of package [registry]
    ([registry.ExtractorFactory], [ProcessorFactory], [SinkFactory]) are not
    part of the sources at hand.  A factory is a name-to-constructor map and
    [Get] "fails with unknown-name"; constructors give a fresh instance per
    call, which for the immutable plugin descriptions above is the stored
    value itself. *)
Definition Factory_Get {P : Type} (role : PluginType) (f : gmap string P)
    (name : string) : P + error :=
  match f !! name with
  | Some p => inl p
  | None => inr (NotFoundError role name)
  end.

(** ** Package [agent]: the run summary *)

(** [agent.Run]. *)
Record Run := {
  Run_Recipe : Recipe;
  Run_Error : option error;
  Run_DurationInMs : Z;
  Run_RecordCount : Z;
  Run_Success : bool;
}.

Definition Run_with_Error (run : Run) (e : option error) : Run :=
  {| Run_Recipe := Run_Recipe run; Run_Error := e;
     Run_DurationInMs := Run_DurationInMs run;
     Run_RecordCount := Run_RecordCount run;
     Run_Success := Run_Success run |}.

Definition Run_with_DurationInMs (run : Run) (d : Z) : Run :=
  {| Run_Recipe := Run_Recipe run; Run_Error := Run_Error run;
     Run_DurationInMs := d;
     Run_RecordCount := Run_RecordCount run;
     Run_Success := Run_Success run |}.

Definition Run_with_RecordCount (run : Run) (n : Z) : Run :=
  {| Run_Recipe := Run_Recipe run; Run_Error := Run_Error run;
     Run_DurationInMs := Run_DurationInMs run;
     Run_RecordCount := n;
     Run_Success := Run_Success run |}.

Definition Run_with_Success (run : Run) (b : bool) : Run :=
  {| Run_Recipe := Run_Recipe run; Run_Error := Run_Error run;
     Run_DurationInMs := Run_DurationInMs run;
     Run_RecordCount := Run_RecordCount run;
     Run_Success := b |}.

(** The zero value of [Run] with [run.Recipe = recipe]. *)
Definition Run_zero (recipe : Recipe) : Run :=
  {| Run_Recipe := recipe; Run_Error := None; Run_DurationInMs := 0;
     Run_RecordCount := 0; Run_Success := false |}.

(** ** Observable effects *)

Inductive Level := LevelInfo | LevelWarn | LevelError.

(** A value of a structured log field. *)
Inductive Field :=
| FString (s : string)
| FInt (z : Z)
| FError (e : option error).

Inductive Event :=
| EvLog (lvl : Level) (msg : string) (fields : list (string * Field))
| EvInit (role : PluginType) (name : string) (cfg : Config)
| EvExtract (name : string)
| EvProcess (name : string) (src : models_Record)
| EvSink (name : string) (records : list models_Record)
| EvSleep (interval : Z)
| EvClose (name : string)
| EvRecordRun (run : Run).

(** State touched by the closures of one [Run]: the captured local
    [recordCount] and the per-instance call counters of the sinks (keyed by
    the sink's position in [recipe.Sinks]).  Every effectful operation returns
    its result, the new state and the events it caused, in call order. *)
Record State := {
  recordCount : Z;
  sinkCalls : gmap nat nat;
}.

Definition logger (lvl : Level) (msg : string) (fields : list (string * Field))
    : list Event :=
  [EvLog lvl msg fields].

(** A double quote character, for messages formatted with [\"%s\"]. *)
Definition dquote : string := String (Ascii.ascii_of_nat 34) EmptyString.
Definition quoted (s : string) : string := dquote +:+ s +:+ dquote.

(** ** The stream *)

(** What a middleware call does: it returns [(dst, nil)], returns an error,
    or panics. *)
Inductive MiddlewareResult :=
| MwOk (dst : models_Record)
| MwErr (e : error)
| MwPanic (v : PanicValue).

(** [type streamMiddleware func(src models.Record) (dst models.Record, err error)],
    a closure over the state of the run. *)
Definition streamMiddleware :=
  models_Record → State → MiddlewareResult * State * list Event.

(** A batch handler [func(records []models.Record) error]. *)
Definition batchHandler :=
  list models_Record → State → option error * State * list Event.

(** Modelled from the spec: [agent/stream.go] (the type [stream] with
    [newStream], [setMiddleware], [subscribe], [onClose], [push], [broadcast],
    [Close]) is not part of the sources at hand.  The definitions below
    follow section 4.4 of the specification: a stream holds "the ordered
    middleware chain, the set of subscribers (each with its own batch buffer
    and batch size), the set of close-hooks, a single internal push channel,
    and a terminal-error slot". *)
Record subscriber := {
  callback : batchHandler;
  batchSize : nat;
  batch : list models_Record;
}.

(** Modelled from the spec: the type [stream] of [agent/stream.go]. *)
Record stream := {
  middlewares : list streamMiddleware;
  subscribers : list subscriber;
  onCloses : list (State → State * list Event);
  channel : list models_Record;
  closed : bool;
  terminalErr : option error;
}.

(** Modelled from the spec: [newStream], the stream "created at Run start". *)
Definition newStream : stream :=
  {| middlewares := []; subscribers := []; onCloses := []; channel := [];
     closed := false; terminalErr := None |}.

(** Modelled from the spec: [stream.setMiddleware], "appends a transformation
    to the chain". *)
Definition setMiddleware (m : streamMiddleware) (s : stream) : stream :=
  {| middlewares := middlewares s ++ [m]; subscribers := subscribers s;
     onCloses := onCloses s; channel := channel s; closed := closed s;
     terminalErr := terminalErr s |}.

(** Modelled from the spec: [stream.subscribe], "registers a batch
    consumer". *)
Definition subscribe (cb : batchHandler) (size : nat) (s : stream) : stream :=
  {| middlewares := middlewares s;
     subscribers := subscribers s ++
       [{| callback := cb; batchSize := size; batch := [] |}];
     onCloses := onCloses s; channel := channel s; closed := closed s;
     terminalErr := terminalErr s |}.

(** Modelled from the spec: [stream.onClose], "registers a hook invoked
    during close". *)
Definition onClose (f : State → State * list Event) (s : stream) : stream :=
  {| middlewares := middlewares s; subscribers := subscribers s;
     onCloses := onCloses s ++ [f]; channel := channel s; closed := closed s;
     terminalErr := terminalErr s |}.

(** Modelled from the spec: [stream.push], "called by the extractor": the
    record enters the push channel.  All operations happen before close; a
    push on a closed stream is dropped. *)
Definition push (d : models_Record) (s : stream) : stream :=
  if closed s then s else
  {| middlewares := middlewares s; subscribers := subscribers s;
     onCloses := onCloses s; channel := channel s ++ [d]; closed := closed s;
     terminalErr := terminalErr s |}.

(** Modelled from the spec: [stream.Close], "idempotent; signals the drive
    loop to drain and terminate". *)
Definition Close (s : stream) : stream :=
  {| middlewares := middlewares s; subscribers := subscribers s;
     onCloses := onCloses s; channel := channel s; closed := true;
     terminalErr := terminalErr s |}.

Definition stream_with_subscribers (s : stream) (subs : list subscriber) : stream :=
  {| middlewares := middlewares s; subscribers := subs;
     onCloses := onCloses s; channel := channel s; closed := closed s;
     terminalErr := terminalErr s |}.

Definition stream_with_terminalErr (s : stream) (e : option error) : stream :=
  {| middlewares := middlewares s; subscribers := subscribers s;
     onCloses := onCloses s; channel := channel s; closed := closed s;
     terminalErr := e |}.

(** Modelled from the spec: the middleware chain of the stream, "Chain is
    applied in insertion order. Failure short-circuits." *)
Fixpoint runMiddlewares (ms : list streamMiddleware) (d : models_Record)
    (st : State) : MiddlewareResult * State * list Event :=
  match ms with
  | [] => (MwOk d, st, [])
  | m :: ms' =>
      match m d st with
      | (MwOk d', st1, evs1) =>
          let '(res, st2, evs2) := runMiddlewares ms' d' st1 in
          (res, st2, evs1 ++ evs2)
      | failed => failed
      end
  end.

Definition subscriber_with_batch (sub : subscriber) (b : list models_Record)
    : subscriber :=
  {| callback := callback sub; batchSize := batchSize sub; batch := b |}.

(** Modelled from the spec: one record reaches one subscriber of the stream:
    it joins the batch buffer, and a full buffer ("[fn] receives [batch_size]
    records") is handed to the handler. *)
Definition deliver (sub : subscriber) (d : models_Record) (st : State)
    : subscriber * option error * State * list Event :=
  let b := batch sub ++ [d] in
  if decide (batchSize sub ≤ length b)%nat then
    let '(e, st', evs) := callback sub b st in
    (subscriber_with_batch sub [], e, st', evs)
  else (subscriber_with_batch sub b, None, st, []).

Definition first_error (e1 e2 : option error) : option error :=
  match e1 with Some _ => e1 | None => e2 end.

(** Modelled from the spec: the stream "fans out to subscribers": every
    subscriber sees the record; the first handler error is the one kept for
    the terminal-error slot.  The specification speaks of a set of
    subscribers, each with a delivery loop of its own, and keeps the order
    of the records per subscriber only ("different subscribers are not
    synchronized with each other").  The model serves the subscribers one
    after the other for each record, in the order of their subscription:
    one of the schedules that the specification admits.  What is stated
    about [Sink] calls below is stated per sink. *)
Fixpoint fanOut (subs : list subscriber) (d : models_Record) (st : State)
    : list subscriber * option error * State * list Event :=
  match subs with
  | [] => ([], None, st, [])
  | sub :: rest =>
      let '(sub', e1, st1, evs1) := deliver sub d st in
      let '(rest', e2, st2, evs2) := fanOut rest d st1 in
      (sub' :: rest', first_error e1 e2, st2, evs1 ++ evs2)
  end.

(** Modelled from the spec: the drive loop of [stream.broadcast] over the
    content of the push channel: "records flow
    through the middleware chain in push order, one at a time"; on an error
    "the terminal error is saved, no further records are delivered".  A
    panicking middleware is "caught and turned into" an error that carries
    the panic value's string form.  A handler that returns an error (the
    agent's sink handler under [stop_on_sink_error]) aborts the same way. *)
Fixpoint drive (s : stream) (ch : list models_Record) (st : State)
    : stream * State * list Event :=
  match ch with
  | [] => (s, st, [])
  | d :: ch' =>
      match runMiddlewares (middlewares s) d st with
      | (MwOk d', st1, evs1) =>
          let '(subs, e, st2, evs2) := fanOut (subscribers s) d' st1 in
          let s' := stream_with_subscribers s subs in
          match e with
          | Some _ => (stream_with_terminalErr s' e, st2, evs1 ++ evs2)
          | None =>
              let '(s'', st3, evs3) := drive s' ch' st2 in
              (s'', st3, evs1 ++ evs2 ++ evs3)
          end
      | (MwErr e, st1, evs1) => (stream_with_terminalErr s (Some e), st1, evs1)
      | (MwPanic v, st1, evs1) =>
          (stream_with_terminalErr s (Some (Errorf (format_s v))), st1, evs1)
      end
  end.

(** Modelled from the spec: the final flush of the stream, "[fn] receives
    [batch_size] records (or fewer on final flush)". *)
Fixpoint flush (subs : list subscriber) (st : State)
    : list subscriber * option error * State * list Event :=
  match subs with
  | [] => ([], None, st, [])
  | sub :: rest =>
      let '(sub', e1, st1, evs1) :=
        match batch sub with
        | [] => (sub, None, st, [])
        | b => let '(e, st', evs) := callback sub b st in
               (subscriber_with_batch sub [], e, st', evs)
        end in
      let '(rest', e2, st2, evs2) := flush rest st1 in
      (sub' :: rest', first_error e1 e2, st2, evs1 ++ evs2)
  end.

(** Modelled from the spec: "all [on_close] hooks run exactly once".  The
    specification speaks of a set of close hooks and gives no order among
    them; the model calls them in the order of their registration, one of
    the orders that the specification admits.  What is stated about [Close]
    calls below is stated up to their order. *)
Fixpoint runOnCloses (hooks : list (State → State * list Event)) (st : State)
    : State * list Event :=
  match hooks with
  | [] => (st, [])
  | f :: rest =>
      let '(st1, evs1) := f st in
      let '(st2, evs2) := runOnCloses rest st1 in
      (st2, evs1 ++ evs2)
  end.

(** Modelled from the spec: [stream.broadcast], "blocking drive loop that
    [...] returns when the stream is closed and all
    subscribers have been flushed.  Returns any terminal error"; "all
    [on_close] hooks run exactly once, after all subscribers have drained and
    before [broadcast()] returns".  On a stream that is never closed the call
    blocks for ever: the result is [None]. *)
Definition broadcast (s : stream) (st : State)
    : option (option error * State * list Event) :=
  if closed s then
    let '(s1, st1, evs1) := drive s (channel s) st in
    let '(e, st2, evs2) :=
      match terminalErr s1 with
      | Some _ => (terminalErr s1, st1, [])
      | None =>
          let '(_, e, st2, evs2) := flush (subscribers s1) st1 in
          (e, st2, evs2)
      end in
    let '(st3, evs3) := runOnCloses (onCloses s1) st2 in
    Some (e, st3, evs1 ++ evs2 ++ evs3)
  else None.

(** ** The retrier *)

(** Modelled from the spec: [agent/retrier.go] (the type [retrier] and its
    method [retry]) is not part of the sources at hand.  Section 4.3: "If
    [op] returns [nil], stop and return [nil].  If [op] returns a RetryError,
    sleep for the current interval, call [on_retry_notify(err, interval)],
    double the interval, and retry, up to [max_retries] total attempts.  If
    [op] returns any non-RetryError, return it immediately.  After
    [max_retries] exhausted attempts, return the last error unwrapped." *)
Record retrier := {
  maxRetries : nat;
  initialInterval : Z;
}.

(** Modelled from the spec: the loop of [retrier.retry], with the number of
    attempts that may still follow and the current interval. *)
Fixpoint retry_loop (attemptsLeft : nat) (interval : Z)
    (op : State → option error * State * list Event)
    (notify : error → Z → list Event) (st : State)
    : option error * State * list Event :=
  match op st with
  | (Some (RetryError cause), st1, evs1) =>
      match attemptsLeft with
      | O => (Some cause, st1, evs1)
      | S n =>
          let '(e, st2, evs2) := retry_loop n (2 * interval) op notify st1 in
          (e, st2,
           evs1 ++ EvSleep interval :: notify (RetryError cause) interval ++ evs2)
      end
  | result => result
  end.

(** Modelled from the spec: [retrier.retry].  [op] is attempted at least
    once; [max_retries] bounds the total number of attempts. *)
Definition retrier_retry (r : retrier)
    (op : State → option error * State * list Event)
    (notify : error → Z → list Event) (st : State)
    : option error * State * list Event :=
  retry_loop (pred (maxRetries r)) (initialInterval r) op notify st.

(** ** The agent *)

Definition defaultBatchSize : nat := 1.

(** [type TimerFn func() func() int].  A timer reads the clock, that is, the
    world: the outer call sees the trace at the start of the run, the inner
    call the trace at its end. *)
Definition TimerFn := list Event → list Event → Z.

(** [type Agent struct], as [NewAgent] returns it (with its defaults for the
    monitor and the timer filled in).  The [monitor] and the [logger] are
    observed through the events of a run. *)
Record Agent := {
  extractorFactory : gmap string Extractor;
  processorFactory : gmap string Processor;
  sinkFactory : gmap string Syncer;
  Agent_retrier : retrier;
  stopOnSinkError : bool;
  timerFn : TimerFn;
}.

(** The message of [errors.Wrapf(err, "invalid config for %s (%s)", name, type)]. *)
Definition invalidConfigMsg (name : string) (t : PluginType) : string :=
  "invalid config for " +:+ name +:+ " (" +:+ PluginType_string t +:+ ")".

(** The body of the loop over [rcp.Sinks] in [Validate]. *)
Definition Validate_sink (r : Agent) (rcp : Recipe) (errs : list error)
    (s : SinkRecipe) : list error :=
  match Factory_Get PluginTypeSink (sinkFactory r) (Sink_Name s) with
  | inr err =>
      errs ++ [Wrap err (invalidConfigMsg (Source_Type (Recipe_Source rcp))
                                          PluginTypeExtractor)]
  | inl sink =>
      match Syncer_Validate sink (Sink_Config s) with
      | Some err => errs ++ [Wrap err (invalidConfigMsg (Sink_Name s) PluginTypeSink)]
      | None => errs
      end
  end.

(** The body of the loop over [rcp.Processors] in [Validate]. *)
Definition Validate_processor (r : Agent) (rcp : Recipe) (errs : list error)
    (p : ProcessorRecipe) : list error :=
  match Factory_Get PluginTypeProcessor (processorFactory r) (Processor_Name p) with
  | inr err =>
      errs ++ [Wrap err (invalidConfigMsg (Source_Type (Recipe_Source rcp))
                                          PluginTypeExtractor)]
  | inl procc =>
      match Processor_Validate procc (Processor_Config p) with
      | Some err =>
          errs ++ [Wrap err (invalidConfigMsg (Processor_Name p) PluginTypeProcessor)]
      | None => errs
      end
  end.

(** The first statement of [Validate]: the source. *)
Definition Validate_source (r : Agent) (rcp : Recipe) : list error :=
  let src := Recipe_Source rcp in
  match Factory_Get PluginTypeExtractor (extractorFactory r) (Source_Type src) with
  | inr err =>
      [Wrap err (invalidConfigMsg (Source_Type src) PluginTypeExtractor)]
  | inl ext =>
      match Extractor_Validate ext (Source_Config src) with
      | Some err =>
          [Wrap err (invalidConfigMsg (Source_Type src) PluginTypeExtractor)]
      | None => []
      end
  end.

(** [func (r *Agent) Validate(rcp recipe.Recipe) (errs []error)] *)
Definition Agent_Validate (r : Agent) (rcp : Recipe) : list error :=
  let errs := Validate_source r rcp in
  let errs := foldl (Validate_sink r rcp) errs (Recipe_Sinks rcp) in
  foldl (Validate_processor r rcp) errs (Recipe_Processors rcp).

(** The closure [runFn] returned by [setupExtractor]: [Extract] is called with
    [str.push] as [emit]; a returned error is wrapped, a panic propagates. *)
Definition runFn (extractor : Extractor) (sr : SourceRecipe) (str : stream)
    : ExtractOutcome * stream * list Event :=
  let '(records, outcome) := Extractor_Extract extractor (Source_Config sr) in
  let str1 := foldl (λ s d, push d s) str records in
  (match outcome with
   | Returned (Some err) =>
       Returned (Some (Wrap err ("error running extractor " +:+ quoted (Source_Type sr))))
   | _ => outcome
   end, str1, [EvExtract (Source_Type sr)]).

(** [func (r *Agent) setupExtractor(ctx, sr, str) (runFn func() error, err error)] *)
Definition Agent_setupExtractor (r : Agent) (sr : SourceRecipe)
    : ((stream → ExtractOutcome * stream * list Event) + error) * list Event :=
  match Factory_Get PluginTypeExtractor (extractorFactory r) (Source_Type sr) with
  | inr err =>
      (inr (Wrap err ("could not find extractor " +:+ quoted (Source_Type sr))), [])
  | inl extractor =>
      let evs := [EvInit PluginTypeExtractor (Source_Type sr) (Source_Config sr)] in
      match Extractor_Init extractor (Source_Config sr) with
      | Some err =>
          (inr (Wrap err ("could not initiate extractor " +:+ quoted (Source_Type sr))), evs)
      | None => (inl (runFn extractor sr), evs)
      end
  end.

(** The middleware installed by [setupProcessor]. *)
Definition processorMiddleware (proc : Processor) (pr : ProcessorRecipe)
    : streamMiddleware :=
  λ src st,
    (match Processor_Process proc (Processor_Config pr) src with
     | Processed dst => MwOk dst
     | ProcessFailed err =>
         MwErr (Wrap err ("error running processor " +:+ quoted (Processor_Name pr)))
     | ProcessPanicked v => MwPanic v
     end, st, [EvProcess (Processor_Name pr) src]).

(** [func (r *Agent) setupProcessor(ctx, pr, str) (err error)] *)
Definition Agent_setupProcessor (r : Agent) (pr : ProcessorRecipe) (str : stream)
    : option error * stream * list Event :=
  match Factory_Get PluginTypeProcessor (processorFactory r) (Processor_Name pr) with
  | inr err =>
      (Some (Wrap err ("could not find processor " +:+ quoted (Processor_Name pr))), str, [])
  | inl proc =>
      let evs := [EvInit PluginTypeProcessor (Processor_Name pr) (Processor_Config pr)] in
      match Processor_Init proc (Processor_Config pr) with
      | Some err =>
          (Some (Wrap err ("could not initiate processor " +:+ quoted (Processor_Name pr))),
           str, evs)
      | None => (None, setMiddleware (processorMiddleware proc pr) str, evs)
      end
  end.

(** [sink.Sink(ctx, records)] on the instance created for position [i] of
    [recipe.Sinks]. *)
Definition callSink (sink : Syncer) (i : nat) (sr : SinkRecipe)
    (records : list models_Record) (st : State)
    : option error * State * list Event :=
  let n := default 0%nat (sinkCalls st !! i) in
  (Syncer_Sink sink (Sink_Config sr) n records,
   {| recordCount := recordCount st; sinkCalls := <[i := S n]> (sinkCalls st) |},
   [EvSink (Sink_Name sr) records]).

(** The closure [retryNotification] of [setupSink]. *)
Definition retryNotification (sr : SinkRecipe) (e : error) (d : Z) : list Event :=
  logger LevelInfo ("retrying sink in " +:+ pretty d)
    [("sink", FString (Sink_Name sr)); ("error", FString (Error_text e))].

(** The batch handler that [setupSink] subscribes. *)
Definition sinkHandler (r : Agent) (sink : Syncer) (i : nat) (sr : SinkRecipe)
    : batchHandler :=
  λ records st,
    let '(err, st1, evs) :=
      retrier_retry (Agent_retrier r) (callSink sink i sr records)
        (retryNotification sr) st in
    match err with
    | Some e =>
        (if stopOnSinkError r then Some e else None, st1,
         evs ++ logger LevelError "error running sink"
                  [("sink", FString (Sink_Name sr));
                   ("error", FString (Error_text e))])
    | None => (None, st1, evs)
    end.

(** The close hook that [setupSink] registers. *)
Definition sinkCloseHook (sink : Syncer) (sr : SinkRecipe) (st : State)
    : State * list Event :=
  (st,
   EvClose (Sink_Name sr) ::
   match Syncer_Close sink (Sink_Config sr) with
   | Some err =>
       logger LevelWarn "error closing sink"
         [("sink", FString (Sink_Name sr)); ("error", FError (Some err))]
   | None => []
   end).

(** [func (r *Agent) setupSink(ctx, sr, stream) (err error)], for the sink at
    position [i] of the recipe. *)
Definition Agent_setupSink (r : Agent) (i : nat) (sr : SinkRecipe) (str : stream)
    : option error * stream * list Event :=
  match Factory_Get PluginTypeSink (sinkFactory r) (Sink_Name sr) with
  | inr err =>
      (Some (Wrap err ("could not find sink " +:+ quoted (Sink_Name sr))), str, [])
  | inl sink =>
      let evs := [EvInit PluginTypeSink (Sink_Name sr) (Sink_Config sr)] in
      match Syncer_Init sink (Sink_Config sr) with
      | Some err =>
          (Some (Wrap err ("could not initiate sink " +:+ quoted (Sink_Name sr))), str, evs)
      | None =>
          let str1 := subscribe (sinkHandler r sink i sr) defaultBatchSize str in
          (None, onClose (sinkCloseHook sink sr) str1, evs)
      end
  end.

(** [for _, pr := range recipe.Processors { if err := r.setupProcessor(...) ... return }] *)
Fixpoint setupProcessors (r : Agent) (prs : list ProcessorRecipe) (str : stream)
    : option error * stream * list Event :=
  match prs with
  | [] => (None, str, [])
  | pr :: rest =>
      match Agent_setupProcessor r pr str with
      | (Some err, str1, evs1) => (Some err, str1, evs1)
      | (None, str1, evs1) =>
          let '(err, str2, evs2) := setupProcessors r rest str1 in
          (err, str2, evs1 ++ evs2)
      end
  end.

(** [for _, sr := range recipe.Sinks { if err := r.setupSink(...) ... return }] *)
Fixpoint setupSinks (r : Agent) (i : nat) (srs : list SinkRecipe) (str : stream)
    : option error * stream * list Event :=
  match srs with
  | [] => (None, str, [])
  | sr :: rest =>
      match Agent_setupSink r i sr str with
      | (Some err, str1, evs1) => (Some err, str1, evs1)
      | (None, str1, evs1) =>
          let '(err, str2, evs2) := setupSinks r (S i) rest str1 in
          (err, str2, evs1 ++ evs2)
      end
  end.

(** The counting middleware of [Run]: [recordCount++; return src, nil]. *)
Definition countMiddleware : streamMiddleware :=
  λ src st,
    (MwOk src,
     {| recordCount := int_incr (recordCount st); sinkCalls := sinkCalls st |},
     []).

(** The goroutine started by [Run]: it runs the extractor and stores a
    returned error; its deferred function stores the error made from a panic
    if [recover()] returns a value other than [nil], and closes the stream in
    every case. *)
Definition extractorGoroutine
    (runExtractor : stream → ExtractOutcome * stream * list Event)
    (run : Run) (str : stream) : Run * stream * list Event :=
  let '(outcome, str1, evs) := runExtractor str in
  let run1 :=
    match outcome with
    | Returned (Some err) =>
        Run_with_Error run (Some (Wrap err "failed to run extractor"))
    | Returned None => run
    | Panicked v =>
        match recover v with
        | Some p => Run_with_Error run (Some (Errorf (format_s p)))
        | None => run
        end
    end in
  (run1, Close str1, evs).

(** [func (r *Agent) logAndRecordMetrics(run Run, durationInMs int)].  [run]
    is passed by value: the assignment to [run.DurationInMs] changes the
    callee's copy. *)
Definition Agent_logAndRecordMetrics (r : Agent) (run : Run) (durationInMs : Z)
    : list Event :=
  let run := Run_with_DurationInMs run durationInMs in
  EvRecordRun run ::
  (if Run_Success run then
     logger LevelInfo "done running recipe"
       [("recipe", FString (Recipe_Name (Run_Recipe run)));
        ("duration_ms", FInt durationInMs);
        ("record_count", FInt (Run_RecordCount run))]
   else
     logger LevelError "error running recipe"
       [("recipe", FString (Recipe_Name (Run_Recipe run)));
        ("duration_ms", FInt durationInMs);
        ("records_count", FInt (Run_RecordCount run));
        ("err", FError (Run_Error run))]).

(** [Run] starts the extractor in a goroutine of its own and calls
    [stream.broadcast()] itself.  Two statements write [run.Error] after
    that: the goroutine (the returned error, or the recovered panic) and
    [Run] once [broadcast] has returned an error.  [broadcast] returns [nil]
    only after the goroutine's deferred [stream.Close()], that is, after the
    goroutine's write; when it returns an error, the program does not order
    the two writes, and either may be the one that lasts. *)
Inductive WriteOrder :=
| BroadcastLast    (* the goroutine's write comes first *)
| ExtractorLast.   (* the goroutine's write comes after the one of [Run] *)

(** The statements of [Run] between the [defer] and the [return]s: the value
    of the named result [run] at the return, and the events until then.

    The events are those of the schedule in which the goroutine runs to its
    end first (its pushes queue up in the channel, its deferred function
    closes the stream) and [broadcast] then drains the stream on the
    caller's goroutine.  [order] settles the two writes to [run.Error] when
    [broadcast] returns an error. *)
Definition Agent_Run_body_under (order : WriteOrder) (r : Agent) (recipe : Recipe)
    (run : Run) : option (Run * list Event) :=
  let stream0 := newStream in
  let st0 := {| recordCount := 0; sinkCalls := ∅ |} in
  match Agent_setupExtractor r (Recipe_Source recipe) with
  | (inr err, evs1) =>
      Some (Run_with_Error run (Some (Wrap err "failed to setup extractor")), evs1)
  | (inl runExtractor, evs1) =>
      match setupProcessors r (Recipe_Processors recipe) stream0 with
      | (Some err, _, evs2) =>
          Some (Run_with_Error run (Some (Wrap err "failed to setup processor")),
                evs1 ++ evs2)
      | (None, str2, evs2) =>
          match setupSinks r 0 (Recipe_Sinks recipe) str2 with
          | (Some err, _, evs3) =>
              Some (Run_with_Error run (Some (Wrap err "failed to setup sink")),
                    evs1 ++ evs2 ++ evs3)
          | (None, str3, evs3) =>
              let str4 := setMiddleware countMiddleware str3 in
              let '(run1, str5, evs4) := extractorGoroutine runExtractor run str4 in
              match broadcast str5 st0 with
              | None => None
              | Some (berr, st5, evs5) =>
                  let run2 :=
                    match berr with
                    | Some err =>
                        let wrapped := Some (Wrap err "failed to broadcast stream") in
                        match order with
                        | BroadcastLast => Run_with_Error run1 wrapped
                        | ExtractorLast =>
                            (extractorGoroutine runExtractor
                               (Run_with_Error run wrapped) str4).1.1
                        end
                    | None => run1
                    end in
                  let run3 := Run_with_RecordCount run2 (recordCount st5) in
                  Some (Run_with_Success run3 (is_nil (Run_Error run3)),
                        evs1 ++ evs2 ++ evs3 ++ evs4 ++ evs5)
              end
          end
      end
  end.

(** The body of [Run] when the write after [broadcast] is the last one. *)
Definition Agent_Run_body (r : Agent) (recipe : Recipe) (run : Run)
    : option (Run * list Event) :=
  Agent_Run_body_under BroadcastLast r recipe run.

(** The first statement after [run.Recipe = recipe]. *)
Definition startLog (recipe : Recipe) : Event :=
  EvLog LevelInfo "running recipe" [("recipe", FString (Recipe_Name recipe))].

(** [func (r *Agent) Run(recipe recipe.Recipe) (run Run)], started in a world
    with trace [t]; the result is the returned [run] and the trace at the
    end.  The deferred function runs at every return of the body. *)
Definition Agent_Run_under (order : WriteOrder) (r : Agent) (recipe : Recipe)
    (t : list Event) : option (Run * list Event) :=
  let run := Run_zero recipe in
  let t0 := t ++ [startLog (Run_Recipe run)] in
  let getDuration := timerFn r t0 in
  match Agent_Run_body_under order r recipe run with
  | None => None
  | Some (run', evs) =>
      let t1 := t0 ++ evs in
      let durationInMs := getDuration t1 in
      Some (run', t1 ++ Agent_logAndRecordMetrics r run' durationInMs)
  end.

(** [Run] when the write after [broadcast] is the last one; this is the only
    order there is when [broadcast] returns [nil]. *)
Definition Agent_Run (r : Agent) (recipe : Recipe) (t : list Event)
    : option (Run * list Event) :=
  Agent_Run_under BroadcastLast r recipe t.

(** The zero value of [recipe.Recipe]. *)
Definition Recipe_zero : Recipe :=
  {| Recipe_Name := EmptyString;
     Recipe_Source := {| Source_Type := EmptyString; Source_Config := [] |};
     Recipe_Processors := []; Recipe_Sinks := [] |}.

(** The goroutines of [RunMultiple], run one after the other in the order
    [sched] (a list of indices into [recipes]): goroutine [i] stores the
    result of [r.Run(recipes[i])] in [runs[i]]. *)
Fixpoint runGoroutines (r : Agent) (recipes : list Recipe) (sched : list nat)
    (runs : list Run) (t : list Event) : option (list Run * list Event) :=
  match sched with
  | [] => Some (runs, t)
  | i :: rest =>
      match recipes !! i with
      | None => None
      | Some recipe =>
          match Agent_Run r recipe t with
          | None => None
          | Some (run, t') => runGoroutines r recipes rest (<[i := run]> runs) t'
          end
      end
  end.

(** [func (r *Agent) RunMultiple(recipes []recipe.Recipe) []Run]:
    [runs := make([]Run, len(recipes))], one goroutine per recipe, and
    [wg.Wait()] before [runs] is returned.  [sched] is the order in which the
    goroutines get to run. *)
Definition Agent_RunMultiple (r : Agent) (recipes : list Recipe)
    (sched : list nat) (t : list Event) : option (list Run * list Event) :=
  runGoroutines r recipes sched
    (replicate (length recipes) (Run_zero Recipe_zero)) t.

(** ** Test fixtures (after [agent/agent_test.go]) *)

Definition noConfig : Config := [].

Definition validRecipe : Recipe :=
  {| Recipe_Name := "sample";
     Recipe_Source := {| Source_Type := "test-extractor"; Source_Config := noConfig |};
     Recipe_Processors :=
       [{| Processor_Name := "test-processor";
           Processor_Config := [("proc-foo", "proc-bar")] |}];
     Recipe_Sinks :=
       [{| Sink_Name := "test-sink";
           Sink_Config := [("url", "http://localhost:3000/data")] |}] |}.

(** [mocks.NewExtractor()] with [SetEmit(data)] and [Extract] ending as [out]. *)
Definition mockExtractor (data : list models_Record) (out : ExtractOutcome)
    : Extractor :=
  {| Extractor_Validate := λ _, None;
     Extractor_Init := λ _, None;
     Extractor_Extract := λ _, (data, out) |}.

(** [mocks.NewProcessor()] with a given [Process]. *)
Definition mockProcessor (f : models_Record → ProcessResult) : Processor :=
  {| Processor_Validate := λ _, None;
     Processor_Init := λ _, None;
     Processor_Process := λ _, f |}.

(** [mocks.NewSink()] with a given [Sink]. *)
Definition mockSink (f : nat → list models_Record → option error) : Syncer :=
  {| Syncer_Validate := λ _, None;
     Syncer_Init := λ _, None;
     Syncer_Sink := λ _, f;
     Syncer_Close := λ _, None |}.

(** The timer of the test "should collect run metrics". *)
Definition expectedDuration : Z := 1000.
Definition testTimerFn : TimerFn := λ _ _, expectedDuration.

(** [agent.NewAgent(agent.Config{...})] over one extractor, one processor and
    one sink registered under the names of [validRecipe]. *)
Definition testAgent (extr : Extractor) (proc : Processor) (sink : Syncer)
    (stop : bool) (maxRetries : nat) : Agent :=
  {| extractorFactory := {[ "test-extractor" := extr ]};
     processorFactory := {[ "test-processor" := proc ]};
     sinkFactory := {[ "test-sink" := sink ]};
     Agent_retrier := {| maxRetries := maxRetries; initialInterval := 1 |};
     stopOnSinkError := stop;
     timerFn := testTimerFn |}.

Definition identityProcess : models_Record → ProcessResult := Processed.
Definition okSink : nat → list models_Record → option error := λ _ _, None.

(** ** Classes of events *)

Definition isInit (ev : Event) : bool :=
  match ev with EvInit _ _ _ => true | _ => false end.

Definition isExtract (ev : Event) : bool :=
  match ev with EvExtract _ => true | _ => false end.

Definition isClose (ev : Event) : bool :=
  match ev with EvClose _ => true | _ => false end.

Definition isRecordRun (ev : Event) : bool :=
  match ev with EvRecordRun _ => true | _ => false end.

Definition isLog (ev : Event) : bool :=
  match ev with EvLog _ _ _ => true | _ => false end.

(** The line that the sink handler logs when the retried [Sink] ends with an
    error. *)
Definition isSinkErrorLog (ev : Event) : bool :=
  match ev with
  | EvLog LevelError msg _ => bool_decide (msg = "error running sink")
  | _ => false
  end.

(** A call of [Sink] with a batch that is not exactly one record. *)
Definition isOddSink (ev : Event) : bool :=
  match ev with
  | EvSink _ records => negb (bool_decide (length records = 1%nat))
  | _ => false
  end.

(** What can happen while records flow: processor and sink calls with
    one-record batches, retrier sleeps, log lines. *)
Definition flowEvent (ev : Event) : bool :=
  match ev with
  | EvLog _ _ _ | EvProcess _ _ | EvSleep _ => true
  | EvSink _ records => bool_decide (length records = 1%nat)
  | _ => false
  end.

(** What can happen from [Extract] on until the body of [Run] returns. *)
Definition runningEvent (ev : Event) : bool :=
  flowEvent ev || isClose ev.

(** ** Validate: the entries it returns *)

(** Modelled after the specification's wording of section 4.6: a plugin
    reference is faulty when its name is missing from the registry or when
    the resolved plugin rejects the configuration. *)
Definition sourceFaulty (r : Agent) (src : SourceRecipe) : bool :=
  match extractorFactory r !! Source_Type src with
  | None => true
  | Some ext => negb (is_nil (Extractor_Validate ext (Source_Config src)))
  end.

Definition sinkFaulty (r : Agent) (s : SinkRecipe) : bool :=
  match sinkFactory r !! Sink_Name s with
  | None => true
  | Some sink => negb (is_nil (Syncer_Validate sink (Sink_Config s)))
  end.

Definition processorFaulty (r : Agent) (p : ProcessorRecipe) : bool :=
  match processorFactory r !! Processor_Name p with
  | None => true
  | Some proc => negb (is_nil (Processor_Validate proc (Processor_Config p)))
  end.


(** ** The setup plan *)

(** A plugin reference of a recipe: role, name, configuration. *)
Definition PlanStep : Type := PluginType * string * Config.

Definition sourceStep (sr : SourceRecipe) : PlanStep :=
  (PluginTypeExtractor, Source_Type sr, Source_Config sr).
Definition processorStep (pr : ProcessorRecipe) : PlanStep :=
  (PluginTypeProcessor, Processor_Name pr, Processor_Config pr).
Definition sinkStep (sr : SinkRecipe) : PlanStep :=
  (PluginTypeSink, Sink_Name sr, Sink_Config sr).

(** The order the specification asks for: the extractor, then every
    processor in recipe order, then every sink. *)
Definition initPlan (recipe : Recipe) : list PlanStep :=
  sourceStep (Recipe_Source recipe) ::
  map processorStep (Recipe_Processors recipe) ++
  map sinkStep (Recipe_Sinks recipe).

Definition initEvent (s : PlanStep) : Event := EvInit s.1.1 s.1.2 s.2.

(** What setting up one reference comes to: [None] when the lookup fails,
    otherwise the result of [Init]. *)
Definition initResult (r : Agent) (s : PlanStep) : option (option error) :=
  match s.1.1 with
  | PluginTypeExtractor =>
      (λ p, Extractor_Init p s.2) <$> extractorFactory r !! s.1.2
  | PluginTypeProcessor =>
      (λ p, Processor_Init p s.2) <$> processorFactory r !! s.1.2
  | PluginTypeSink =>
      (λ p, Syncer_Init p s.2) <$> sinkFactory r !! s.1.2
  end.

Definition stepOK (r : Agent) (s : PlanStep) : bool :=
  match initResult r s with Some None => true | _ => false end.

(** How many [Init] calls a plan leads to when it is followed until the first
    failure. *)
Fixpoint initsCalled (r : Agent) (plan : list PlanStep) : nat :=
  match plan with
  | [] => 0
  | s :: rest =>
      match initResult r s with
      | None => 0
      | Some (Some _) => 1
      | Some None => S (initsCalled r rest)
      end
  end.

(** ** The stream that [Run] builds *)

Fixpoint processorMiddlewares (r : Agent) (prs : list ProcessorRecipe)
    : list streamMiddleware :=
  match prs with
  | [] => []
  | pr :: rest =>
      match processorFactory r !! Processor_Name pr with
      | Some proc => processorMiddleware proc pr :: processorMiddlewares r rest
      | None => processorMiddlewares r rest
      end
  end.

Fixpoint sinkHandlers (r : Agent) (i : nat) (srs : list SinkRecipe)
    : list batchHandler :=
  match srs with
  | [] => []
  | sr :: rest =>
      match sinkFactory r !! Sink_Name sr with
      | Some sink => sinkHandler r sink i sr :: sinkHandlers r (S i) rest
      | None => sinkHandlers r (S i) rest
      end
  end.

Definition freshSubscriber (cb : batchHandler) : subscriber :=
  {| callback := cb; batchSize := defaultBatchSize; batch := [] |}.

Fixpoint sinkCloseHooks (r : Agent) (srs : list SinkRecipe)
    : list (State → State * list Event) :=
  match srs with
  | [] => []
  | sr :: rest =>
      match sinkFactory r !! Sink_Name sr with
      | Some sink => sinkCloseHook sink sr :: sinkCloseHooks r rest
      | None => sinkCloseHooks r rest
      end
  end.

(** A stream with more middlewares, subscribers and close hooks. *)
Definition stream_app (s : stream) (ms : list streamMiddleware)
    (subs : list subscriber) (hooks : list (State → State * list Event)) : stream :=
  {| middlewares := middlewares s ++ ms; subscribers := subscribers s ++ subs;
     onCloses := onCloses s ++ hooks; channel := channel s; closed := closed s;
     terminalErr := terminalErr s |}.

(** ** The drive loop when every batch is one record *)

(** Every handler gets the batch, one after the other. *)
Fixpoint callAll (cbs : list batchHandler) (b : list models_Record) (st : State)
    : option error * State * list Event :=
  match cbs with
  | [] => (None, st, [])
  | cb :: rest =>
      let '(e1, st1, evs1) := cb b st in
      let '(e2, st2, evs2) := callAll rest b st1 in
      (first_error e1 e2, st2, evs1 ++ evs2)
  end.

(** [drive] for subscribers with batch size 1 and an empty buffer: terminal
    error, state and events. *)
Fixpoint driveCore (ms : list streamMiddleware) (cbs : list batchHandler)
    (ch : list models_Record) (st : State) : option error * State * list Event :=
  match ch with
  | [] => (None, st, [])
  | d :: ch' =>
      match runMiddlewares ms d st with
      | (MwOk d', st1, evs1) =>
          let '(e, st2, evs2) := callAll cbs [d'] st1 in
          match e with
          | Some _ => (e, st2, evs1 ++ evs2)
          | None =>
              let '(e3, st3, evs3) := driveCore ms cbs ch' st2 in
              (e3, st3, evs1 ++ evs2 ++ evs3)
          end
      | (MwErr e, st1, evs1) => (Some e, st1, evs1)
      | (MwPanic v, st1, evs1) => (Some (Errorf (format_s v)), st1, evs1)
      end
  end.

Definition initialState : State := {| recordCount := 0; sinkCalls := ∅ |}.

(** What [broadcast] comes to on the stream that [Run] builds for [recipe],
    once the extractor has pushed [records] and the stream is closed. *)
Definition agentBroadcast (r : Agent) (recipe : Recipe)
    (records : list models_Record) : option error * State * list Event :=
  let '(e, st1, evs1) :=
    driveCore (processorMiddlewares r (Recipe_Processors recipe) ++ [countMiddleware])
      (sinkHandlers r 0 (Recipe_Sinks recipe)) records initialState in
  let '(st2, evs2) := runOnCloses (sinkCloseHooks r (Recipe_Sinks recipe)) st1 in
  (e, st2, evs1 ++ evs2).

(** [run.Error] after the extractor goroutine. *)
Definition errorAfterExtract (outcome : ExtractOutcome) (sr : SourceRecipe)
    : option error :=
  match outcome with
  | Returned (Some err) =>
      Some (Wrap (Wrap err ("error running extractor " +:+ quoted (Source_Type sr)))
              "failed to run extractor")
  | Returned None => None
  | Panicked v =>
      match recover v with
      | Some p => Some (Errorf (format_s p))
      | None => None
      end
  end.

(** [run.Error] after [broadcast] returned [berr], [before] being what the
    extractor goroutine writes. *)
Definition errorAfterBroadcast_under (order : WriteOrder)
    (before berr : option error) : option error :=
  match berr with
  | Some err =>
      match order, before with
      | ExtractorLast, Some _ => before
      | _, _ => Some (Wrap err "failed to broadcast stream")
      end
  | None => before
  end.

Definition errorAfterBroadcast (before berr : option error) : option error :=
  errorAfterBroadcast_under BroadcastLast before berr.

(** The records on which no processor of the recipe fails or panics. *)
Fixpoint processorsPass (r : Agent) (prs : list ProcessorRecipe)
    (d : models_Record) : bool :=
  match prs with
  | [] => true
  | pr :: rest =>
      match processorFactory r !! Processor_Name pr with
      | Some proc =>
          match Processor_Process proc (Processor_Config pr) d with
          | Processed d' => processorsPass r rest d'
          | _ => false
          end
      | None => false
      end
  end.

(** ** Properties of closures *)

(** A subscriber as [setupSink] registers it, between two records. *)
Definition subscriberReady (sub : subscriber) : Prop :=
  batchSize sub = 1%nat ∧ batch sub = [].

(** Closures that only cause events of a class [P]. *)
Definition middlewareEmits (P : Event → Prop) (m : streamMiddleware) : Prop :=
  ∀ d st, Forall P (m d st).2.
Definition handlerEmits (P : Event → Prop) (cb : batchHandler) : Prop :=
  ∀ d st, Forall P (cb [d] st).2.
Definition hookEmits (P : Event → Prop) (f : State → State * list Event) : Prop :=
  ∀ st, Forall P (f st).2.

(** A handler that causes only events of class [Q] whenever it returns
    [nil]. *)
Definition handlerQuiet (Q : Event → Prop) (cb : batchHandler) : Prop :=
  ∀ d st, (cb [d] st).1.1 = None → Forall Q (cb [d] st).2.

(** A handler that never returns an error. *)
Definition handlerNil (cb : batchHandler) : Prop :=
  ∀ b st, (cb b st).1.1 = None.

(** A middleware chain that lets the record [d] through in every state. *)
Definition chainPasses (ms : list streamMiddleware) (d : models_Record) : Prop :=
  ∀ st, ∃ d' st' evs, runMiddlewares ms d st = (MwOk d', st', evs).

(** The retried [Sink]: calls of [Sink] with the batch, sleeps, and
    notifications at level info. *)
Definition retryEvent (ev : Event) : bool :=
  match ev with
  | EvSink _ records => bool_decide (length records = 1%nat)
  | EvSleep _ | EvLog LevelInfo _ _ => true
  | _ => false
  end.


(** The [Init] calls of a plan followed until its first failure. *)
Definition initsOf (r : Agent) (plan : list PlanStep) : list Event :=
  map initEvent (take (initsCalled r plan) plan).

(** The value of [run] when the body of [Run] returns after [broadcast]. *)
Definition finishedRun (recipe : Recipe) (err : option error) (count : Z) : Run :=
  {| Run_Recipe := recipe; Run_Error := err; Run_DurationInMs := 0;
     Run_RecordCount := count; Run_Success := is_nil err |}.

(** The value of [run] when the body of [Run] returns from a failed setup. *)
Definition failedSetupRun (recipe : Recipe) (err : error) : Run :=
  {| Run_Recipe := recipe; Run_Error := Some err; Run_DurationInMs := 0;
     Run_RecordCount := 0; Run_Success := false |}.

(** What can happen in the body of [Run]. *)
Definition bodyEvent (ev : Event) : bool :=
  isInit ev || isExtract ev || runningEvent ev.

(** The [Close] calls of the sinks of a recipe, in recipe order. *)
Definition closeEvents (srs : list SinkRecipe) : list Event :=
  map (λ sr, EvClose (Sink_Name sr)) srs.

(** What a close hook of the agent causes. *)
Definition closeHookEvent (ev : Event) : bool :=
  match ev with
  | EvClose _ | EvLog LevelWarn _ _ => true
  | _ => false
  end.

(** The summary that [Run] returns for a recipe. *)
Definition runOf (r : Agent) (recipe : Recipe) : Run :=
  match Agent_Run_body r recipe (Run_zero recipe) with
  | Some (run, _) => run
  | None => Run_zero recipe
  end.

(** Nothing upstream of the sinks goes wrong: setup succeeds, [Extract]
    returns [nil], and no processor fails on an emitted record. *)
Definition cleanUpstream (r : Agent) (recipe : Recipe) : bool :=
  forallb (stepOK r) (initPlan recipe) &&
  match extractorFactory r !! Source_Type (Recipe_Source recipe) with
  | Some ext =>
      match Extractor_Extract ext (Source_Config (Recipe_Source recipe)) with
      | (records, Returned None) =>
          forallb (processorsPass r (Recipe_Processors recipe)) records
      | _ => false
      end
  | None => false
  end.

(** [strings.Contains(s, substr)] *)
Definition contains (s substr : string) : bool :=
  match String.index 0 substr s with Some _ => true | None => false end.

(** The log line that ends [logAndRecordMetrics]. *)
Definition closingLog (run : Run) (durationInMs : Z) : Event :=
  if Run_Success run then
    EvLog LevelInfo "done running recipe"
      [("recipe", FString (Recipe_Name (Run_Recipe run)));
       ("duration_ms", FInt durationInMs);
       ("record_count", FInt (Run_RecordCount run))]
  else
    EvLog LevelError "error running recipe"
      [("recipe", FString (Recipe_Name (Run_Recipe run)));
       ("duration_ms", FInt durationInMs);
       ("records_count", FInt (Run_RecordCount run));
       ("err", FError (Run_Error run))].

(** ** More fixtures *)

(** A processor that fails on one record and passes every other one on. *)
Definition failOn (bad : models_Record) : models_Record → ProcessResult :=
  λ d, if decide (d = bad) then ProcessFailed (New "some error") else Processed d.

(** A sink whose [Sink] always returns the same error. *)
Definition failingSink (e : error) : nat → list models_Record → option error :=
  λ _ _, Some e.

(** Three records are extracted, the processor fails on the last one. *)
Definition agentProcessorFails : Agent :=
  testAgent (mockExtractor ["r1"; "r2"; "r3"] (Returned None))
    (mockProcessor (failOn "r3")) (mockSink okSink) false 0.

(** The tests "should not return error when sink fails" and "should return
    error when sink fails if StopOnSinkError is true". *)
Definition agentSinkFails (stop : bool) : Agent :=
  testAgent (mockExtractor ["r1"] (Returned None))
    (mockProcessor identityProcess) (mockSink (failingSink (New "some error")))
    stop 0.

(** The test "should return error when extractor panicing". *)
Definition agentExtractorPanics : Agent :=
  testAgent (mockExtractor [] (Panicked (PanicString "panicking")))
    (mockProcessor identityProcess) (mockSink okSink) false 0.

(** The extractor emits one record and then panics; the processor fails on
    that record. *)
Definition agentPanicAndProcessorFails : Agent :=
  testAgent (mockExtractor ["r1"] (Panicked (PanicString "boom")))
    (mockProcessor (failOn "r1")) (mockSink okSink) false 0.

(** The happy path of the test "should collect run metrics". *)
Definition agentHappy : Agent :=
  testAgent (mockExtractor ["r1"] (Returned None))
    (mockProcessor identityProcess) (mockSink okSink) false 0.

(** A recipe whose sink is not registered. *)
Definition recipeMissingSink : Recipe :=
  {| Recipe_Name := "sample";
     Recipe_Source := {| Source_Type := "test-extractor"; Source_Config := noConfig |};
     Recipe_Processors := [];
     Recipe_Sinks := [{| Sink_Name := "missing-sink"; Sink_Config := noConfig |}] |}.

(** A recipe whose extractor is not registered. *)
Definition recipeBadExtractor : Recipe :=
  {| Recipe_Name := "sample-2";
     Recipe_Source := {| Source_Type := "no-extractor"; Source_Config := noConfig |};
     Recipe_Processors := Recipe_Processors validRecipe;
     Recipe_Sinks := Recipe_Sinks validRecipe |}.


(** The test "should return error when initiating processor fails". *)
Definition agentProcessorInitFails : Agent :=
  testAgent (mockExtractor ["r1"] (Returned None))
    {| Processor_Validate := λ _, None;
       Processor_Init := λ _, Some (New "some error");
       Processor_Process := λ _, identityProcess |}
    (mockSink okSink) false 0.

Definition isSink (ev : Event) : bool :=
  match ev with EvSink _ _ => true | _ => false end.

(** The test "should retry if sink returns retry error": the first call of
    [Sink] returns a [RetryError], the next ones [nil]; [MaxRetries] is 2. *)
Definition agentRetry : Agent :=
  testAgent (mockExtractor ["r1"] (Returned None))
    (mockProcessor identityProcess)
    (mockSink (λ n _, match n with
                      | O => Some (RetryError (New "some-error"))
                      | S _ => None
                      end))
    false 2.

(** The tests "should return error if extractor could not be found" and its
    siblings: an agent with an empty factory for one role. *)
Definition agentWithout (role : PluginType) : Agent :=
  {| extractorFactory :=
       match role with PluginTypeExtractor => ∅ | _ => extractorFactory agentHappy end;
     processorFactory :=
       match role with PluginTypeProcessor => ∅ | _ => processorFactory agentHappy end;
     sinkFactory :=
       match role with PluginTypeSink => ∅ | _ => sinkFactory agentHappy end;
     Agent_retrier := Agent_retrier agentHappy;
     stopOnSinkError := false;
     timerFn := testTimerFn |}.

(** The test "should return error when extracting fails". *)
Definition agentExtractFails : Agent :=
  testAgent (mockExtractor [] (Returned (Some (New "some error"))))
    (mockProcessor identityProcess) (mockSink okSink) false 0.

(** The test "should return error when processing panics". *)
Definition agentProcessorPanics : Agent :=
  testAgent (mockExtractor ["r1"] (Returned None))
    (mockProcessor (λ _, ProcessPanicked (PanicString "panicking")))
    (mockSink okSink) false 0.

(** [validRecipe2] of [TestRunnerRunMultiple]. *)
Definition validRecipe2 : Recipe :=
  {| Recipe_Name := "sample-2";
     Recipe_Source := Recipe_Source validRecipe;
     Recipe_Processors := Recipe_Processors validRecipe;
     Recipe_Sinks := Recipe_Sinks validRecipe |}.

(** ** Setup failures *)

(** The word for a role in the messages of [Run] and of the setup functions. *)
Definition roleWord (role : PluginType) : string :=
  match role with
  | PluginTypeExtractor => "extractor"
  | PluginTypeProcessor => "processor"
  | PluginTypeSink => "sink"
  end.

(** The error that [setupExtractor], [setupProcessor] or [setupSink] returns
    for a reference, if any: the registry's error wrapped with "could not
    find", or the error of [Init] wrapped with "could not initiate". *)
Definition stepError (r : Agent) (s : PlanStep) : option error :=
  match initResult r s with
  | None =>
      Some (Wrap (NotFoundError s.1.1 s.1.2)
              ("could not find " +:+ roleWord s.1.1 +:+ " " +:+ quoted s.1.2))
  | Some (Some e) =>
      Some (Wrap e ("could not initiate " +:+ roleWord s.1.1 +:+ " " +:+ quoted s.1.2))
  | Some None => None
  end.

(** [run.Error] when setup fails: the error of the first reference of the
    plan that cannot be set up, wrapped with "failed to setup" and its role. *)
Fixpoint setupFailure (r : Agent) (plan : list PlanStep) : option error :=
  match plan with
  | [] => None
  | s :: rest =>
      match stepError r s with
      | Some e => Some (Wrap e ("failed to setup " +:+ roleWord s.1.1))
      | None => setupFailure r rest
      end
  end.

(** An agent whose sinks answer [Close] with [f] instead. *)
Definition Syncer_withClose (f : Config → option error) (s : Syncer) : Syncer :=
  {| Syncer_Validate := Syncer_Validate s; Syncer_Init := Syncer_Init s;
     Syncer_Sink := Syncer_Sink s; Syncer_Close := f |}.

Definition Agent_withClose (f : Config → option error) (r : Agent) : Agent :=
  {| extractorFactory := extractorFactory r;
     processorFactory := processorFactory r;
     sinkFactory := Syncer_withClose f <$> sinkFactory r;
     Agent_retrier := Agent_retrier r;
     stopOnSinkError := stopOnSinkError r;
     timerFn := timerFn r |}.

(** The record that leaves the processors of a recipe for an emitted record
    on which none of them fails: they are applied in recipe order. *)
Fixpoint applyProcessors (r : Agent) (prs : list ProcessorRecipe)
    (d : models_Record) : models_Record :=
  match prs with
  | [] => d
  | pr :: rest =>
      match processorFactory r !! Processor_Name pr with
      | Some proc =>
          match Processor_Process proc (Processor_Config pr) d with
          | Processed d' => applyProcessors r rest d'
          | _ => d
          end
      | None => applyProcessors r rest d
      end
  end.

(** Every sink of the recipe accepts every batch at the first attempt. *)
Definition sinksAccept (r : Agent) (srs : list SinkRecipe) : Prop :=
  ∀ sr sink, sr ∈ srs → sinkFactory r !! Sink_Name sr = Some sink →
    ∀ n b, Syncer_Sink sink (Sink_Config sr) n b = None.


(** A processor that renames a record. *)
Definition renamingProcess : models_Record → ProcessResult :=
  λ d, Processed (d +:+ "'").

(** Two records, a renaming processor, and a recipe that names the sink
    twice. *)
Definition agentRenames : Agent :=
  testAgent (mockExtractor ["r1"; "r2"] (Returned None))
    (mockProcessor renamingProcess) (mockSink okSink) false 0.

Definition recipeTwoSinks : Recipe :=
  {| Recipe_Name := "sample";
     Recipe_Source := Recipe_Source validRecipe;
     Recipe_Processors := Recipe_Processors validRecipe;
     Recipe_Sinks := Recipe_Sinks validRecipe ++ Recipe_Sinks validRecipe |}.

(** A sink whose [Close] fails. *)
Definition closeFails : Config → option error := λ _, Some (New "close failed").

(** No sink handler of the recipe ever returns an error: whatever the batch,
    the retried [Sink] ends with [nil], or [stopOnSinkError] is off. *)
Definition sinkHandlersPass (r : Agent) (srs : list SinkRecipe) : Prop :=
  ∀ i sr sink, srs !! i = Some sr → sinkFactory r !! Sink_Name sr = Some sink →
    ∀ b st, (sinkHandler r sink i sr b st).1.1 = None.

(** A handler that logs a sink error whenever it returns an error. *)
Definition handlerLoud (cb : batchHandler) : Prop :=
  ∀ b st, (cb b st).1.1 ≠ None →
    Exists (λ ev, isSinkErrorLog ev = true) (cb b st).2.

(** The calls of [Sink] on the sink registered as [name]. *)
Definition isSinkTo (name : string) (ev : Event) : bool :=
  match ev with
  | EvSink n _ => bool_decide (n = name)
  | _ => false
  end.

(** A handler that calls the sink [name] with the batch it is given. *)
Definition handlerCalls (name : string) (cb : batchHandler) : Prop :=
  ∀ b st, EvSink name b ∈ (cb b st).2.

(** What the extractor goroutine writes to [run.Error] when [Extract]
    panics with [v]. *)
Definition panicError (v : PanicValue) : option error :=
  match recover v with
  | Some p => Some (Errorf (format_s p))
  | None => None
  end.

(** The extractor emits a record and panics with [nil]. *)
Definition agentExtractorPanicsNil : Agent :=
  testAgent (mockExtractor ["r1"] (Panicked PanicNil))
    (mockProcessor identityProcess) (mockSink okSink) false 0.


(** Two records, a renaming processor and two sinks of different names. *)
Definition agentTwoSinks : Agent :=
  {| extractorFactory :=
       {[ "test-extractor" := mockExtractor ["r1"; "r2"] (Returned None) ]};
     processorFactory := {[ "test-processor" := mockProcessor renamingProcess ]};
     sinkFactory :=
       <[ "other-sink" := mockSink okSink ]> {[ "test-sink" := mockSink okSink ]};
     Agent_retrier := {| maxRetries := 0; initialInterval := 1 |};
     stopOnSinkError := false;
     timerFn := testTimerFn |}.

Definition recipeTwoNamedSinks : Recipe :=
  {| Recipe_Name := "sample";
     Recipe_Source := Recipe_Source validRecipe;
     Recipe_Processors := Recipe_Processors validRecipe;
     Recipe_Sinks :=
       Recipe_Sinks validRecipe ++ [{| Sink_Name := "other-sink"; Sink_Config := [] |}] |}.

(** Under [stopOnSinkError]: the extractor emits a record, which the sink
    refuses, and panics. *)
Definition agentPanicAndSinkFails : Agent :=
  testAgent (mockExtractor ["r1"] (Panicked (PanicString "boom")))
    (mockProcessor identityProcess) (mockSink (failingSink (New "some error")))
    true 0.

(** * The extractor plugins *)

(** ** Assets (packages [assets/v1beta1], [facets/v1beta1], [common/v1beta1]) *)

(** The fields of [facetsv1beta1.Column] that the extractors set. *)
Record Column := {
  Column_Name : string;
  Column_DataType : string;
  Column_Description : string;
  Column_IsNullable : bool;
  Column_Length : Z;
}.

(** The fields of [assetsv1beta1.Table] that the extractors set: the
    resource ([Urn], [Name], [Service]), the schema and the profile.  A
    pointer that an extractor leaves [nil] is [None]. *)
Record Table := {
  Table_Urn : string;
  Table_Name : string;
  Table_Service : string;
  Table_Schema : option (list Column);
  Table_TotalRows : option Z;
}.

(** The fields of [assetsv1beta1.User] that the github extractor sets. *)
Record User := {
  User_Urn : string;
  User_Email : string;
  User_Username : string;
  User_FullName : string;
  User_Status : string;
}.

(** ** [sort.Strings] *)

(** [a <= b] on Go strings: lexicographic on the bytes. *)
Definition string_leb (a b : string) : bool :=
  match String_as_OT.compare a b with
  | Gt => false
  | _ => true
  end.

Definition string_le (a b : string) : Prop := string_leb a b = true.

Global Instance string_le_dec : RelDecision string_le :=
  λ a b, decide (string_leb a b = true).

(** [sort.Strings(l)]: the strings of [l] in increasing order. *)
Definition sort_Strings (l : list string) : list string := merge_sort string_le l.

(** ** Package [mongodb] *)

(** What the extractor asks of the mongo client: the database names, the
    collection names of a database, the estimated document count of a
    collection.  Each call returns a value or an error. *)
Record mongo_Client := {
  ListDatabaseNames : list string + error;
  ListCollectionNames : string → list string + error;
  EstimatedDocumentCount : string → string → Z + error;
}.

Definition mongodb_defaultCollections : list string :=
  ["system.users"; "system.version"; "system.sessions"; "startup_log"].

(** [type Extractor struct] of package [mongodb]: the client and the map of
    excluded collections ([nil] before [Init]). *)
Record mongodb_Extractor := {
  mongodb_client : mongo_Client;
  mongodb_excluded : gmap string bool;
}.

(** [func (e *Extractor) buildExcludedCollections()] *)
Definition mongodb_buildExcludedCollections (e : mongodb_Extractor)
    : mongodb_Extractor :=
  let excluded :=
    foldl (λ (m : gmap string bool) collection, <[collection := true]> m) ∅
      mongodb_defaultCollections in
  {| mongodb_client := mongodb_client e; mongodb_excluded := excluded |}.

(** [func (e *Extractor) isDefaultCollection(collectionName string) bool] *)
Definition mongodb_isDefaultCollection (e : mongodb_Extractor)
    (collectionName : string) : bool :=
  match mongodb_excluded e !! collectionName with
  | Some _ => true
  | None => false
  end.

(** [func (e *Extractor) buildTable(ctx, db, collectionName)] *)
Definition mongodb_buildTable (e : mongodb_Extractor) (db collectionName : string)
    : Table + error :=
  match EstimatedDocumentCount (mongodb_client e) db collectionName with
  | inr err => inr (Wrap err "failed to fetch total no of rows")
  | inl totalRows =>
      inl {| Table_Urn := db +:+ "." +:+ collectionName;
             Table_Name := collectionName;
             Table_Service := EmptyString;
             Table_Schema := None;
             Table_TotalRows := Some totalRows |}
  end.

(** The loop of [extractCollections] over the sorted collection names: the
    tables emitted, and the error that ends the loop, if any. *)
Fixpoint mongodb_emitCollections (e : mongodb_Extractor) (db : string)
    (collections : list string) : list Table * option error :=
  match collections with
  | [] => ([], None)
  | collectionName :: rest =>
      if mongodb_isDefaultCollection e collectionName
      then mongodb_emitCollections e db rest
      else
        match mongodb_buildTable e db collectionName with
        | inr err => ([], Some (Wrap err "failed to build table"))
        | inl table =>
            let '(emitted, err) := mongodb_emitCollections e db rest in
            (table :: emitted, err)
        end
  end.

(** [func (e *Extractor) extractCollections(ctx, db, emit)] *)
Definition mongodb_extractCollections (e : mongodb_Extractor) (db : string)
    : list Table * option error :=
  match ListCollectionNames (mongodb_client e) db with
  | inr err => ([], Some (Wrap err "failed to list collection names"))
  | inl collections => mongodb_emitCollections e db (sort_Strings collections)
  end.

(** The loop of [Extract] over the databases. *)
Fixpoint mongodb_extractDatabases (e : mongodb_Extractor) (databases : list string)
    : list Table * option error :=
  match databases with
  | [] => ([], None)
  | dbName :: rest =>
      match mongodb_extractCollections e dbName with
      | (emitted, Some err) =>
          (emitted, Some (Wrap err "failed to extract collections"))
      | (emitted, None) =>
          let '(emitted', err) := mongodb_extractDatabases e rest in
          (emitted ++ emitted', err)
      end
  end.

(** [func (e *Extractor) Extract(ctx, emit) (err error)] of package
    [mongodb]: the tables handed to [emit], in order, and the result. *)
Definition mongodb_Extract (e : mongodb_Extractor) : list Table * option error :=
  match ListDatabaseNames (mongodb_client e) with
  | inr err => ([], Some (Wrap err "failed to list database names"))
  | inl databases => mongodb_extractDatabases e databases
  end.

(** The mongo server of [mongodb_test.go]: mongo's own databases and the
    test database with the collections [connections], [posts] and [stats]. *)
Definition testMongo : mongo_Client :=
  {| ListDatabaseNames := inl ["admin"; "config"; "local"; "MeteorMongoExtractorTest"];
     ListCollectionNames := λ db,
       if decide (db = "admin") then inl ["system.version"; "system.users"]
       else if decide (db = "config") then inl ["system.sessions"]
       else if decide (db = "local") then inl ["startup_log"]
       else inl ["stats"; "posts"; "connections"];
     EstimatedDocumentCount := λ _ collection,
       if decide (collection = "connections") then inl 3
       else if decide (collection = "posts") then inl 2
       else inl 1 |}.

Definition testMongoExtractor : mongodb_Extractor :=
  mongodb_buildExcludedCollections
    {| mongodb_client := testMongo; mongodb_excluded := ∅ |}.

(** A mongo server whose count fails for one collection. *)
Definition brokenMongo : mongo_Client :=
  {| ListDatabaseNames := inl ["shop"];
     ListCollectionNames := λ _, inl ["orders"; "carts"; "system.users"];
     EstimatedDocumentCount := λ _ collection,
       if decide (collection = "orders") then inr (New "cursor closed")
       else inl 7 |}.

(** ** Package [cassandra] *)

(** What the extractor reads from the session.  Each field stands for one of
    the three queries and lists, per row for which [scanner.Next()] holds,
    what [scanner.Scan] returns for it: the scanned values, or an error (the
    destinations then keep their zero values). *)
Record gocql_Session := {
  session_keyspaces : list (string + error);
  session_tables : string → list (string + error);
  session_columns : string → string → list (string * string + error);
}.

Definition cassandra_defaultKeyspaceList : list string :=
  ["system"; "system_schema"; "system_auth"; "system_distributed";
   "system_traces"].

(** [type Extractor struct] of package [cassandra]. *)
Record cassandra_Extractor := {
  cassandra_session : gocql_Session;
  cassandra_excludedKeyspaces : gmap string bool;
}.

(** [func (e *Extractor) buildExcludedKeyspaces()] *)
Definition cassandra_buildExcludedKeyspaces (e : cassandra_Extractor)
    : cassandra_Extractor :=
  let excludedMap :=
    foldl (λ (m : gmap string bool) db, <[db := true]> m) ∅
      cassandra_defaultKeyspaceList in
  {| cassandra_session := cassandra_session e;
     cassandra_excludedKeyspaces := excludedMap |}.

(** [func (e *Extractor) isExcludedKeyspace(keyspace string) bool] *)
Definition cassandra_isExcludedKeyspace (e : cassandra_Extractor)
    (keyspace : string) : bool :=
  match cassandra_excludedKeyspaces e !! keyspace with
  | Some _ => true
  | None => false
  end.

(** [&facetsv1beta1.Column{Name: fieldName, DataType: dataType}] *)
Definition cassandra_Column (fieldName dataType : string) : Column :=
  {| Column_Name := fieldName; Column_DataType := dataType;
     Column_Description := EmptyString; Column_IsNullable := false;
     Column_Length := 0 |}.

(** The loop of [extractColumns]: [columns] and [err] are the named results,
    [err] being assigned by every [Scan]. *)
Fixpoint cassandra_scanColumns (rows : list (string * string + error))
    (columns : list Column) (err : option error)
    : list Column * option error * list Event :=
  match rows with
  | [] => (columns, err, [])
  | inr e :: rest =>
      let '(columns', err', logs) := cassandra_scanColumns rest columns (Some e) in
      (columns', err',
       logger LevelError "failed to get fields" [("error", FError (Some e))] ++ logs)
  | inl (fieldName, dataType) :: rest =>
      cassandra_scanColumns rest
        (columns ++ [cassandra_Column fieldName dataType]) None
  end.

(** [func (e *Extractor) extractColumns(keyspace, tableName)] *)
Definition cassandra_extractColumns (e : cassandra_Extractor)
    (keyspace tableName : string) : list Column * option error * list Event :=
  cassandra_scanColumns (session_columns (cassandra_session e) keyspace tableName)
    [] None.

(** [func (e *Extractor) processTable(keyspace, tableName)]: the tables
    emitted, the result and the log. *)
Definition cassandra_processTable (e : cassandra_Extractor)
    (keyspace tableName : string) : list Table * option error * list Event :=
  match cassandra_extractColumns e keyspace tableName with
  | (_, Some err, logs) => ([], Some (Wrap err "failed to extract columns"), logs)
  | (columns, None, logs) =>
      ([{| Table_Urn := keyspace +:+ "." +:+ tableName;
           Table_Name := tableName;
           Table_Service := EmptyString;
           Table_Schema := Some columns;
           Table_TotalRows := None |}], None, logs)
  end.

(** The loop of [extractTables]. *)
Fixpoint cassandra_scanTables (e : cassandra_Extractor) (keyspace : string)
    (rows : list (string + error)) : list Table * option error * list Event :=
  match rows with
  | [] => ([], None, [])
  | inr err :: _ =>
      ([], Some (Wrap err ("failed to iterate over " +:+ EmptyString)), [])
  | inl tableName :: rest =>
      match cassandra_processTable e keyspace tableName with
      | (emitted, Some err, logs) =>
          (emitted, Some (Wrap err "failed to process table"), logs)
      | (emitted, None, logs) =>
          let '(emitted', err, logs') := cassandra_scanTables e keyspace rest in
          (emitted ++ emitted', err, logs ++ logs')
      end
  end.

(** [func (e *Extractor) extractTables(keyspace string) (err error)] *)
Definition cassandra_extractTables (e : cassandra_Extractor) (keyspace : string)
    : list Table * option error * list Event :=
  cassandra_scanTables e keyspace (session_tables (cassandra_session e) keyspace).

(** The loop of [Extract] over the keyspace rows. *)
Fixpoint cassandra_scanKeyspaces (e : cassandra_Extractor)
    (rows : list (string + error)) : list Table * option error * list Event :=
  match rows with
  | [] => ([], None, [])
  | inr err :: _ =>
      ([], Some (Wrap err ("failed to iterate over " +:+ EmptyString)), [])
  | inl keyspace :: rest =>
      if cassandra_isExcludedKeyspace e keyspace
      then cassandra_scanKeyspaces e rest
      else
        match cassandra_extractTables e keyspace with
        | (emitted, Some err, logs) =>
            (emitted,
             Some (Wrap err ("failed to extract tables from " +:+ keyspace)), logs)
        | (emitted, None, logs) =>
            let '(emitted', err, logs') := cassandra_scanKeyspaces e rest in
            (emitted ++ emitted', err, logs ++ logs')
        end
  end.

(** [func (e *Extractor) Extract(ctx, emit) (err error)] of package
    [cassandra]: the tables handed to [emit], the result and the log.  The
    deferred [session.Close()] has no part in either. *)
Definition cassandra_Extract (e : cassandra_Extractor)
    : list Table * option error * list Event :=
  cassandra_scanKeyspaces e (session_keyspaces (cassandra_session e)).

(** The successfully scanned rows of a column query, as columns. *)
Definition cassandra_columnsOf (rows : list (string * string + error))
    : list Column :=
  omap (λ row, match row with
               | inl (fieldName, dataType) => Some (cassandra_Column fieldName dataType)
               | inr _ => None
               end) rows.

(** The errors of the rows whose scan failed. *)
Definition scanErrors {T : Type} (rows : list (T + error)) : list error :=
  omap (λ row, match row with inl _ => None | inr e => Some e end) rows.

(** The values of the rows whose scan succeeded. *)
Definition scanned {T : Type} (rows : list (T + error)) : list T :=
  omap (λ row, match row with inl v => Some v | inr _ => None end) rows.

(** The error of the last row, if its scan failed. *)
Definition lastScanError {T : Type} (rows : list (T + error)) : option error :=
  match last rows with
  | Some (inr e) => Some e
  | _ => None
  end.

(** The table the cassandra extractor builds for [tableName] of [keyspace]. *)
Definition cassandra_tableOf (s : gocql_Session) (keyspace tableName : string)
    : Table :=
  {| Table_Urn := keyspace +:+ "." +:+ tableName;
     Table_Name := tableName;
     Table_Service := EmptyString;
     Table_Schema := Some (cassandra_columnsOf (session_columns s keyspace tableName));
     Table_TotalRows := None |}.

(** The cassandra server of the tests: the system keyspaces and the test
    keyspace with the tables [applicant] and [jobs]. *)
Definition testCassandra : gocql_Session :=
  {| session_keyspaces :=
       [inl "system_auth"; inl "system_schema"; inl "cassandra_meteor_test";
        inl "system"];
     session_tables := λ keyspace,
       if decide (keyspace = "cassandra_meteor_test")
       then [inl "applicant"; inl "jobs"]
       else [inl "roles"];
     session_columns := λ _ tableName,
       if decide (tableName = "applicant")
       then [inl ("applicantid", "int"); inl ("first_name", "text");
             inl ("last_name", "text")]
       else [inl ("department", "text"); inl ("job", "text");
             inl ("jobid", "int")] |}.

Definition testCassandraExtractor : cassandra_Extractor :=
  cassandra_buildExcludedKeyspaces
    {| cassandra_session := testCassandra; cassandra_excludedKeyspaces := ∅ |}.

(** Column rows of which the second cannot be scanned. *)
Definition rowsMiddleFails : list (string * string + error) :=
  [inl ("id", "int"); inr (New "can not unmarshal"); inl ("name", "text")].

(** ** Package [github] *)

(** The fields of [github.User] that the extractor reads; each is a pointer
    in the client library, [nil] being [None]. *)
Record github_User := {
  gh_Login : option string;
  gh_URL : option string;
  gh_Email : option string;
  gh_Name : option string;
}.

(** The getters [GetURL], [GetEmail], [GetLogin], [GetName]: the field, or
    the empty string when it is [nil]. *)
Definition github_get (field : option string) : string :=
  default EmptyString field.

(** What the extractor asks of the github client. *)
Record github_Client := {
  Organizations_ListMembers : string → list github_User + error;
  Users_Get : string → github_User + error;
}.

(** [type Extractor struct] of package [github]: the [Org] of the config and
    the client. *)
Record github_Extractor := {
  github_Org : string;
  github_client : github_Client;
}.

(** What dereferencing a [nil] pointer panics with. *)
Definition nilDereference : PanicValue :=
  PanicError (New "runtime error: invalid memory address or nil pointer dereference").

(** The asset emitted for a fetched user. *)
Definition github_asset (usr : github_User) : User :=
  {| User_Urn := github_get (gh_URL usr);
     User_Email := github_get (gh_Email usr);
     User_Username := github_get (gh_Login usr);
     User_FullName := github_get (gh_Name usr);
     User_Status := "active" |}.

(** The loop of [Extract] over the members. *)
Fixpoint github_emitUsers (e : github_Extractor) (users : list github_User)
    : list User * list Event * ExtractOutcome :=
  match users with
  | [] => ([], [], Returned None)
  | user :: rest =>
      match gh_Login user with
      | None => ([], [], Panicked nilDereference)
      | Some login =>
          match Users_Get (github_client e) login with
          | inr err =>
              let '(emitted, logs, outcome) := github_emitUsers e rest in
              (emitted,
               logger LevelError "failed to fetch user" [("error", FError (Some err))]
                 ++ logs,
               outcome)
          | inl usr =>
              let '(emitted, logs, outcome) := github_emitUsers e rest in
              (github_asset usr :: emitted, logs, outcome)
          end
      end
  end.

(** [func (e *Extractor) Extract(ctx, emit) (err error)] of package
    [github]: the users handed to [emit], the log, and how the call ends. *)
Definition github_Extract (e : github_Extractor)
    : list User * list Event * ExtractOutcome :=
  match Organizations_ListMembers (github_client e) (github_Org e) with
  | inr err => ([], [], Returned (Some (Wrap err "failed to fetch organizations")))
  | inl users => github_emitUsers e users
  end.

(** Whether [Users.Get] finds the member. *)
Definition github_found (e : github_Extractor) (user : github_User) : bool :=
  match gh_Login user with
  | Some login =>
      match Users_Get (github_client e) login with inl _ => true | inr _ => false end
  | None => false
  end.

(** The asset of a member that [Users.Get] finds. *)
Definition github_assetOf (e : github_Extractor) (user : github_User)
    : option User :=
  match gh_Login user with
  | Some login =>
      match Users_Get (github_client e) login with
      | inl usr => Some (github_asset usr)
      | inr _ => None
      end
  | None => None
  end.

Definition githubMember (login : string) : github_User :=
  {| gh_Login := Some login; gh_URL := None; gh_Email := None; gh_Name := None |}.

(** An organisation with three members of which one cannot be fetched. *)
Definition testGithub : github_Extractor :=
  {| github_Org := "odpf";
     github_client :=
       {| Organizations_ListMembers := λ _,
            inl [githubMember "ann"; githubMember "bob"; githubMember "cy"];
          Users_Get := λ login,
            if decide (login = "bob") then inr (New "404 Not Found")
            else inl {| gh_Login := Some login;
                        gh_URL := Some ("https://api.github.com/users/" +:+ login);
                        gh_Email := None;
                        gh_Name := Some login |} |} |}.

(** ** Package [oracle] *)

(** The result of [db.Query]: an error, or the rows; a row holds what
    [rows.Scan] returns for it, the scanned values or an error (the
    destinations are then left as they were). *)
Definition sql_Rows (T : Type) : Type := list (T + error) + error.

(** The values scanned from a row of the column query. *)
Record oracle_ColumnRow := {
  fieldName : string;
  dataType : string;
  length_ : Z;
  isNullableString : string;
  fieldDesc : string;
}.

(** [*sql.DB] as the extractor uses it: each field stands for [db.Query] on
    one of its five statements, taking the value the statement is formatted
    with. *)
Record sql_DB := {
  query_user : sql_Rows string;
  query_database_name : sql_Rows string;
  query_tables : string → sql_Rows string;
  query_columns : string → sql_Rows oracle_ColumnRow;
  query_count : string → sql_Rows Z;
}.

(** The loop of [getUserName] and of [getDatabaseName]: the value is
    overwritten by every row, the first failing [Scan] returns. *)
Fixpoint oracle_scanName (rows : list (string + error)) (name : string)
    : string * option error :=
  match rows with
  | [] => (name, None)
  | inr err :: _ => (name, Some err)
  | inl v :: rest => oracle_scanName rest v
  end.

(** [func (e *Extractor) getUserName(db *sql.DB) (userName string, err error)] *)
Definition oracle_getUserName (db : sql_DB) : string * option error :=
  match query_user db with
  | inr err => (EmptyString, Some err)
  | inl rows => oracle_scanName rows EmptyString
  end.

(** [func (e *Extractor) getDatabaseName(db *sql.DB) (database string, err error)] *)
Definition oracle_getDatabaseName (db : sql_DB) : string * option error :=
  match query_database_name db with
  | inr err => (EmptyString, Some err)
  | inl rows => oracle_scanName rows EmptyString
  end.

(** The loop of [getTables]; [tableList] is the named result [list]. *)
Fixpoint oracle_scanTables (rows : list (string + error)) (tableList : list string)
    : list string * option error :=
  match rows with
  | [] => (tableList, None)
  | inr err :: _ => (tableList, Some err)
  | inl table :: rest => oracle_scanTables rest (tableList ++ [table])
  end.

(** [func (e *Extractor) getTables(db, dbName, userName) (list []string, err error)] *)
Definition oracle_getTables (db : sql_DB) (dbName userName : string)
    : list string * option error :=
  match query_tables db userName with
  | inr err => ([], Some err)
  | inl rows => oracle_scanTables rows []
  end.

(** [func isNullable(value string) bool] *)
Definition oracle_isNullable (value : string) : bool :=
  bool_decide (value = "Y").

(** The loop of [getColumnMetadata]. *)
Fixpoint oracle_scanColumns (rows : list (oracle_ColumnRow + error))
    (result : list Column) : list Column * list Event :=
  match rows with
  | [] => (result, [])
  | inr err :: rest =>
      let '(result', logs) := oracle_scanColumns rest result in
      (result',
       logger LevelError "failed to get fields" [("error", FError (Some err))] ++ logs)
  | inl row :: rest =>
      oracle_scanColumns rest
        (result ++ [{| Column_Name := fieldName row;
                       Column_DataType := dataType row;
                       Column_Description := fieldDesc row;
                       Column_IsNullable := oracle_isNullable (isNullableString row);
                       Column_Length := length_ row |}])
  end.

(** [func (e *Extractor) getColumnMetadata(db, dbName, tableName)] *)
Definition oracle_getColumnMetadata (db : sql_DB) (dbName tableName : string)
    : list Column * option error * list Event :=
  match query_columns db tableName with
  | inr err => ([], Some (Wrap err "failed to fetch data from query"), [])
  | inl rows =>
      let '(result, logs) := oracle_scanColumns rows [] in
      (result, None, logs)
  end.

(** The loop of [getTableMetadata] over the rows of the count: [rowCount]
    keeps the last value scanned, [err] the result of the last [Scan]. *)
Fixpoint oracle_scanCount (rows : list (Z + error)) (rowCount : Z)
    (err : option error) : Z * option error * list Event :=
  match rows with
  | [] => (rowCount, err, [])
  | inr e :: rest =>
      let '(rowCount', err', logs) := oracle_scanCount rest rowCount (Some e) in
      (rowCount', err',
       logger LevelError "failed to get fields" [("error", FError (Some e))] ++ logs)
  | inl n :: rest => oracle_scanCount rest n None
  end.

(** How a call of [getTableMetadata] ends. *)
Inductive oracle_Metadata :=
| MetadataReturned (result : option Table) (err : option error)
| MetadataPanicked (v : PanicValue).

(** [func (e *Extractor) getTableMetadata(db, dbName, tableName)].  The error
    of the count query is not looked at: its rows are read at once, which
    panics when the query failed and the rows are [nil]. *)
Definition oracle_getTableMetadata (db : sql_DB) (dbName tableName : string)
    : oracle_Metadata * list Event :=
  match oracle_getColumnMetadata db dbName tableName with
  | (_, Some _, logs) => (MetadataReturned None None, logs)
  | (columns, None, logs) =>
      match query_count db tableName with
      | inr _ => (MetadataPanicked nilDereference, logs)
      | inl rows =>
          let '(rowCount, err, logs') := oracle_scanCount rows 0 None in
          (MetadataReturned
             (Some {| Table_Urn := dbName +:+ "." +:+ tableName;
                      Table_Name := tableName;
                      Table_Service := "Oracle";
                      Table_Schema := Some columns;
                      Table_TotalRows := Some rowCount |}) err,
           logs ++ logs')
      end
  end.

(** The loop of [Extract] over the tables: a record is emitted for every
    table, also when its metadata could not be read ([result] is then what
    [getTableMetadata] returned, possibly [nil]). *)
Fixpoint oracle_emitTables (db : sql_DB) (database : string) (tables : list string)
    : list (option Table) * list Event * ExtractOutcome :=
  match tables with
  | [] => ([], [], Returned None)
  | table :: rest =>
      match oracle_getTableMetadata db database table with
      | (MetadataPanicked v, logs) => ([], logs, Panicked v)
      | (MetadataReturned result err, logs) =>
          let logs1 :=
            match err with
            | Some e =>
                logger LevelError "failed to get table metadata, skipping table"
                  [("error", FError (Some e))]
            | None => []
            end in
          let '(emitted, logs', outcome) := oracle_emitTables db database rest in
          (result :: emitted, logs ++ logs1 ++ logs', outcome)
      end
  end.

(** [func (e *Extractor) Extract(ctx, emit) (err error)] of package
    [oracle]: the records handed to [emit], the log, and how the call ends.
    The deferred [db.Close()] has no part in either. *)
Definition oracle_Extract (db : sql_DB)
    : list (option Table) * list Event * ExtractOutcome :=
  match oracle_getUserName db with
  | (_, Some err) =>
      ([], logger LevelError "failed to get the user name"
             [("error", FError (Some err))], Returned (Some err))
  | (userName, None) =>
      match oracle_getDatabaseName db with
      | (_, Some err) =>
          ([], logger LevelError "failed to get the database name"
                 [("error", FError (Some err))], Returned (Some err))
      | (database, None) =>
          let '(tables, err) := oracle_getTables db database userName in
          let logs1 :=
            match err with
            | Some e =>
                logger LevelError "failed to get tables, skipping database"
                  [("error", FError (Some e))]
            | None => []
            end in
          let '(emitted, logs, outcome) := oracle_emitTables db database tables in
          (emitted, logs1 ++ logs, outcome)
      end
  end.

(** Whether the count query of a table can be issued. *)
Definition oracle_countable (db : sql_DB) (table : string) : bool :=
  match query_columns db table, query_count db table with
  | inl _, inr _ => false
  | _, _ => true
  end.

(** An oracle database with two tables; the columns of [audit] cannot be
    queried and the table listing breaks after the second row. *)
Definition testOracle : sql_DB :=
  {| query_user := inl [inl "admin"];
     query_database_name := inl [inl "XE"];
     query_tables := λ _,
       inl [inl "employee"; inl "audit"; inr (New "bad row"); inl "never"];
     query_columns := λ table,
       if decide (table = "audit") then inr (New "ORA-00942")
       else inl [inl {| fieldName := "id"; dataType := "NUMBER"; length_ := 22;
                        isNullableString := "N"; fieldDesc := EmptyString |};
                 inl {| fieldName := "name"; dataType := "VARCHAR2"; length_ := 255;
                        isNullableString := "Y"; fieldDesc := "full name" |}];
     query_count := λ _, inl [inl 3] |}.

(** ** Closed forms for the extractor plugins *)

(** The map built by the loops of [buildExcludedCollections] and
    [buildExcludedKeyspaces]. *)
Definition excludedMap (names : list string) : gmap string bool :=
  foldl (λ (m : gmap string bool) name, <[name := true]> m) ∅ names.

(** The collections of a database, none when they cannot be listed. *)
Definition mongodb_collectionsOf (client : mongo_Client) (db : string)
    : list string :=
  match ListCollectionNames client db with
  | inl collections => collections
  | inr _ => []
  end.

(** The table the mongodb extractor builds for a collection with [totalRows]
    documents. *)
Definition mongodb_tableOf (db collectionName : string) (totalRows : Z) : Table :=
  {| Table_Urn := db +:+ "." +:+ collectionName;
     Table_Name := collectionName;
     Table_Service := EmptyString;
     Table_Schema := None;
     Table_TotalRows := Some totalRows |}.

(** The document count of a collection, 0 when it cannot be read. *)
Definition mongodb_countOf (client : mongo_Client) (db collectionName : string)
    : Z :=
  match EstimatedDocumentCount client db collectionName with
  | inl totalRows => totalRows
  | inr _ => 0
  end.

(** The collections of which the extractor reads the count. *)
Definition mongodb_userCollections (collections : list string) : list string :=
  List.filter (λ c, negb (bool_decide (c ∈ mongodb_defaultCollections))) collections.

(** Every call that [Extract] makes of the client succeeds. *)
Definition mongodb_healthy (client : mongo_Client) : Prop :=
  ∃ databases, ListDatabaseNames client = inl databases ∧
    ∀ db, db ∈ databases →
      ∃ collections, ListCollectionNames client db = inl collections ∧
        ∀ c, c ∈ collections → c ∉ mongodb_defaultCollections →
          ∃ totalRows, EstimatedDocumentCount client db c = inl totalRows.

(** The databases of the server, none when they cannot be listed. *)
Definition mongodb_databasesOf (client : mongo_Client) : list string :=
  match ListDatabaseNames client with
  | inl databases => databases
  | inr _ => []
  end.

(** A freshly created mongodb extractor after the part of [Init] that
    concerns [Extract]. *)
Definition mongodb_New (client : mongo_Client) : mongodb_Extractor :=
  mongodb_buildExcludedCollections
    {| mongodb_client := client; mongodb_excluded := ∅ |}.

(** A freshly created cassandra extractor after the part of [Init] that
    concerns [Extract]. *)
Definition cassandra_New (s : gocql_Session) : cassandra_Extractor :=
  cassandra_buildExcludedKeyspaces
    {| cassandra_session := s; cassandra_excludedKeyspaces := ∅ |}.

(** The keyspaces whose tables the extractor reads. *)
Definition cassandra_userKeyspaces (keyspaces : list string) : list string :=
  List.filter (λ k, negb (bool_decide (k ∈ cassandra_defaultKeyspaceList))) keyspaces.

(** No scan that [Extract] relies on fails: the keyspace rows, the table
    rows of the keyspaces that are not excluded, and the last column row of
    each of their tables. *)
Definition cassandra_healthy (s : gocql_Session) : Prop :=
  scanErrors (session_keyspaces s) = [] ∧
  ∀ k, inl k ∈ session_keyspaces s → k ∉ cassandra_defaultKeyspaceList →
    scanErrors (session_tables s k) = [] ∧
    ∀ tn, inl tn ∈ session_tables s k →
      lastScanError (session_columns s k tn) = None.

(** The log of the rows of a query that could not be scanned. *)
Definition scanLogs {T : Type} (rows : list (T + error)) : list Event :=
  flat_map (λ e, logger LevelError "failed to get fields" [("error", FError (Some e))])
    (scanErrors rows).

(** A cassandra server with a table of which a column row in the middle
    cannot be scanned. *)
Definition cassandraMiddleFails : gocql_Session :=
  {| session_keyspaces := [inl "shop"];
     session_tables := λ _, [inl "orders"];
     session_columns := λ _ _, rowsMiddleFails |}.

(** The error with which [Users.Get] fails for a member, if it does. *)
Definition github_getError (e : github_Extractor) (user : github_User)
    : option error :=
  match gh_Login user with
  | Some login =>
      match Users_Get (github_client e) login with
      | inl _ => None
      | inr err => Some err
      end
  | None => None
  end.

(** The members of the organisation, none when they cannot be listed. *)
Definition github_members (e : github_Extractor) : list github_User :=
  match Organizations_ListMembers (github_client e) (github_Org e) with
  | inl users => users
  | inr _ => []
  end.

(** The values scanned before the first row whose scan fails. *)
Fixpoint scannedPrefix {T : Type} (rows : list (T + error)) : list T :=
  match rows with
  | inl v :: rest => v :: scannedPrefix rest
  | _ => []
  end.

(** The tables with which [Extract] goes on: those read before the table
    query or one of its rows failed. *)
Definition oracle_tablesRead (db : sql_DB) (userName : string) : list string :=
  match query_tables db userName with
  | inl rows => scannedPrefix rows
  | inr _ => []
  end.

(** The column built from a scanned row. *)
Definition oracle_column (row : oracle_ColumnRow) : Column :=
  {| Column_Name := fieldName row;
     Column_DataType := dataType row;
     Column_Description := fieldDesc row;
     Column_IsNullable := oracle_isNullable (isNullableString row);
     Column_Length := length_ row |}.

(** The row count reported for a table: the last count that could be
    scanned, 0 when there is none. *)
Definition oracle_rowCount (db : sql_DB) (table : string) : Z :=
  match query_count db table with
  | inl rows => default 0 (last (scanned rows))
  | inr _ => 0
  end.

(** The record emitted for a table: [nil] when its columns cannot be
    queried. *)
Definition oracle_recordOf (db : sql_DB) (database table : string)
    : option Table :=
  match query_columns db table with
  | inr _ => None
  | inl rows =>
      Some {| Table_Urn := database +:+ "." +:+ table;
              Table_Name := table;
              Table_Service := "Oracle";
              Table_Schema := Some (map oracle_column (scanned rows));
              Table_TotalRows := Some (oracle_rowCount db table) |}
  end.

(** An oracle database whose count query fails for the table [payroll]. *)
Definition oracleCountFails : sql_DB :=
  {| query_user := inl [inl "admin"];
     query_database_name := inl [inl "XE"];
     query_tables := λ _, inl [inl "employee"; inl "audit"; inl "payroll"];
     query_columns := query_columns testOracle;
     query_count := λ table,
       if decide (table = "payroll") then inr (New "ORA-01031") else inl [inl 3] |}.

(** An oracle database that does not tell its name. *)
Definition oracleNameless : sql_DB :=
  {| query_user := inl [inl "admin"];
     query_database_name := inr (New "ORA-03113");
     query_tables := query_tables testOracle;
     query_columns := query_columns testOracle;
     query_count := query_count testOracle |}.
(** * Properties *)

(** ** Validate *)

Lemma Validate_sinks_length r rcp srs : ∀ errs,
  length (foldl (Validate_sink r rcp) errs srs)
  = (length errs + length (List.filter (sinkFaulty r) srs))%nat.
Proof.
  induction srs as [|s srs IH]; intros errs; simpl.
  - lia.
  - rewrite IH. unfold Validate_sink, Factory_Get, sinkFaulty at 2.
    destruct (sinkFactory r !! Sink_Name s) as [sink|] eqn:Hget.
    + destruct (Syncer_Validate sink (Sink_Config s)); simpl.
      * rewrite length_app. simpl. lia.
      * lia.
    + rewrite length_app. simpl. lia.
Qed.

Lemma Validate_processors_length r rcp prs : ∀ errs,
  length (foldl (Validate_processor r rcp) errs prs)
  = (length errs + length (List.filter (processorFaulty r) prs))%nat.
Proof.
  induction prs as [|p prs IH]; intros errs; simpl.
  - lia.
  - rewrite IH. unfold Validate_processor, Factory_Get, processorFaulty at 2.
    destruct (processorFactory r !! Processor_Name p) as [proc|] eqn:Hget.
    + destruct (Processor_Validate proc (Processor_Config p)); simpl.
      * rewrite length_app. simpl. lia.
      * lia.
    + rewrite length_app. simpl. lia.
Qed.

(** [Validate] never stops early: it returns one entry for every faulty
    plugin reference of the recipe. *)
Lemma Validate_one_entry_per_fault r rcp :
  length (Agent_Validate r rcp)
  = ((if sourceFaulty r (Recipe_Source rcp) then 1 else 0)
     + length (List.filter (sinkFaulty r) (Recipe_Sinks rcp))
     + length (List.filter (processorFaulty r) (Recipe_Processors rcp)))%nat.
Proof.
  unfold Agent_Validate.
  rewrite Validate_processors_length, Validate_sinks_length.
  do 2 f_equal. unfold Validate_source, Factory_Get, sourceFaulty.
  destruct (extractorFactory r !! _) as [ext|]; [|done].
  by destruct (Extractor_Validate ext _).
Qed.

(** An entry for a resolved sink or processor that rejects its configuration
    names that plugin and its role. *)
Lemma Validate_sink_invalid_config r rcp errs s sink err :
  sinkFactory r !! Sink_Name s = Some sink →
  Syncer_Validate sink (Sink_Config s) = Some err →
  Validate_sink r rcp errs s
  = errs ++ [Wrap err (invalidConfigMsg (Sink_Name s) PluginTypeSink)].
Proof. intros Hget Hval. unfold Validate_sink, Factory_Get. by rewrite Hget, Hval. Qed.

Lemma Validate_processor_invalid_config r rcp errs p proc err :
  processorFactory r !! Processor_Name p = Some proc →
  Processor_Validate proc (Processor_Config p) = Some err →
  Validate_processor r rcp errs p
  = errs ++ [Wrap err (invalidConfigMsg (Processor_Name p) PluginTypeProcessor)].
Proof.
  intros Hget Hval. unfold Validate_processor, Factory_Get. by rewrite Hget, Hval.
Qed.

(** An entry for a sink or a processor whose name is missing carries the
    source's type and the extractor role, whatever the plugin is called. *)
Lemma Validate_sink_missing r rcp errs s :
  sinkFactory r !! Sink_Name s = None →
  Validate_sink r rcp errs s
  = errs ++ [Wrap (NotFoundError PluginTypeSink (Sink_Name s))
               (invalidConfigMsg (Source_Type (Recipe_Source rcp)) PluginTypeExtractor)].
Proof. intros Hget. unfold Validate_sink, Factory_Get. by rewrite Hget. Qed.

Lemma Validate_processor_missing r rcp errs p :
  processorFactory r !! Processor_Name p = None →
  Validate_processor r rcp errs p
  = errs ++ [Wrap (NotFoundError PluginTypeProcessor (Processor_Name p))
               (invalidConfigMsg (Source_Type (Recipe_Source rcp)) PluginTypeExtractor)].
Proof. intros Hget. unfold Validate_processor, Factory_Get. by rewrite Hget. Qed.

(** ** The stream with one-record batches *)

Lemma subscriber_with_batch_id sub : subscriber_with_batch sub (batch sub) = sub.
Proof. by destruct sub. Qed.

Lemma stream_with_subscribers_id s : stream_with_subscribers s (subscribers s) = s.
Proof. by destruct s. Qed.

Lemma stream_with_terminalErr_id s : stream_with_terminalErr s (terminalErr s) = s.
Proof. by destruct s. Qed.

Lemma deliver_ready sub d st :
  subscriberReady sub →
  deliver sub d st
  = let '(e, st', evs) := callback sub [d] st in (sub, e, st', evs).
Proof.
  intros [Hsize Hbatch]. unfold deliver. rewrite Hsize, Hbatch. simpl.
  destruct (callback sub [d] st) as [[e st'] evs].
  by rewrite <- Hbatch at 1; rewrite subscriber_with_batch_id.
Qed.

Lemma fanOut_ready subs d : ∀ st,
  Forall subscriberReady subs →
  fanOut subs d st
  = let '(e, st', evs) := callAll (map callback subs) [d] st in (subs, e, st', evs).
Proof.
  induction subs as [|sub subs IH]; intros st Hready; simpl; [done|].
  apply Forall_cons in Hready as [Hsub Hsubs].
  rewrite (deliver_ready _ _ _ Hsub).
  destruct (callback sub [d] st) as [[e1 st1] evs1].
  rewrite (IH _ Hsubs).
  by destruct (callAll (map callback subs) [d] st1) as [[e2 st2] evs2].
Qed.

Lemma drive_ready ch : ∀ s st,
  Forall subscriberReady (subscribers s) →
  terminalErr s = None →
  drive s ch st
  = let '(e, st', evs) :=
      driveCore (middlewares s) (map callback (subscribers s)) ch st in
    (stream_with_terminalErr s e, st', evs).
Proof.
  induction ch as [|d ch IH]; intros s st Hready Herr; simpl.
  - by rewrite <- Herr, stream_with_terminalErr_id.
  - destruct (runMiddlewares (middlewares s) d st) as [[[d'|e|v] st1] evs1]; [|done..].
    rewrite (fanOut_ready _ _ _ Hready).
    destruct (callAll (map callback (subscribers s)) [d'] st1) as [[e st2] evs2].
    rewrite stream_with_subscribers_id.
    destruct e as [e|]; [done|].
    rewrite (IH _ _ Hready Herr).
    by destruct (driveCore _ _ ch st2) as [[e3 st3] evs3].
Qed.

Lemma flush_ready subs st :
  Forall subscriberReady subs → flush subs st = (subs, None, st, []).
Proof.
  induction 1 as [|sub subs [_ Hbatch] _ IH]; simpl; [done|].
  by rewrite Hbatch, IH.
Qed.

Lemma broadcast_ready s st :
  closed s = true →
  terminalErr s = None →
  Forall subscriberReady (subscribers s) →
  broadcast s st
  = let '(e, st1, evs1) :=
      driveCore (middlewares s) (map callback (subscribers s)) (channel s) st in
    let '(st2, evs2) := runOnCloses (onCloses s) st1 in
    Some (e, st2, evs1 ++ evs2).
Proof.
  intros Hclosed Herr Hready. unfold broadcast. rewrite Hclosed.
  rewrite (drive_ready _ _ _ Hready Herr).
  destruct (driveCore _ _ _ st) as [[e st1] evs1]. simpl.
  destruct e as [e|]; simpl.
  - by destruct (runOnCloses (onCloses s) st1).
  - rewrite (flush_ready _ _ Hready).
    by destruct (runOnCloses (onCloses s) st1).
Qed.

(** ** Events of the drive loop *)

Section events.
Context (P : Event → Prop).

Lemma runMiddlewares_emits ms : ∀ d st,
  Forall (middlewareEmits P) ms → Forall P (runMiddlewares ms d st).2.
Proof.
  induction ms as [|m ms IH]; intros d st Hms; simpl; [done|].
  apply Forall_cons in Hms as [Hm Hms]. specialize (Hm d st).
  destruct (m d st) as [[[d'|e|v] st1] evs1]; [|done..].
  specialize (IH d' st1 Hms).
  destruct (runMiddlewares ms d' st1) as [[res st2] evs2].
  by apply Forall_app.
Qed.

Lemma callAll_emits cbs : ∀ d st,
  Forall (handlerEmits P) cbs → Forall P (callAll cbs [d] st).2.
Proof.
  induction cbs as [|cb cbs IH]; intros d st Hcbs; simpl; [done|].
  apply Forall_cons in Hcbs as [Hcb Hcbs]. specialize (Hcb d st).
  destruct (cb [d] st) as [[e1 st1] evs1].
  specialize (IH d st1 Hcbs).
  destruct (callAll cbs [d] st1) as [[e2 st2] evs2].
  by apply Forall_app.
Qed.

Lemma driveCore_emits ms cbs ch : ∀ st,
  Forall (middlewareEmits P) ms → Forall (handlerEmits P) cbs →
  Forall P (driveCore ms cbs ch st).2.
Proof.
  induction ch as [|d ch IH]; intros st Hms Hcbs; simpl; [done|].
  pose proof (runMiddlewares_emits ms d st Hms) as H1.
  destruct (runMiddlewares ms d st) as [[[d'|e|v] st1] evs1]; [|done..].
  pose proof (callAll_emits cbs d' st1 Hcbs) as H2.
  destruct (callAll cbs [d'] st1) as [[e st2] evs2].
  destruct e as [e|]; simpl.
  - by apply Forall_app.
  - specialize (IH st2 Hms Hcbs).
    destruct (driveCore ms cbs ch st2) as [[e3 st3] evs3].
    simpl in *. rewrite !Forall_app. done.
Qed.

Lemma runOnCloses_emits hooks : ∀ st,
  Forall (hookEmits P) hooks → Forall P (runOnCloses hooks st).2.
Proof.
  induction hooks as [|f hooks IH]; intros st Hhooks; simpl; [done|].
  apply Forall_cons in Hhooks as [Hf Hhooks]. specialize (Hf st).
  destruct (f st) as [st1 evs1]. specialize (IH st1 Hhooks).
  destruct (runOnCloses hooks st1) as [st2 evs2].
  by apply Forall_app.
Qed.
End events.

Section quiet.
Context (Q : Event → Prop).

Lemma callAll_quiet cbs : ∀ d st,
  Forall (handlerQuiet Q) cbs →
  (callAll cbs [d] st).1.1 = None → Forall Q (callAll cbs [d] st).2.
Proof.
  induction cbs as [|cb cbs IH]; intros d st Hcbs; simpl; [done|].
  apply Forall_cons in Hcbs as [Hcb Hcbs]. specialize (Hcb d st).
  destruct (cb [d] st) as [[e1 st1] evs1].
  specialize (IH d st1 Hcbs).
  destruct (callAll cbs [d] st1) as [[e2 st2] evs2]. simpl in *.
  intros Hnone. destruct e1; [done|]. simpl in Hnone.
  apply Forall_app; auto.
Qed.

Lemma driveCore_quiet ms cbs ch : ∀ st,
  Forall (middlewareEmits Q) ms → Forall (handlerQuiet Q) cbs →
  (driveCore ms cbs ch st).1.1 = None → Forall Q (driveCore ms cbs ch st).2.
Proof.
  induction ch as [|d ch IH]; intros st Hms Hcbs; simpl; [done|].
  pose proof (runMiddlewares_emits Q ms d st Hms) as H1.
  destruct (runMiddlewares ms d st) as [[[d'|e|v] st1] evs1]; [|done..].
  pose proof (callAll_quiet cbs d' st1 Hcbs) as H2.
  destruct (callAll cbs [d'] st1) as [[e st2] evs2].
  destruct e as [e|]; simpl; [done|].
  specialize (IH st2 Hms Hcbs).
  destruct (driveCore ms cbs ch st2) as [[e3 st3] evs3]. simpl in *.
  intros He3. rewrite !Forall_app. auto.
Qed.
End quiet.

Lemma callAll_nil cbs b : ∀ st,
  Forall handlerNil cbs → (callAll cbs b st).1.1 = None.
Proof.
  induction cbs as [|cb cbs IH]; intros st Hcbs; simpl; [done|].
  apply Forall_cons in Hcbs as [Hcb Hcbs]. specialize (Hcb b st).
  destruct (cb b st) as [[e1 st1] evs1].
  specialize (IH st1 Hcbs).
  destruct (callAll cbs b st1) as [[e2 st2] evs2]. simpl in *.
  by subst.
Qed.

Lemma driveCore_nil ms cbs ch : ∀ st,
  Forall (chainPasses ms) ch → Forall handlerNil cbs →
  (driveCore ms cbs ch st).1.1 = None.
Proof.
  induction ch as [|d ch IH]; intros st Hch Hcbs; simpl; [done|].
  apply Forall_cons in Hch as [Hd Hch].
  destruct (Hd st) as (d' & st1 & evs1 & ->).
  pose proof (callAll_nil cbs [d'] st1 Hcbs) as H2.
  destruct (callAll cbs [d'] st1) as [[e st2] evs2]. simpl in H2. subst e.
  specialize (IH st2 Hch Hcbs).
  by destruct (driveCore ms cbs ch st2) as [[e3 st3] evs3].
Qed.

(** ** The closures of the agent *)

Lemma processorMiddleware_emits proc pr :
  middlewareEmits (λ ev, flowEvent ev = true) (processorMiddleware proc pr).
Proof. intros d st. simpl. by repeat constructor. Qed.

Lemma countMiddleware_emits P : middlewareEmits P countMiddleware.
Proof. intros d st. simpl. constructor. Qed.

Lemma processorMiddlewares_emits r prs :
  Forall (middlewareEmits (λ ev, flowEvent ev = true))
    (processorMiddlewares r prs ++ [countMiddleware]).
Proof.
  apply Forall_app. split; [|repeat constructor; apply countMiddleware_emits].
  induction prs as [|pr prs IH]; simpl; [done|].
  destruct (processorFactory r !! Processor_Name pr); [|done].
  constructor; [apply processorMiddleware_emits|done].
Qed.

Lemma retry_loop_emits sink i sr d n : ∀ interval st,
  Forall (λ ev, retryEvent ev = true)
    (retry_loop n interval (callSink sink i sr [d]) (retryNotification sr) st).2.
Proof.
  induction n as [|n IH]; intros interval st; simpl.
  - destruct (Syncer_Sink sink _ _ _) as [[]|]; simpl; by repeat constructor.
  - destruct (Syncer_Sink sink _ _ _) as [e|]; simpl; [|by repeat constructor].
    destruct e; simpl; try by repeat constructor.
    match goal with |- context [retry_loop n ?a ?b ?c ?s] =>
      specialize (IH a s); destruct (retry_loop n a b c s) as [[e2 st2] evs2] end.
    simpl in *. by repeat constructor.
Qed.

Lemma retryEvent_flow ev : retryEvent ev = true → flowEvent ev = true.
Proof. by destruct ev as [[]| | | | | | |]. Qed.

Lemma retryEvent_not_error ev : retryEvent ev = true → isSinkErrorLog ev = false.
Proof. by destruct ev as [[]| | | | | | |]. Qed.

Lemma sinkHandler_emits r sink i sr :
  handlerEmits (λ ev, flowEvent ev = true) (sinkHandler r sink i sr).
Proof.
  intros d st. unfold sinkHandler, retrier_retry.
  pose proof (retry_loop_emits sink i sr d (pred (maxRetries (Agent_retrier r)))
                (initialInterval (Agent_retrier r)) st) as H.
  destruct (retry_loop _ _ _ _ st) as [[e st1] evs]. simpl in H.
  assert (Forall (λ ev, flowEvent ev = true) evs) as Hflow.
  { eapply Forall_impl; [exact H|]. apply retryEvent_flow. }
  destruct e; simpl; [|done].
  apply Forall_app. split; [done|]. by repeat constructor.
Qed.

(** Under [stopOnSinkError] the handler returns [nil] only when the retried
    [Sink] did, and then nothing is logged at level error. *)
Lemma sinkHandler_quiet r sink i sr :
  stopOnSinkError r = true →
  handlerQuiet (λ ev, isSinkErrorLog ev = false) (sinkHandler r sink i sr).
Proof.
  intros Hstop d st. unfold sinkHandler, retrier_retry.
  pose proof (retry_loop_emits sink i sr d (pred (maxRetries (Agent_retrier r)))
                (initialInterval (Agent_retrier r)) st) as H.
  destruct (retry_loop _ _ _ _ st) as [[e st1] evs]. simpl in H.
  destruct e; simpl; [by rewrite Hstop|].
  intros _. eapply Forall_impl; [exact H|]. apply retryEvent_not_error.
Qed.

(** Without [stopOnSinkError] the handler never returns an error. *)
Lemma sinkHandler_nil r sink i sr :
  stopOnSinkError r = false → handlerNil (sinkHandler r sink i sr).
Proof.
  intros Hstop b st. unfold sinkHandler.
  destruct (retrier_retry _ _ _ st) as [[e st1] evs].
  destruct e; simpl; [by rewrite Hstop|done].
Qed.

Lemma sinkHandlers_Forall (P : batchHandler → Prop) r srs : ∀ i,
  (∀ sink i sr, P (sinkHandler r sink i sr)) →
  Forall P (sinkHandlers r i srs).
Proof.
  induction srs as [|sr srs IH]; intros i HP; simpl; [done|].
  destruct (sinkFactory r !! Sink_Name sr); [constructor|]; auto.
Qed.

Lemma processorMiddlewares_quiet r prs :
  Forall (middlewareEmits (λ ev, isSinkErrorLog ev = false))
    (processorMiddlewares r prs ++ [countMiddleware]).
Proof.
  apply Forall_app. split; [|repeat constructor; apply countMiddleware_emits].
  induction prs as [|pr prs IH]; simpl; [done|].
  destruct (processorFactory r !! Processor_Name pr); [|done].
  constructor; [|done]. intros d st. simpl. by repeat constructor.
Qed.

Lemma processorMiddlewares_pass r prs : ∀ d,
  processorsPass r prs d = true →
  chainPasses (processorMiddlewares r prs ++ [countMiddleware]) d.
Proof.
  induction prs as [|pr prs IH]; intros d Hpass st; simpl in *.
  - by eexists _, _, _.
  - destruct (processorFactory r !! Processor_Name pr) as [proc|]; [|done].
    simpl. destruct (Processor_Process proc _ d) as [d'| |]; [|done..].
    destruct (IH d' Hpass st) as (d'' & st' & evs & ->).
    by eexists _, _, _.
Qed.

(** ** Setup *)

Lemma stream_app_nil s : stream_app s [] [] [] = s.
Proof. destruct s. unfold stream_app. simpl. by rewrite !app_nil_r. Qed.

Lemma stream_app_app s ms subs hooks ms' subs' hooks' :
  stream_app (stream_app s ms subs hooks) ms' subs' hooks'
  = stream_app s (ms ++ ms') (subs ++ subs') (hooks ++ hooks').
Proof. unfold stream_app. simpl. by rewrite !app_assoc. Qed.

Lemma setMiddleware_app m s : setMiddleware m s = stream_app s [m] [] [].
Proof. unfold setMiddleware, stream_app. by rewrite !app_nil_r. Qed.

Lemma subscribe_onClose_app cb f s :
  onClose f (subscribe cb defaultBatchSize s)
  = stream_app s [] [freshSubscriber cb] [f].
Proof. unfold onClose, subscribe, stream_app. simpl. by rewrite !app_nil_r. Qed.

Lemma initsCalled_le r plan : (initsCalled r plan ≤ length plan)%nat.
Proof.
  induction plan as [|s plan IH]; simpl; [lia|].
  destruct (initResult r s) as [[]|]; lia.
Qed.

Lemma initsCalled_all_ok r plan :
  forallb (stepOK r) plan = true → initsCalled r plan = length plan.
Proof.
  induction plan as [|s plan IH]; simpl; [done|].
  unfold stepOK at 1. destruct (initResult r s) as [[]|]; simpl; try done.
  intros H. by rewrite IH.
Qed.

Lemma initsCalled_app_ok r plan1 plan2 :
  forallb (stepOK r) plan1 = true →
  initsCalled r (plan1 ++ plan2) = (length plan1 + initsCalled r plan2)%nat.
Proof.
  induction plan1 as [|s plan1 IH]; simpl; [done|].
  unfold stepOK at 1. destruct (initResult r s) as [[]|]; simpl; try done.
  intros H. by rewrite IH.
Qed.

Lemma initsCalled_app_fail r plan1 plan2 :
  forallb (stepOK r) plan1 = false →
  initsCalled r (plan1 ++ plan2) = initsCalled r plan1.
Proof.
  induction plan1 as [|s plan1 IH]; simpl; [done|].
  unfold stepOK at 1. destruct (initResult r s) as [[]|]; simpl; try done.
  intros H. by rewrite IH.
Qed.

Lemma initsOf_all_ok r plan :
  forallb (stepOK r) plan = true → initsOf r plan = map initEvent plan.
Proof.
  intros Hok. unfold initsOf. rewrite initsCalled_all_ok by done.
  by rewrite take_ge.
Qed.

Lemma initsOf_app_ok r plan1 plan2 :
  forallb (stepOK r) plan1 = true →
  initsOf r (plan1 ++ plan2) = map initEvent plan1 ++ initsOf r plan2.
Proof.
  intros Hok. unfold initsOf. rewrite initsCalled_app_ok by done.
  by rewrite take_app_add, map_app.
Qed.

Lemma initsOf_app_fail r plan1 plan2 :
  forallb (stepOK r) plan1 = false →
  initsOf r (plan1 ++ plan2) = initsOf r plan1.
Proof.
  intros Hfail. unfold initsOf. rewrite initsCalled_app_fail by done.
  by rewrite take_app_le by apply initsCalled_le.
Qed.

Lemma setupProcessors_ok r prs : ∀ str,
  forallb (stepOK r) (map processorStep prs) = true →
  setupProcessors r prs str
  = (None, stream_app str (processorMiddlewares r prs) [] [],
     map initEvent (map processorStep prs)).
Proof.
  induction prs as [|pr prs IH]; intros str; simpl.
  - by rewrite stream_app_nil.
  - unfold stepOK at 1, initResult, Agent_setupProcessor, Factory_Get. simpl.
    destruct (processorFactory r !! Processor_Name pr) as [proc|]; simpl; [|done].
    destruct (Processor_Init proc _); [done|]. intros Hok.
    rewrite (IH _ Hok), setMiddleware_app, stream_app_app. done.
Qed.

Lemma setupProcessors_fail r prs : ∀ str,
  forallb (stepOK r) (map processorStep prs) = false →
  ∃ err str', setupProcessors r prs str
              = (Some err, str', initsOf r (map processorStep prs)).
Proof.
  induction prs as [|pr prs IH]; intros str; simpl; [done|].
  unfold initsOf. simpl.
  unfold stepOK at 1, initResult, Agent_setupProcessor, Factory_Get. simpl.
  destruct (processorFactory r !! Processor_Name pr) as [proc|]; simpl;
    [|by eexists _, _].
  destruct (Processor_Init proc _); [by eexists _, _|]. intros Hfail.
  destruct (IH (setMiddleware (processorMiddleware proc pr) str) Hfail)
    as (err & str' & ->).
  by eexists _, _.
Qed.

Lemma setupSinks_ok r srs : ∀ i str,
  forallb (stepOK r) (map sinkStep srs) = true →
  setupSinks r i srs str
  = (None,
     stream_app str [] (map freshSubscriber (sinkHandlers r i srs))
       (sinkCloseHooks r srs),
     map initEvent (map sinkStep srs)).
Proof.
  induction srs as [|sr srs IH]; intros i str; simpl.
  - by rewrite stream_app_nil.
  - unfold stepOK at 1, initResult, Agent_setupSink, Factory_Get. simpl.
    destruct (sinkFactory r !! Sink_Name sr) as [sink|]; simpl; [|done].
    destruct (Syncer_Init sink _); [done|]. intros Hok.
    rewrite (IH _ _ Hok), subscribe_onClose_app, stream_app_app. done.
Qed.

Lemma setupSinks_fail r srs : ∀ i str,
  forallb (stepOK r) (map sinkStep srs) = false →
  ∃ err str', setupSinks r i srs str = (Some err, str', initsOf r (map sinkStep srs)).
Proof.
  induction srs as [|sr srs IH]; intros i str; simpl; [done|].
  unfold initsOf. simpl.
  unfold stepOK at 1, initResult, Agent_setupSink, Factory_Get. simpl.
  destruct (sinkFactory r !! Sink_Name sr) as [sink|]; simpl; [|by eexists _, _].
  destruct (Syncer_Init sink _); [by eexists _, _|]. intros Hfail.
  destruct (IH (S i) (onClose (sinkCloseHook sink sr)
                        (subscribe (sinkHandler r sink i sr) defaultBatchSize str))
              Hfail) as (err & str' & ->).
  by eexists _, _.
Qed.

Lemma foldl_push records : ∀ s,
  closed s = false →
  foldl (λ s d, push d s) s records
  = {| middlewares := middlewares s; subscribers := subscribers s;
       onCloses := onCloses s; channel := channel s ++ records;
       closed := false; terminalErr := terminalErr s |}.
Proof.
  induction records as [|d records IH]; intros s Hopen; simpl.
  - destruct s. simpl in *. subst. by rewrite app_nil_r.
  - unfold push at 2. rewrite Hopen. rewrite IH by done. simpl.
    by rewrite <- app_assoc.
Qed.

(** ** The body of Run *)

Lemma forallb_initPlan r recipe :
  forallb (stepOK r) (initPlan recipe)
  = stepOK r (sourceStep (Recipe_Source recipe))
    && (forallb (stepOK r) (map processorStep (Recipe_Processors recipe))
        && forallb (stepOK r) (map sinkStep (Recipe_Sinks recipe))).
Proof. unfold initPlan. simpl. by rewrite forallb_app. Qed.

Lemma agentStream_ready r i srs :
  Forall subscriberReady (map freshSubscriber (sinkHandlers r i srs)).
Proof. apply Forall_map, Forall_true. by intros cb. Qed.

Lemma map_callback_fresh cbs : map callback (map freshSubscriber cbs) = cbs.
Proof. induction cbs as [|cb cbs IH]; simpl; [done|]. by rewrite IH. Qed.

Lemma Run_body_setup_ok r recipe :
  forallb (stepOK r) (initPlan recipe) = true →
  ∃ ext, extractorFactory r !! Source_Type (Recipe_Source recipe) = Some ext ∧
    Agent_Run_body r recipe (Run_zero recipe)
    = let '(records, outcome) :=
        Extractor_Extract ext (Source_Config (Recipe_Source recipe)) in
      let '(berr, st, evs) := agentBroadcast r recipe records in
      Some (finishedRun recipe
              (errorAfterBroadcast
                 (errorAfterExtract outcome (Recipe_Source recipe)) berr)
              (recordCount st),
            map initEvent (initPlan recipe)
            ++ EvExtract (Source_Type (Recipe_Source recipe)) :: evs).
Proof.
  rewrite forallb_initPlan. intros [Hsrc [Hprocs Hsinks]%andb_prop]%andb_prop.
  unfold stepOK, initResult in Hsrc. simpl in Hsrc.
  destruct (extractorFactory r !! _) as [ext|] eqn:Hget; [|done].
  simpl in Hsrc. destruct (Extractor_Init ext _) eqn:Hinit; [done|].
  exists ext. split; [done|].
  unfold Agent_Run_body, Agent_Run_body_under, Agent_setupExtractor, Factory_Get.
  rewrite Hget, Hinit.
  rewrite (setupProcessors_ok _ _ _ Hprocs).
  rewrite (setupSinks_ok _ _ _ _ Hsinks).
  rewrite setMiddleware_app, !stream_app_app. simpl. rewrite !app_nil_r.
  unfold extractorGoroutine, runFn.
  destruct (Extractor_Extract ext _) as [records outcome].
  rewrite foldl_push by done.
  rewrite broadcast_ready; simpl; [|done|done|apply agentStream_ready].
  rewrite map_callback_fresh. unfold agentBroadcast, initialState.
  destruct (driveCore _ _ records _) as [[berr st1] evs1].
  destruct (runOnCloses _ st1) as [st2 evs2].
  unfold initPlan. simpl. rewrite map_app, <- !app_assoc. simpl.
  f_equal. f_equal.
  destruct outcome as [[err|]|[]], berr as [berr|]; reflexivity.
Qed.

Lemma initResult_source r src :
  initResult r (sourceStep src)
  = (λ p, Extractor_Init p (Source_Config src)) <$> extractorFactory r !! Source_Type src.
Proof. done. Qed.

Lemma Run_body_setup_failed r recipe :
  forallb (stepOK r) (initPlan recipe) = false →
  ∃ err, Agent_Run_body r recipe (Run_zero recipe)
         = Some (failedSetupRun recipe err, initsOf r (initPlan recipe)).
Proof.
  rewrite forallb_initPlan.
  unfold initPlan, initsOf. cbn [initsCalled].
  unfold stepOK at 1. rewrite initResult_source.
  unfold Agent_Run_body, Agent_Run_body_under, Agent_setupExtractor, Factory_Get.
  destruct (extractorFactory r !! _) as [ext|] eqn:Hget; simpl; [|by eexists].
  destruct (Extractor_Init ext _) eqn:Hinit; simpl; [by eexists|].
  fold (initsOf r (map processorStep (Recipe_Processors recipe)
                   ++ map sinkStep (Recipe_Sinks recipe))).
  destruct (forallb (stepOK r) (map processorStep _)) eqn:Hprocs; simpl.
  - intros Hsinks.
    rewrite (setupProcessors_ok _ _ _ Hprocs).
    destruct (setupSinks_fail r _ 0 (stream_app newStream
               (processorMiddlewares r (Recipe_Processors recipe)) [] []) Hsinks)
      as (err & str' & ->).
    rewrite initsOf_app_ok by done. by eexists.
  - intros _.
    destruct (setupProcessors_fail r _ newStream Hprocs) as (err & str' & ->).
    rewrite initsOf_app_fail by done. by eexists.
Qed.

(** ** What broadcast does on the agent's stream *)

Lemma filter_none {A} (f : A → bool) l :
  Forall (λ x, f x = false) l → List.filter f l = [].
Proof. induction 1 as [|x l Hx _ IH]; simpl; [done|]. by rewrite Hx. Qed.

Lemma sinkCloseHooks_emits r srs :
  Forall (hookEmits (λ ev, closeHookEvent ev = true)) (sinkCloseHooks r srs).
Proof.
  induction srs as [|sr srs IH]; simpl; [done|].
  destruct (sinkFactory r !! Sink_Name sr) as [sink|]; [|done].
  constructor; [|done]. intros st. simpl.
  destruct (Syncer_Close sink _); by repeat constructor.
Qed.

Lemma sinkCloseHooks_closes r srs : ∀ st,
  forallb (stepOK r) (map sinkStep srs) = true →
  List.filter isClose (runOnCloses (sinkCloseHooks r srs) st).2 = closeEvents srs.
Proof.
  induction srs as [|sr srs IH]; intros st; simpl; [done|].
  unfold stepOK at 1, initResult. simpl.
  destruct (sinkFactory r !! Sink_Name sr) as [sink|]; simpl; [|done].
  destruct (Syncer_Init sink _); [done|]. intros Hok.
  specialize (IH st Hok).
  destruct (runOnCloses (sinkCloseHooks r srs) st) as [st2 evs2]. simpl in *.
  rewrite List.filter_app, IH.
  by destruct (Syncer_Close sink _).
Qed.

Lemma flowEvent_running ev : flowEvent ev = true → runningEvent ev = true.
Proof. unfold runningEvent. by intros ->. Qed.

Lemma flowEvent_not_close ev : flowEvent ev = true → isClose ev = false.
Proof. by destruct ev. Qed.

Lemma agentBroadcast_drive_emits r recipe records st :
  Forall (λ ev, flowEvent ev = true)
    (driveCore (processorMiddlewares r (Recipe_Processors recipe) ++ [countMiddleware])
       (sinkHandlers r 0 (Recipe_Sinks recipe)) records st).2.
Proof.
  apply driveCore_emits; [apply processorMiddlewares_emits|].
  apply sinkHandlers_Forall. intros. apply sinkHandler_emits.
Qed.

(** While records flow and the close hooks run, nothing else happens. *)
Lemma agentBroadcast_emits r recipe records :
  Forall (λ ev, runningEvent ev = true) (agentBroadcast r recipe records).2.
Proof.
  unfold agentBroadcast.
  pose proof (agentBroadcast_drive_emits r recipe records initialState) as H1.
  destruct (driveCore _ _ records _) as [[e st1] evs1].
  pose proof (runOnCloses_emits _ _ st1 (sinkCloseHooks_emits r (Recipe_Sinks recipe)))
    as H2.
  destruct (runOnCloses _ st1) as [st2 evs2]. simpl in *.
  apply Forall_app. split.
  - eapply Forall_impl; [exact H1|]. apply flowEvent_running.
  - eapply Forall_impl; [exact H2|]. by intros [[]| | | | | | |].
Qed.

(** Every sink of the recipe is closed once (the model calls the hooks in
    recipe order). *)
Lemma agentBroadcast_closes r recipe records :
  forallb (stepOK r) (map sinkStep (Recipe_Sinks recipe)) = true →
  List.filter isClose (agentBroadcast r recipe records).2
  = closeEvents (Recipe_Sinks recipe).
Proof.
  intros Hok. unfold agentBroadcast.
  pose proof (agentBroadcast_drive_emits r recipe records initialState) as H1.
  destruct (driveCore _ _ records _) as [[e st1] evs1].
  pose proof (sinkCloseHooks_closes r _ st1 Hok) as H2.
  destruct (runOnCloses _ st1) as [st2 evs2]. simpl in *.
  rewrite List.filter_app, H2, filter_none; [done|].
  eapply Forall_impl; [exact H1|]. apply flowEvent_not_close.
Qed.

(** Under [stopOnSinkError], [broadcast] returns [nil] only if no sink
    handler logged an error. *)
Lemma agentBroadcast_quiet r recipe records :
  stopOnSinkError r = true →
  (agentBroadcast r recipe records).1.1 = None →
  Forall (λ ev, isSinkErrorLog ev = false) (agentBroadcast r recipe records).2.
Proof.
  intros Hstop. unfold agentBroadcast.
  pose proof (driveCore_quiet (λ ev, isSinkErrorLog ev = false)
    (processorMiddlewares r (Recipe_Processors recipe) ++ [countMiddleware])
    (sinkHandlers r 0 (Recipe_Sinks recipe)) records initialState
    (processorMiddlewares_quiet r _)) as H1.
  destruct (driveCore _ _ records _) as [[e st1] evs1].
  pose proof (runOnCloses_emits _ _ st1 (sinkCloseHooks_emits r (Recipe_Sinks recipe)))
    as H2.
  destruct (runOnCloses _ st1) as [st2 evs2]. simpl in *.
  intros ->. apply Forall_app. split.
  - apply H1; [|done]. apply sinkHandlers_Forall. intros.
    by apply sinkHandler_quiet.
  - eapply Forall_impl; [exact H2|]. by intros [[]| | | | | | |].
Qed.

(** Without [stopOnSinkError], [broadcast] returns [nil] whenever no
    processor fails. *)
Lemma agentBroadcast_nil r recipe records :
  stopOnSinkError r = false →
  Forall (λ d, processorsPass r (Recipe_Processors recipe) d = true) records →
  (agentBroadcast r recipe records).1.1 = None.
Proof.
  intros Hstop Hpass. unfold agentBroadcast.
  pose proof (driveCore_nil
    (processorMiddlewares r (Recipe_Processors recipe) ++ [countMiddleware])
    (sinkHandlers r 0 (Recipe_Sinks recipe)) records initialState) as H1.
  destruct (driveCore _ _ records _) as [[e st1] evs1].
  destruct (runOnCloses _ st1) as [st2 evs2]. simpl in *.
  apply H1.
  - eapply Forall_impl; [exact Hpass|]. apply processorMiddlewares_pass.
  - apply sinkHandlers_Forall. intros. by apply sinkHandler_nil.
Qed.

(** ** Run as a whole *)

Lemma initEvents_body plan : Forall (λ ev, bodyEvent ev = true) (map initEvent plan).
Proof. apply Forall_map, Forall_true. by intros [[role name] cfg]. Qed.

Lemma runningEvent_body ev : runningEvent ev = true → bodyEvent ev = true.
Proof. unfold bodyEvent. intros ->. by rewrite orb_true_r. Qed.

(** The body of [Run] always returns; it leaves the duration at its zero
    value, sets [Success] from [Error], and calls nothing but plugins, the
    retrier and the logger. *)
Lemma Run_body_facts r recipe :
  ∃ run evs,
    Agent_Run_body r recipe (Run_zero recipe) = Some (run, evs) ∧
    Run_Recipe run = recipe ∧
    Run_DurationInMs run = 0 ∧
    Run_Success run = is_nil (Run_Error run) ∧
    Forall (λ ev, bodyEvent ev = true) evs.
Proof.
  destruct (forallb (stepOK r) (initPlan recipe)) eqn:Hok.
  - destruct (Run_body_setup_ok r recipe Hok) as (ext & _ & ->).
    destruct (Extractor_Extract ext _) as [records outcome].
    pose proof (agentBroadcast_emits r recipe records) as Hevs.
    destruct (agentBroadcast r recipe records) as [[berr st] evs].
    eexists _, _. split; [done|]. repeat split.
    apply Forall_app. split; [apply initEvents_body|].
    constructor; [done|].
    eapply Forall_impl; [exact Hevs|]. apply runningEvent_body.
  - destruct (Run_body_setup_failed r recipe Hok) as (err & ->).
    eexists _, _. split; [done|]. repeat split. apply initEvents_body.
Qed.

Lemma logAndRecordMetrics_events r run d :
  Agent_logAndRecordMetrics r run d
  = [EvRecordRun (Run_with_DurationInMs run d);
     closingLog (Run_with_DurationInMs run d) d].
Proof.
  unfold Agent_logAndRecordMetrics, closingLog, logger.
  by destruct (Run_Success _).
Qed.

Lemma closingLog_isLog run d : isLog (closingLog run d) = true.
Proof. unfold closingLog. by destruct (Run_Success run). Qed.

Lemma Agent_Run_unfold r recipe t run evs :
  Agent_Run_body r recipe (Run_zero recipe) = Some (run, evs) →
  let t0 := t ++ [startLog recipe] in
  let d := timerFn r t0 (t0 ++ evs) in
  Agent_Run r recipe t
  = Some (run,
          t0 ++ evs ++
          [EvRecordRun (Run_with_DurationInMs run d);
           closingLog (Run_with_DurationInMs run d) d]).
Proof.
  intros Hbody. unfold Agent_Run, Agent_Run_under. fold (Agent_Run_body r recipe (Run_zero recipe)).
  rewrite Hbody. simpl.
  by rewrite logAndRecordMetrics_events, <- !app_assoc.
Qed.

Lemma Agent_Run_runOf r recipe t :
  ∃ t', Agent_Run r recipe t = Some (runOf r recipe, t').
Proof.
  destruct (Run_body_facts r recipe) as (run & evs & Hbody & _).
  unfold runOf. rewrite Hbody, (Agent_Run_unfold _ _ _ _ _ Hbody). by eexists.
Qed.

Lemma bodyEvent_not_recordRun ev : bodyEvent ev = true → isRecordRun ev = false.
Proof. by destruct ev. Qed.

Lemma bodyEvent_not_oddSink ev : bodyEvent ev = true → isOddSink ev = false.
Proof.
  destruct ev; try done. unfold bodyEvent, runningEvent. simpl.
  rewrite orb_false_r. by intros ->.
Qed.

Lemma initsCalled_stops r plan : ∀ k s,
  plan !! k = Some s → stepOK r s = false → (initsCalled r plan ≤ S k)%nat.
Proof.
  induction plan as [|s0 plan IH]; intros k s Hk Hbad; [done|].
  simpl. destruct k as [|k]; simpl in Hk.
  - injection Hk as ->. unfold stepOK in Hbad.
    destruct (initResult r s) as [[]|]; [lia|done|lia].
  - specialize (IH k s Hk Hbad). destruct (initResult r s0) as [[]|]; lia.
Qed.

Lemma initsCalled_stops_lookup r plan : ∀ k s,
  plan !! k = Some s → initResult r s = None → (initsCalled r plan ≤ k)%nat.
Proof.
  induction plan as [|s0 plan IH]; intros k s Hk Hbad; [done|].
  simpl. destruct k as [|k]; simpl in Hk.
  - injection Hk as ->. by rewrite Hbad.
  - specialize (IH k s Hk Hbad). destruct (initResult r s0) as [[]|]; lia.
Qed.

(** ** The scenarios of [agent/agent_test.go] *)

(** What the tests assert of the returned summary holds of the embedding. *)

Example test_plugin_could_not_be_found (role : PluginType) :
  ∃ run t', Agent_Run (agentWithout role) validRecipe [] = Some (run, t') ∧
    Run_Success run = false ∧ Run_Error run ≠ None ∧
    List.filter isRecordRun t' = [EvRecordRun (Run_with_DurationInMs run 1000)].
Proof. destruct role; eexists _, _; (split; [vm_compute; reflexivity|done]). Qed.

Example test_extracting_fails :
  ∃ run t', Agent_Run agentExtractFails validRecipe [] = Some (run, t') ∧
    Run_Success run = false ∧
    Run_Error run
    = Some (Wrap (Wrap (New "some error")
                    ("error running extractor " +:+ quoted "test-extractor"))
              "failed to run extractor") ∧
    List.filter isClose t' = [EvClose "test-sink"].
Proof. eexists _, _. split; [vm_compute; reflexivity|done]. Qed.

Example test_processing_panics :
  ∃ run t', Agent_Run agentProcessorPanics validRecipe [] = Some (run, t') ∧
    Run_Success run = false ∧
    Run_Error run = Some (Wrap (Errorf "panicking") "failed to broadcast stream") ∧
    List.filter isClose t' = [EvClose "test-sink"].
Proof. eexists _, _. split; [vm_compute; reflexivity|done]. Qed.

Example test_retry_if_sink_returns_retry_error :
  ∃ run t', Agent_Run agentRetry validRecipe [] = Some (run, t') ∧
    Run_Error run = None ∧ Run_Recipe run = validRecipe ∧
    List.filter isSink t' = [EvSink "test-sink" ["r1"]; EvSink "test-sink" ["r1"]].
Proof. eexists _, _. split; [vm_compute; reflexivity|done]. Qed.

(** [TestRunnerRunMultiple] compares the result with summaries that have a
    record count and no duration. *)
Example test_run_multiple (sched : list nat) :
  sched = [0; 1]%nat ∨ sched = [1; 0]%nat →
  ∃ t', Agent_RunMultiple agentHappy [validRecipe; validRecipe2] sched []
        = Some ([ {| Run_Recipe := validRecipe; Run_Error := None;
                     Run_DurationInMs := 0; Run_RecordCount := 1;
                     Run_Success := true |};
                  {| Run_Recipe := validRecipe2; Run_Error := None;
                     Run_DurationInMs := 0; Run_RecordCount := 1;
                     Run_Success := true |} ], t').
Proof. intros [-> | ->]; eexists; vm_compute; reflexivity. Qed.

(** ** The claims *)

(** C4.  Every call of [Run] returns, and on every exit path (failed setup,
    failed or panicking extractor, failed processor, propagated sink error,
    success) the returned summary has [Success] true exactly when [Error] is
    [nil]. *)
Theorem Run_success_iff_no_error (r : Agent) (recipe : Recipe) (t : list Event) :
  ∃ run t', Agent_Run r recipe t = Some (run, t') ∧
    (Run_Success run = true ↔ Run_Error run = None).
Proof.
  destruct (Run_body_facts r recipe) as (run & evs & Hbody & _ & _ & Hsucc & _).
  exists run. eexists. split; [by apply Agent_Run_unfold|].
  rewrite Hsucc. by destruct (Run_Error run).
Qed.



(** C7.  The events of a run start with the opening log line followed by the
    [Init] calls, which are a prefix of the plan "extractor, processors in
    recipe order, sinks"; a plugin whose lookup or [Init] fails is the last
    one considered (its own [Init] is not called when the lookup failed) and
    then neither [Extract] nor any other plugin call follows; when every
    step succeeds, all [Init] calls precede [Extract], and no [Init] follows
    it. *)
Theorem Run_init_order (r : Agent) (recipe : Recipe) (t : list Event) :
  let plan := initPlan recipe in
  let n := initsCalled r plan in
  ∃ run rest,
    Agent_Run r recipe t
    = Some (run, t ++ startLog recipe :: map initEvent (take n plan) ++ rest) ∧
    (∀ k s, plan !! k = Some s → stepOK r s = false → (n ≤ S k)%nat) ∧
    (∀ k s, plan !! k = Some s → initResult r s = None → (n ≤ k)%nat) ∧
    (if forallb (stepOK r) plan
     then n = length plan ∧
          ∃ rest', rest = EvExtract (Source_Type (Recipe_Source recipe)) :: rest' ∧
                   Forall (λ ev, isInit ev = false ∧ isExtract ev = false) rest'
     else Forall (λ ev, isRecordRun ev || isLog ev = true) rest).
Proof.
  intros plan n. subst plan n.
  pose proof (initsCalled_stops r (initPlan recipe)) as Hstop.
  pose proof (initsCalled_stops_lookup r (initPlan recipe)) as Hstop'.
  destruct (forallb (stepOK r) (initPlan recipe)) eqn:Hok.
  - destruct (Run_body_setup_ok r recipe Hok) as (ext & _ & Hbody).
    destruct (Extractor_Extract ext _) as [records outcome].
    pose proof (agentBroadcast_emits r recipe records) as Hevs.
    destruct (agentBroadcast r recipe records) as [[berr st] evs].
    rewrite (Agent_Run_unfold _ _ _ _ _ Hbody).
    eexists _, _. split; [|split; [done|split; [done|split]]].
    + rewrite (initsCalled_all_ok r (initPlan recipe) Hok), take_ge by lia.
      rewrite <- !app_assoc. simpl. reflexivity.
    + by apply initsCalled_all_ok.
    + eexists. split; [reflexivity|].
      apply Forall_app. split.
      * eapply Forall_impl; [exact Hevs|]. by intros [].
      * constructor; [done|]. constructor; [|done].
        match goal with |- context [closingLog ?a ?b] =>
          pose proof (closingLog_isLog a b); by destruct (closingLog a b) end.
  - destruct (Run_body_setup_failed r recipe Hok) as (err & Hbody).
    rewrite (Agent_Run_unfold _ _ _ _ _ Hbody).
    eexists _, _. split; [|split; [done|split; [done|]]].
    + unfold initsOf. rewrite <- !app_assoc. simpl. reflexivity.
    + constructor; [done|]. constructor; [|done].
      by rewrite closingLog_isLog, orb_true_r.
Qed.

Lemma Run_init_order_witness :
  ∃ run rest,
    Agent_Run agentProcessorInitFails validRecipe []
    = Some (run,
            [startLog validRecipe;
             EvInit PluginTypeExtractor "test-extractor" noConfig;
             EvInit PluginTypeProcessor "test-processor" [("proc-foo", "proc-bar")]]
            ++ rest) ∧
    stepOK agentProcessorInitFails
      (processorStep {| Processor_Name := "test-processor";
                        Processor_Config := [("proc-foo", "proc-bar")] |}) = false ∧
    Forall (λ ev, isRecordRun ev || isLog ev = true) rest.
Proof.
  destruct (Run_init_order agentProcessorInitFails validRecipe [])
    as (run & rest & Hrun & Hstop & _ & Hcase).
  assert (forallb (stepOK agentProcessorInitFails) (initPlan validRecipe) = false)
    as Hfails by reflexivity.
  rewrite Hfails in Hcase.
  assert (initsCalled agentProcessorInitFails (initPlan validRecipe) = 2%nat)
    as Hcalled by (apply Nat.le_antisymm; [by eapply (Hstop 1%nat)|vm_compute; lia]).
  rewrite Hcalled in Hrun.
  exists run, rest. split; [exact Hrun|]. split; [reflexivity|exact Hcase].
Defined.

Lemma forallb_true_Forall {A} (f : A → bool) l :
  forallb f l = true → Forall (λ x, f x = true) l.
Proof.
  induction l as [|x l IH]; simpl; [done|].
  intros [Hx Hl]%andb_prop. constructor; auto.
Qed.

Lemma Forall_Exists_false {A} (f : A → bool) l :
  Forall (λ x, f x = false) l → Exists (λ x, f x = true) l → False.
Proof.
  induction 1 as [|x l Hx _ IH]; inversion 1; subst; [congruence|auto].
Qed.

Lemma sinkErrorLog_in_run recipe body x d :
  Exists (λ ev, isSinkErrorLog ev = true)
    (startLog recipe :: body ++ [EvRecordRun x; closingLog x d]) →
  Exists (λ ev, isSinkErrorLog ev = true) body.
Proof.
  intros [H|H]%Exists_cons; [done|].
  apply Exists_app in H as [H|H]; [done|].
  apply Exists_cons in H as [H|H]; [done|].
  apply Exists_cons in H as [H|H]; [|by inversion H].
  unfold closingLog in H. by destruct (Run_Success x).
Qed.

Lemma sinkErrorLog_in_flow plan name evs :
  Exists (λ ev, isSinkErrorLog ev = true)
    (map initEvent plan ++ EvExtract name :: evs) →
  Exists (λ ev, isSinkErrorLog ev = true) evs.
Proof.
  intros [H|H]%Exists_app.
  - exfalso. eapply Forall_Exists_false; [|exact H].
    apply Forall_map, Forall_true. by intros [[role nm] cfg].
  - by apply Exists_cons in H as [H|H].
Qed.

Lemma sinkHandler_after_retry r sink i sr records st e st1 evs :
  retrier_retry (Agent_retrier r) (callSink sink i sr records)
    (retryNotification sr) st = (Some e, st1, evs) →
  sinkHandler r sink i sr records st
  = (if stopOnSinkError r then Some e else None, st1,
     evs ++ [EvLog LevelError "error running sink"
               [("sink", FString (Sink_Name sr));
                ("error", FString (Error_text e))]]).
Proof. intros Hretry. unfold sinkHandler. by rewrite Hretry. Qed.

(** C3.  When the retried [Sink] of a batch ends with an error [e], the
    handler logs it and returns [nil] if [stopOnSinkError] is off and [e]
    (retryable or not) if it is on.  For the run: without [stopOnSinkError]
    the run succeeds whenever nothing upstream of the sinks went wrong,
    whatever the sinks return; with [stopOnSinkError] a run in which a sink
    handler logged an error fails. *)
Theorem sink_error_policy (r : Agent) (recipe : Recipe) (t : list Event) :
  (∀ sink i sr records st e st1 evs,
     retrier_retry (Agent_retrier r) (callSink sink i sr records)
       (retryNotification sr) st = (Some e, st1, evs) →
     sinkHandler r sink i sr records st
     = (if stopOnSinkError r then Some e else None, st1,
        evs ++ [EvLog LevelError "error running sink"
                  [("sink", FString (Sink_Name sr));
                   ("error", FString (Error_text e))]])) ∧
  ∃ run evs, Agent_Run r recipe t = Some (run, t ++ evs) ∧
    (stopOnSinkError r = false → cleanUpstream r recipe = true →
     Run_Success run = true ∧ Run_Error run = None) ∧
    (stopOnSinkError r = true → Exists (λ ev, isSinkErrorLog ev = true) evs →
     Run_Success run = false ∧ Run_Error run ≠ None).
Proof.
  split; [intros *; apply sinkHandler_after_retry|].
  unfold cleanUpstream.
  destruct (forallb (stepOK r) (initPlan recipe)) eqn:Hok.
  - destruct (Run_body_setup_ok r recipe Hok) as (ext & -> & Hbody).
    destruct (Extractor_Extract ext _) as [records outcome].
    pose proof (agentBroadcast_quiet r recipe records) as Hquiet.
    pose proof (agentBroadcast_nil r recipe records) as Hnil.
    destruct (agentBroadcast r recipe records) as [[berr st] evs].
    eexists _, _. split; [|split].
    + rewrite (Agent_Run_unfold _ _ _ _ _ Hbody), <- app_assoc. reflexivity.
    + intros Hstop Hclean.
      destruct outcome as [[err|]|v]; try done.
      apply forallb_true_Forall in Hclean.
      specialize (Hnil Hstop Hclean). simpl in Hnil. by subst berr.
    + intros Hstop Hlogged.
      destruct berr as [berr|]; [done|]. exfalso.
      apply sinkErrorLog_in_run, sinkErrorLog_in_flow in Hlogged.
      eapply Forall_Exists_false; [|exact Hlogged]. by apply Hquiet.
  - destruct (Run_body_setup_failed r recipe Hok) as (err & Hbody).
    eexists _, _. split; [|split].
    + rewrite (Agent_Run_unfold _ _ _ _ _ Hbody), <- app_assoc. reflexivity.
    + done.
    + done.
Qed.

Lemma closes_in_run recipe plan name evs x d :
  List.filter isClose
    (startLog recipe ::
     (map initEvent plan ++ EvExtract name :: evs) ++
     [EvRecordRun x; closingLog x d])
  = List.filter isClose evs.
Proof.
  simpl. rewrite !List.filter_app. simpl.
  rewrite (filter_none isClose (map initEvent plan)).
  - unfold closingLog. destruct (Run_Success x); simpl; by rewrite app_nil_r.
  - apply Forall_map, Forall_true. by intros [[role nm] cfg].
Qed.

(** [contains] finds a text inside a longer one. *)
Example contains_finds_substring :
  contains "failed to run extractor: boom" "boom" = true.
Proof. reflexivity. Qed.

Lemma sink_error_policy_witness :
  (∃ run evs,
     Agent_Run (agentSinkFails false) validRecipe [] = Some (run, evs) ∧
     Exists (λ ev, isSinkErrorLog ev = true) evs ∧ Run_Success run = true) ∧
  (∃ run evs,
     Agent_Run (agentSinkFails true) validRecipe [] = Some (run, evs) ∧
     Exists (λ ev, isSinkErrorLog ev = true) evs ∧ Run_Success run = false).
Proof.
  assert (∀ stop run evs,
    Agent_Run (agentSinkFails stop) validRecipe [] = Some (run, evs) →
    Exists (λ ev, isSinkErrorLog ev = true) evs) as Hlogged.
  { intros stop run evs Hrun. destruct stop; vm_compute in Hrun;
      injection Hrun as <- <-; do 7 apply Exists_cons_tl; by apply Exists_cons_hd. }
  split.
  - destruct (sink_error_policy (agentSinkFails false) validRecipe [])
      as (_ & run & evs & Hrun & Hoff & _).
    exists run, evs. split; [exact Hrun|]. split; [by eapply Hlogged|].
    apply Hoff; reflexivity.
  - destruct (sink_error_policy (agentSinkFails true) validRecipe [])
      as (_ & run & evs & Hrun & _ & Hon).
    exists run, evs. split; [exact Hrun|]. split; [by eapply Hlogged|].
    apply Hon; [reflexivity|by eapply Hlogged].
Defined.

(** ** RunMultiple *)

Lemma runGoroutines_spec r recipes sched : ∀ runs t,
  Forall (λ i, i < length recipes)%nat sched →
  ∃ t', runGoroutines r recipes sched runs t
        = Some (foldl (λ runs i, <[i := runOf r (default Recipe_zero (recipes !! i))]> runs)
                  runs sched, t').
Proof.
  induction sched as [|i sched IH]; intros runs t Hsched; simpl.
  - by eexists.
  - apply Forall_cons in Hsched as [Hi Hsched].
    destruct (lookup_lt_is_Some_2 recipes i Hi) as [recipe Hrecipe].
    rewrite Hrecipe. simpl.
    destruct (Agent_Run_runOf r recipe t) as [t1 ->].
    apply IH, Hsched.
Qed.

Lemma foldl_insert_length {A} (f : nat → A) sched : ∀ l,
  length (foldl (λ l i, <[i := f i]> l) l sched) = length l.
Proof.
  induction sched as [|i sched IH]; intros l; simpl; [done|].
  by rewrite IH, length_insert.
Qed.

Lemma foldl_insert_lookup {A} (f : nat → A) sched i : ∀ l,
  (i < length l)%nat →
  i ∈ sched ∨ l !! i = Some (f i) →
  foldl (λ l i, <[i := f i]> l) l sched !! i = Some (f i).
Proof.
  induction sched as [|j sched IH]; intros l Hi Hin; simpl.
  - destruct Hin as [Hin|Hin]; [by apply elem_of_nil in Hin|done].
  - apply IH; [by rewrite length_insert|].
    destruct (decide (i = j)) as [->|Hne].
    + right. by apply list_lookup_insert_eq.
    + destruct Hin as [Hin|Hin].
      * apply elem_of_cons in Hin as [Hin|Hin]; [done|by left].
      * right. by rewrite list_lookup_insert_ne.
Qed.

(** C9.  Whatever the order in which the goroutines of [RunMultiple] get to
    run, the call returns one summary per recipe; the summary at position
    [i] is the one that [Run] returns for the recipe at position [i], in
    any world, so it does not depend on the other recipes or on how their
    runs end. *)
Theorem RunMultiple_in_order (r : Agent) (recipes : list Recipe)
    (sched : list nat) (t : list Event) :
  sched ≡ₚ seq 0 (length recipes) →
  ∃ runs t', Agent_RunMultiple r recipes sched t = Some (runs, t') ∧
    length runs = length recipes ∧
    ∀ i recipe, recipes !! i = Some recipe →
      ∃ run, runs !! i = Some run ∧
        ∀ t0, ∃ t1, Agent_Run r recipe t0 = Some (run, t1).
Proof.
  intros Hsched.
  assert (∀ i, i ∈ sched ↔ (i < length recipes)%nat) as Hin.
  { intros i. rewrite Hsched, elem_of_seq. lia. }
  destruct (runGoroutines_spec r recipes sched
              (replicate (length recipes) (Run_zero Recipe_zero)) t)
    as [t' Hrun].
  { apply Forall_forall. intros i Hi. by apply Hin. }
  eexists _, _. split; [exact Hrun|]. split.
  - by rewrite foldl_insert_length, length_replicate.
  - intros i recipe Hrecipe. exists (runOf r recipe). split.
    + rewrite (foldl_insert_lookup
                 (λ i, runOf r (default Recipe_zero (recipes !! i)))).
      * by rewrite Hrecipe.
      * rewrite length_replicate. by eapply lookup_lt_Some.
      * left. apply Hin. by eapply lookup_lt_Some.
    + intros t0. apply Agent_Run_runOf.
Qed.

Lemma RunMultiple_in_order_witness :
  ∃ runs t',
    Agent_RunMultiple agentHappy [validRecipe; recipeBadExtractor] [1; 0]%nat []
    = Some (runs, t') ∧
    length runs = 2%nat ∧
    (∃ ok, runs !! 0%nat = Some ok ∧ Run_Recipe ok = validRecipe ∧ Run_Success ok = true) ∧
    (∃ bad, runs !! 1%nat = Some bad ∧ Run_Recipe bad = recipeBadExtractor
            ∧ Run_Success bad = false).
Proof.
  destruct (RunMultiple_in_order agentHappy [validRecipe; recipeBadExtractor]
              [1; 0]%nat [])
    as (runs & t' & Hrun & Hlen & Hith).
  { apply Permutation_swap. }
  exists runs, t'. split; [exact Hrun|]. split; [exact Hlen|].
  vm_compute in Hrun. injection Hrun as <- <-.
  split; eexists; (split; [reflexivity|split; reflexivity]).
Defined.

(** ** Where the code departs from the claims *)

(** C1.  The counter of [Run] is the last middleware of the stream, so a
    record on which a processor fails is not counted: here the extractor
    emits three records, the processor fails on the third, and
    [RecordCount] is 2. *)
Theorem RecordCount_misses_failed_record :
  ∃ run t',
    Extractor_Extract (mockExtractor ["r1"; "r2"; "r3"] (Returned None)) noConfig
    = (["r1"; "r2"; "r3"], Returned None) ∧
    Agent_Run agentProcessorFails validRecipe [] = Some (run, t') ∧
    List.filter isExtract t' = [EvExtract "test-extractor"] ∧
    Run_Success run = false ∧
    Run_RecordCount run = 2.
Proof.
  eexists _, _. split; [reflexivity|]. split; [vm_compute; reflexivity|].
  repeat split.
Qed.

(** C2.  For a sink whose name is not registered, [Validate] returns an
    entry that names the source and the extractor role instead of the sink:
    here the only fault of the recipe is the missing sink [missing-sink]. *)
Theorem Validate_missing_sink_blames_extractor :
  sourceFaulty agentHappy (Recipe_Source recipeMissingSink) = false ∧
  Agent_Validate agentHappy recipeMissingSink
  = [Wrap (NotFoundError PluginTypeSink "missing-sink")
       "invalid config for test-extractor (extractor)"].
Proof. split; vm_compute; reflexivity. Qed.


(** ** The record counter on runs without failures *)








Lemma sinkCloseHooks_state r srs st : (runOnCloses (sinkCloseHooks r srs) st).1 = st.
Proof.
  induction srs as [|sr srs IH]; simpl; [done|].
  destruct (sinkFactory r !! Sink_Name sr) as [sink|]; [|done]. simpl.
  by destruct (runOnCloses (sinkCloseHooks r srs) st).
Qed.

(** * Further properties of the agent *)

(** ** Validate *)

Lemma Validate_sink_app r rcp errs s :
  Validate_sink r rcp errs s = errs ++ Validate_sink r rcp [] s.
Proof.
  unfold Validate_sink. destruct (Factory_Get _ _ _) as [sink|err]; [|done].
  destruct (Syncer_Validate sink _); [done|by rewrite app_nil_r].
Qed.

Lemma Validate_processor_app r rcp errs p :
  Validate_processor r rcp errs p = errs ++ Validate_processor r rcp [] p.
Proof.
  unfold Validate_processor. destruct (Factory_Get _ _ _) as [proc|err]; [|done].
  destruct (Processor_Validate proc _); [done|by rewrite app_nil_r].
Qed.

Lemma Validate_sinks_flat r rcp srs : ∀ errs,
  foldl (Validate_sink r rcp) errs srs
  = errs ++ flat_map (Validate_sink r rcp []) srs.
Proof.
  induction srs as [|s srs IH]; intros errs; simpl; [by rewrite app_nil_r|].
  by rewrite IH, Validate_sink_app, <- app_assoc.
Qed.

Lemma Validate_processors_flat r rcp prs : ∀ errs,
  foldl (Validate_processor r rcp) errs prs
  = errs ++ flat_map (Validate_processor r rcp []) prs.
Proof.
  induction prs as [|p prs IH]; intros errs; simpl; [by rewrite app_nil_r|].
  by rewrite IH, Validate_processor_app, <- app_assoc.
Qed.

(** The entries come in the order source, sinks, processors, and the entry of
    a reference does not depend on the other references. *)
Lemma Validate_flat r rcp :
  Agent_Validate r rcp
  = Validate_source r rcp
    ++ flat_map (Validate_sink r rcp []) (Recipe_Sinks rcp)
    ++ flat_map (Validate_processor r rcp []) (Recipe_Processors rcp).
Proof.
  unfold Agent_Validate.
  by rewrite Validate_processors_flat, Validate_sinks_flat, <- app_assoc.
Qed.

Lemma filter_nil_length {A} (f : A → bool) l :
  length (List.filter f l) = 0%nat ↔ forallb (λ x, negb (f x)) l = true.
Proof.
  induction l as [|x l IH]; simpl; [done|].
  destruct (f x); simpl; [split; [lia|done]|done].
Qed.

(** X1.  [Validate] returns exactly one entry for the source if it is
    faulty, one for every faulty sink and one for every faulty processor of
    the recipe; so the list is empty exactly when no reference of the recipe
    is missing from the registry or rejected by its plugin's [Validate]. *)
Theorem Validate_reports_every_fault (r : Agent) (rcp : Recipe) :
  length (Agent_Validate r rcp)
  = ((if sourceFaulty r (Recipe_Source rcp) then 1 else 0)
     + length (List.filter (sinkFaulty r) (Recipe_Sinks rcp))
     + length (List.filter (processorFaulty r) (Recipe_Processors rcp)))%nat ∧
  (Agent_Validate r rcp = [] ↔
   sourceFaulty r (Recipe_Source rcp) = false ∧
   forallb (λ s, negb (sinkFaulty r s)) (Recipe_Sinks rcp) = true ∧
   forallb (λ p, negb (processorFaulty r p)) (Recipe_Processors rcp) = true).
Proof.
  assert (length (Agent_Validate r rcp)
    = ((if sourceFaulty r (Recipe_Source rcp) then 1 else 0)
       + length (List.filter (sinkFaulty r) (Recipe_Sinks rcp))
       + length (List.filter (processorFaulty r) (Recipe_Processors rcp)))%nat)
    as Hlen.
  { unfold Agent_Validate.
    rewrite Validate_processors_length, Validate_sinks_length.
    do 2 f_equal. unfold Validate_source, Factory_Get, sourceFaulty.
    destruct (extractorFactory r !! _) as [ext|]; [|done].
    by destruct (Extractor_Validate ext _). }
  split; [exact Hlen|].
  rewrite <- !filter_nil_length.
  rewrite <- length_zero_iff_nil, Hlen.
  destruct (sourceFaulty r _); split; try lia; intros (? & ? & ?); try done; lia.
Qed.

(** X2.  Every entry of [Validate] wraps its cause with an "invalid config
    for" message.  An entry that names a sink (a processor) with the sink
    (processor) role belongs to a sink (processor) of the recipe that is
    registered and whose [Validate] returned the cause; all other entries
    name the source's type and the extractor role. *)
Theorem Validate_entries_blame (r : Agent) (rcp : Recipe) :
  Forall (λ e, ∃ cause,
    e = Wrap cause (invalidConfigMsg (Source_Type (Recipe_Source rcp))
                      PluginTypeExtractor) ∨
    (∃ s sink, s ∈ Recipe_Sinks rcp ∧
       sinkFactory r !! Sink_Name s = Some sink ∧
       Syncer_Validate sink (Sink_Config s) = Some cause ∧
       e = Wrap cause (invalidConfigMsg (Sink_Name s) PluginTypeSink)) ∨
    (∃ p proc, p ∈ Recipe_Processors rcp ∧
       processorFactory r !! Processor_Name p = Some proc ∧
       Processor_Validate proc (Processor_Config p) = Some cause ∧
       e = Wrap cause (invalidConfigMsg (Processor_Name p) PluginTypeProcessor)))
    (Agent_Validate r rcp).
Proof.
  rewrite Validate_flat, !Forall_app. split; [|split].
  - unfold Validate_source, Factory_Get.
    destruct (extractorFactory r !! _) as [ext|]; [|by repeat econstructor].
    destruct (Extractor_Validate ext _); by repeat econstructor.
  - apply Forall_flat_map, Forall_forall. intros s Hs.
    unfold Validate_sink, Factory_Get.
    destruct (sinkFactory r !! Sink_Name s) as [sink|] eqn:Hget;
      [|by repeat econstructor].
    destruct (Syncer_Validate sink _) as [cause|] eqn:Hval; [|done].
    constructor; [|done]. exists cause. right. left. by exists s, sink.
  - apply Forall_flat_map, Forall_forall. intros p Hp.
    unfold Validate_processor, Factory_Get.
    destruct (processorFactory r !! Processor_Name p) as [proc|] eqn:Hget;
      [|by repeat econstructor].
    destruct (Processor_Validate proc _) as [cause|] eqn:Hval; [|done].
    constructor; [|done]. exists cause. right. right. by exists p, proc.
Qed.

(** ** Runs whose setup fails *)

Lemma stepError_None r s : stepError r s = None ↔ stepOK r s = true.
Proof. unfold stepError, stepOK. by destruct (initResult r s) as [[]|]. Qed.

Lemma setupFailure_all_ok r plan :
  forallb (stepOK r) plan = true → setupFailure r plan = None.
Proof.
  induction plan as [|s plan IH]; simpl; [done|].
  intros [Hs Hplan]%andb_prop. apply stepError_None in Hs. rewrite Hs. auto.
Qed.

Lemma setupFailure_app_ok r plan1 plan2 :
  forallb (stepOK r) plan1 = true →
  setupFailure r (plan1 ++ plan2) = setupFailure r plan2.
Proof.
  induction plan1 as [|s plan1 IH]; simpl; [done|].
  intros [Hs Hplan]%andb_prop. apply stepError_None in Hs. rewrite Hs. auto.
Qed.

Lemma setupFailure_app_fail r plan1 plan2 :
  forallb (stepOK r) plan1 = false →
  setupFailure r (plan1 ++ plan2) = setupFailure r plan1.
Proof.
  induction plan1 as [|s plan1 IH]; simpl; [done|].
  destruct (stepError r s) eqn:Hs; [done|].
  apply stepError_None in Hs. rewrite Hs. simpl. auto.
Qed.

Lemma setupFailure_is_Some r plan :
  forallb (stepOK r) plan = false → is_Some (setupFailure r plan).
Proof.
  induction plan as [|s plan IH]; simpl; [done|].
  destruct (stepError r s) eqn:Hs; [by eexists|].
  apply stepError_None in Hs. rewrite Hs. simpl. auto.
Qed.

Lemma setupProcessors_error r prs : ∀ str,
  forallb (stepOK r) (map processorStep prs) = false →
  ∃ err, (setupProcessors r prs str).1.1 = Some err ∧
    setupFailure r (map processorStep prs)
    = Some (Wrap err "failed to setup processor").
Proof.
  induction prs as [|pr prs IH]; intros str; simpl; [done|].
  unfold stepOK at 1, stepError, initResult, Agent_setupProcessor, Factory_Get. simpl.
  destruct (processorFactory r !! Processor_Name pr) as [proc|]; simpl;
    [|by eexists].
  destruct (Processor_Init proc _); simpl; [by eexists|]. intros Hfail.
  destruct (IH (setMiddleware (processorMiddleware proc pr) str) Hfail)
    as (err & Herr & ->).
  destruct (setupProcessors r prs _) as [[e str'] evs]. simpl in Herr. subst e.
  by eexists.
Qed.

Lemma setupSinks_error r srs : ∀ i str,
  forallb (stepOK r) (map sinkStep srs) = false →
  ∃ err, (setupSinks r i srs str).1.1 = Some err ∧
    setupFailure r (map sinkStep srs) = Some (Wrap err "failed to setup sink").
Proof.
  induction srs as [|sr srs IH]; intros i str; simpl; [done|].
  unfold stepOK at 1, stepError, initResult, Agent_setupSink, Factory_Get. simpl.
  destruct (sinkFactory r !! Sink_Name sr) as [sink|]; simpl; [|by eexists].
  destruct (Syncer_Init sink _); simpl; [by eexists|]. intros Hfail.
  destruct (IH (S i) (onClose (sinkCloseHook sink sr)
                        (subscribe (sinkHandler r sink i sr) defaultBatchSize str))
              Hfail) as (err & Herr & ->).
  destruct (setupSinks r (S i) srs _) as [[e str'] evs]. simpl in Herr. subst e.
  by eexists.
Qed.

(** The body of [Run] after a failed setup: the error, and nothing but the
    [Init] calls up to the failure. *)
Lemma Run_body_setup_failure r recipe :
  forallb (stepOK r) (initPlan recipe) = false →
  ∃ err, setupFailure r (initPlan recipe) = Some err ∧
    Agent_Run_body r recipe (Run_zero recipe)
    = Some (failedSetupRun recipe err, initsOf r (initPlan recipe)).
Proof.
  rewrite forallb_initPlan.
  unfold initPlan, initsOf. cbn [initsCalled setupFailure].
  unfold stepOK at 1, stepError at 1. rewrite !initResult_source.
  unfold Agent_Run_body, Agent_Run_body_under, Agent_setupExtractor, Factory_Get.
  destruct (extractorFactory r !! _) as [ext|] eqn:Hget; simpl; [|by eexists].
  destruct (Extractor_Init ext _) eqn:Hinit; simpl; [by eexists|].
  fold (initsOf r (map processorStep (Recipe_Processors recipe)
                   ++ map sinkStep (Recipe_Sinks recipe))).
  destruct (forallb (stepOK r) (map processorStep _)) eqn:Hprocs; simpl.
  - intros Hsinks.
    rewrite (setupProcessors_ok _ _ _ Hprocs).
    pose proof (setupSinks_error r _ 0 (stream_app newStream
                  (processorMiddlewares r (Recipe_Processors recipe)) [] []) Hsinks)
      as (err & Herr & Hfail).
    destruct (setupSinks_fail r _ 0 (stream_app newStream
               (processorMiddlewares r (Recipe_Processors recipe)) [] []) Hsinks)
      as (err' & str' & Heq).
    rewrite Heq in Herr |- *. simpl in Herr. injection Herr as ->.
    rewrite initsOf_app_ok, setupFailure_app_ok, Hfail by done. by eexists.
  - intros _.
    pose proof (setupProcessors_error r _ newStream Hprocs) as (err & Herr & Hfail).
    destruct (setupProcessors_fail r _ newStream Hprocs) as (err' & str' & Heq).
    rewrite Heq in Herr |- *. simpl in Herr. injection Herr as ->.
    rewrite initsOf_app_fail, setupFailure_app_fail, Hfail by done. by eexists.
Qed.

(** X3.  When setup fails, [Run] returns a failed summary with record count
    0 whose error is that of the first reference of the plan (extractor,
    processors, sinks) that cannot be set up, wrapped as "could not find" or
    "could not initiate" and then as "failed to setup" with the role.  The
    run consists of the opening log line, the [Init] calls up to the failure,
    the report to the monitor and the closing log line: nothing is extracted,
    processed or sunk, and no sink is closed, not even one whose [Init]
    succeeded before the failure. *)
Theorem Run_setup_failure (r : Agent) (recipe : Recipe) (t : list Event) :
  forallb (stepOK r) (initPlan recipe) = false →
  ∃ err d,
    setupFailure r (initPlan recipe) = Some err ∧
    let run := {| Run_Recipe := recipe; Run_Error := Some err;
                  Run_DurationInMs := 0; Run_RecordCount := 0;
                  Run_Success := false |} in
    Agent_Run r recipe t
    = Some (run,
            t ++ startLog recipe ::
            map initEvent (take (initsCalled r (initPlan recipe)) (initPlan recipe))
            ++ [EvRecordRun (Run_with_DurationInMs run d);
                closingLog (Run_with_DurationInMs run d) d]).
Proof.
  intros Hfail.
  destruct (Run_body_setup_failure r recipe Hfail) as (err & Herr & Hbody).
  exists err. eexists. split; [exact Herr|]. simpl.
  rewrite (Agent_Run_unfold _ _ _ _ _ Hbody), <- app_assoc. reflexivity.
Qed.

Lemma Run_setup_failure_witness :
  ∃ run t',
    Agent_Run agentProcessorInitFails validRecipe [] = Some (run, t') ∧
    Run_Error run
    = Some (Wrap (Wrap (New "some error")
                    ("could not initiate processor " +:+ quoted "test-processor"))
              "failed to setup processor") ∧
    Run_RecordCount run = 0 ∧
    List.filter isInit t'
    = [EvInit PluginTypeExtractor "test-extractor" noConfig;
       EvInit PluginTypeProcessor "test-processor" [("proc-foo", "proc-bar")]] ∧
    List.filter isClose t' = [].
Proof.
  destruct (Run_setup_failure agentProcessorInitFails validRecipe [])
    as (err & d & Herr & Hrun); [reflexivity|].
  vm_compute in Herr. injection Herr as <-.
  eexists _, _. split; [exact Hrun|].
  repeat split.
Defined.

(** X4.  A recipe that names a plugin missing from the registry is rejected
    twice: [Validate] returns at least one entry, and [Run] fails without
    extracting anything. *)
Theorem missing_plugin_is_reported (r : Agent) (recipe : Recipe) (t : list Event)
    (s : PlanStep) :
  s ∈ initPlan recipe → initResult r s = None →
  Agent_Validate r recipe ≠ [] ∧
  ∃ run evs, Agent_Run r recipe t = Some (run, t ++ evs) ∧
    Run_Success run = false ∧ Run_Error run ≠ None ∧
    List.filter isExtract evs = [].
Proof.
  intros Hin Hmissing. split.
  - rewrite Validate_flat. unfold initPlan in Hin.
    apply elem_of_cons in Hin as [->|Hin].
    + unfold Validate_source, Factory_Get.
      rewrite initResult_source in Hmissing.
      by destruct (extractorFactory r !! _).
    + intros [_ [Hsinks Hprocs]%app_eq_nil]%app_eq_nil.
      apply elem_of_app in Hin as [Hin|Hin];
        apply list_elem_of_fmap in Hin as (x & -> & Hx);
        apply list_elem_of_In in Hx.
      * assert (In (Wrap (NotFoundError PluginTypeProcessor (Processor_Name x))
                      (invalidConfigMsg (Source_Type (Recipe_Source recipe))
                         PluginTypeExtractor))
                  (flat_map (Validate_processor r recipe []) (Recipe_Processors recipe)))
          as Hbad; [|by rewrite Hprocs in Hbad].
        apply in_flat_map. exists x. split; [done|].
        unfold Validate_processor, Factory_Get.
        unfold initResult in Hmissing. simpl in Hmissing.
        destruct (processorFactory r !! Processor_Name x); [done|]. by left.
      * assert (In (Wrap (NotFoundError PluginTypeSink (Sink_Name x))
                      (invalidConfigMsg (Source_Type (Recipe_Source recipe))
                         PluginTypeExtractor))
                  (flat_map (Validate_sink r recipe []) (Recipe_Sinks recipe)))
          as Hbad; [|by rewrite Hsinks in Hbad].
        apply in_flat_map. exists x. split; [done|].
        unfold Validate_sink, Factory_Get.
        unfold initResult in Hmissing. simpl in Hmissing.
        destruct (sinkFactory r !! Sink_Name x); [done|]. by left.
  - assert (forallb (stepOK r) (initPlan recipe) = false) as Hfail.
    { apply not_true_is_false. intros Hok.
      apply forallb_true_Forall in Hok.
      rewrite Forall_forall in Hok. specialize (Hok s Hin).
      unfold stepOK in Hok. by rewrite Hmissing in Hok. }
    destruct (Run_body_setup_failure r recipe Hfail) as (err & _ & Hbody).
    eexists _, _. split; [|split; [|split]].
    + rewrite (Agent_Run_unfold _ _ _ _ _ Hbody), <- app_assoc. reflexivity.
    + done.
    + done.
    + apply filter_none. constructor; [done|]. apply Forall_app. split.
      * unfold initsOf. apply Forall_map, Forall_true. by intros [[role nm] cfg].
      * constructor; [done|]. constructor; [|done].
        match goal with |- context [closingLog ?a ?b] =>
          pose proof (closingLog_isLog a b); by destruct (closingLog a b) end.
Qed.

Lemma missing_plugin_is_reported_witness :
  Agent_Validate agentHappy recipeBadExtractor ≠ [] ∧
  ∃ run evs, Agent_Run agentHappy recipeBadExtractor [] = Some (run, evs) ∧
    Run_Success run = false.
Proof.
  destruct (missing_plugin_is_reported agentHappy recipeBadExtractor []
              (sourceStep (Recipe_Source recipeBadExtractor)))
    as (Hval & run & evs & Hrun & Hfail & _).
  - by left.
  - reflexivity.
  - split; [exact Hval|]. exists run, evs. by split.
Defined.

(** ** Closing the sinks *)

Lemma initResult_withClose f r s :
  initResult (Agent_withClose f r) s = initResult r s.
Proof.
  destruct s as [[[] name] cfg]; unfold initResult; simpl; try done.
  rewrite lookup_fmap. by destruct (sinkFactory r !! name).
Qed.

Lemma stepOK_withClose f r plan :
  forallb (stepOK (Agent_withClose f r)) plan = forallb (stepOK r) plan.
Proof.
  induction plan as [|s plan IH]; simpl; [done|].
  unfold stepOK at 1 3. by rewrite initResult_withClose, IH.
Qed.

Lemma setupFailure_withClose f r plan :
  setupFailure (Agent_withClose f r) plan = setupFailure r plan.
Proof.
  induction plan as [|s plan IH]; simpl; [done|].
  unfold stepError. by rewrite initResult_withClose, IH.
Qed.

Lemma sinkHandlers_withClose f r srs : ∀ i,
  sinkHandlers (Agent_withClose f r) i srs = sinkHandlers r i srs.
Proof.
  induction srs as [|sr srs IH]; intros i; simpl; [done|].
  rewrite lookup_fmap, IH. by destruct (sinkFactory r !! Sink_Name sr).
Qed.

Lemma processorMiddlewares_withClose f r prs :
  processorMiddlewares (Agent_withClose f r) prs = processorMiddlewares r prs.
Proof.
  induction prs as [|pr prs IH]; simpl; [done|].
  rewrite IH. by destruct (processorFactory r !! Processor_Name pr).
Qed.

Lemma agentBroadcast_result r recipe records :
  (agentBroadcast r recipe records).1
  = (driveCore (processorMiddlewares r (Recipe_Processors recipe) ++ [countMiddleware])
       (sinkHandlers r 0 (Recipe_Sinks recipe)) records initialState).1.
Proof.
  unfold agentBroadcast.
  destruct (driveCore _ _ records _) as [[e st1] evs1].
  pose proof (sinkCloseHooks_state r (Recipe_Sinks recipe) st1) as Hst.
  destruct (runOnCloses _ st1) as [st2 evs2]. simpl in *. by subst.
Qed.

(** X7.  What [Close] returns never changes the outcome of a run: an agent
    whose sinks answer [Close] differently (for instance with an error,
    which is only logged as a warning) returns the same summary. *)
Theorem Close_result_is_ignored (f : Config → option error) (r : Agent)
    (recipe : Recipe) (t : list Event) :
  ∃ run t1 t2,
    Agent_Run r recipe t = Some (run, t1) ∧
    Agent_Run (Agent_withClose f r) recipe t = Some (run, t2).
Proof.
  destruct (forallb (stepOK r) (initPlan recipe)) eqn:Hok.
  - pose proof Hok as Hok'. rewrite <- (stepOK_withClose f) in Hok'.
    destruct (Run_body_setup_ok r recipe Hok) as (ext & Hget & Hbody).
    destruct (Run_body_setup_ok _ recipe Hok') as (ext' & Hget' & Hbody').
    simpl in Hget'. rewrite Hget in Hget'. injection Hget' as <-.
    destruct (Extractor_Extract ext _) as [records outcome].
    pose proof (agentBroadcast_result r recipe records) as H1.
    pose proof (agentBroadcast_result (Agent_withClose f r) recipe records) as H2.
    rewrite sinkHandlers_withClose in H2.
    rewrite processorMiddlewares_withClose in H2.
    rewrite <- H1 in H2.
    destruct (agentBroadcast r recipe records) as [[berr st] evs].
    destruct (agentBroadcast (Agent_withClose f r) recipe records)
      as [[berr' st'] evs'].
    simpl in H2. injection H2 as -> ->.
    eexists _, _, _. split; by apply Agent_Run_unfold.
  - pose proof Hok as Hok'. rewrite <- (stepOK_withClose f) in Hok'.
    destruct (Run_body_setup_failure r recipe Hok) as (err & Herr & Hbody).
    destruct (Run_body_setup_failure _ recipe Hok') as (err' & Herr' & Hbody').
    rewrite setupFailure_withClose, Herr in Herr'. injection Herr' as <-.
    eexists _, _, _. split; by apply Agent_Run_unfold.
Qed.

(** A failing [Close] in a run of the tests' recipe: the warning is logged
    and the run succeeds. *)
Example test_close_fails :
  ∃ run t', Agent_Run (Agent_withClose closeFails agentHappy) validRecipe []
            = Some (run, t') ∧
    Run_Success run = true ∧
    Exists (λ ev, ev = EvLog LevelWarn "error closing sink"
                         [("sink", FString "test-sink");
                          ("error", FError (Some (New "close failed")))]) t'.
Proof.
  eexists _, _. split; [vm_compute; reflexivity|]. split; [done|].
  do 8 apply Exists_cons_tl. by apply Exists_cons_hd.
Qed.

(** ** Delivery *)

Lemma sinkHandler_accepts r sink i sr b st :
  (∀ n, Syncer_Sink sink (Sink_Config sr) n b = None) →
  ∃ st', sinkHandler r sink i sr b st = (None, st', [EvSink (Sink_Name sr) b]).
Proof.
  intros Hok. unfold sinkHandler, retrier_retry.
  destruct (pred (maxRetries (Agent_retrier r))); simpl; rewrite Hok; by eexists.
Qed.

Lemma sinkHandlers_accept r b srs : ∀ i st,
  forallb (stepOK r) (map sinkStep srs) = true →
  sinksAccept r srs →
  ∃ st', callAll (sinkHandlers r i srs) b st
         = (None, st', map (λ sr, EvSink (Sink_Name sr) b) srs).
Proof.
  induction srs as [|sr srs IH]; intros i st Hok Haccept; simpl in *.
  - by eexists.
  - apply andb_prop in Hok as [Hsr Hok].
    unfold stepOK, initResult in Hsr. simpl in Hsr.
    destruct (sinkFactory r !! Sink_Name sr) as [sink|] eqn:Hget; [|done].
    simpl. destruct (sinkHandler_accepts r sink i sr b st) as [st1 ->].
    { intros n. eapply Haccept; [by left|done]. }
    destruct (IH (S i) st1 Hok) as [st2 ->].
    { intros sr' sink' Hin. apply Haccept. by right. }
    by eexists.
Qed.

Lemma processorMiddlewares_apply r prs : ∀ d st,
  processorsPass r prs d = true →
  ∃ st' evs,
    runMiddlewares (processorMiddlewares r prs ++ [countMiddleware]) d st
    = (MwOk (applyProcessors r prs d), st', evs) ∧
    List.filter isSink evs = [].
Proof.
  induction prs as [|pr prs IH]; intros d st Hpass; simpl in *.
  - by eexists _, _.
  - destruct (processorFactory r !! Processor_Name pr) as [proc|]; [|done].
    simpl. destruct (Processor_Process proc _ d) as [d'| |]; [|done..].
    destruct (IH d' st Hpass) as (st' & evs & -> & Hevs).
    by eexists _, _.
Qed.

Lemma filter_isSink_sinks b srs :
  List.filter isSink (map (λ sr, EvSink (Sink_Name sr) b) srs)
  = map (λ sr : SinkRecipe, EvSink (Sink_Name sr) b) srs.
Proof. induction srs as [|sr srs IH]; simpl; [done|]. by rewrite IH. Qed.

Lemma driveCore_delivers r prs srs records : ∀ st,
  Forall (λ d, processorsPass r prs d = true) records →
  forallb (stepOK r) (map sinkStep srs) = true →
  sinksAccept r srs →
  List.filter isSink
    (driveCore (processorMiddlewares r prs ++ [countMiddleware])
       (sinkHandlers r 0 srs) records st).2
  = flat_map (λ d, map (λ sr, EvSink (Sink_Name sr) [applyProcessors r prs d]) srs)
      records.
Proof.
  induction records as [|d records IH]; intros st Hpass Hok Haccept; [done|].
  apply Forall_cons in Hpass as [Hd Hpass].
  cbn [driveCore flat_map].
  destruct (processorMiddlewares_apply r prs d st Hd) as (st1 & evs1 & -> & Hevs1).
  destruct (sinkHandlers_accept r [applyProcessors r prs d] srs 0 st1 Hok Haccept)
    as [st2 ->].
  specialize (IH st2 Hpass Hok Haccept).
  destruct (driveCore _ _ records st2) as [[e3 st3] evs3]. simpl in *.
  by rewrite !List.filter_app, Hevs1, filter_isSink_sinks, IH.
Qed.

(** ** The monitor under RunMultiple *)

Lemma Run_reports_once r recipe t :
  ∃ run evs, Agent_Run r recipe t = Some (run, t ++ evs) ∧
    length (List.filter isRecordRun evs) = 1%nat.
Proof.
  destruct (Run_body_facts r recipe) as (run & evs & Hbody & _ & _ & _ & Hevs).
  eexists _, _. split.
  - rewrite (Agent_Run_unfold _ _ _ _ _ Hbody), <- app_assoc. reflexivity.
  - simpl. rewrite List.filter_app, (filter_none isRecordRun evs).
    + simpl. match goal with |- context [closingLog ?a ?b] =>
        pose proof (closingLog_isLog a b); by destruct (closingLog a b) end.
    + eapply Forall_impl; [exact Hevs|]. apply bodyEvent_not_recordRun.
Qed.

Lemma runGoroutines_reports r recipes sched : ∀ runs t,
  Forall (λ i, i < length recipes)%nat sched →
  ∃ runs' evs, runGoroutines r recipes sched runs t = Some (runs', t ++ evs) ∧
    length (List.filter isRecordRun evs) = length sched.
Proof.
  induction sched as [|i sched IH]; intros runs t Hsched; simpl.
  - exists runs, []. by rewrite app_nil_r.
  - apply Forall_cons in Hsched as [Hi Hsched].
    destruct (lookup_lt_is_Some_2 recipes i Hi) as [recipe Hrecipe].
    rewrite Hrecipe. simpl.
    destruct (Run_reports_once r recipe t) as (run & evs1 & -> & Hone).
    destruct (IH (<[i:=run]> runs) (t ++ evs1) Hsched) as (runs' & evs2 & -> & Hrest).
    exists runs', (evs1 ++ evs2). split; [by rewrite app_assoc|].
    rewrite List.filter_app, length_app. lia.
Qed.

(** X9.  Whatever the order in which the goroutines of [RunMultiple] run, the
    monitor is called once per recipe: the call adds as many [RecordRun]
    events as there are recipes, none for an empty list. *)
Theorem RunMultiple_reports_each_run (r : Agent) (recipes : list Recipe)
    (sched : list nat) (t : list Event) :
  sched ≡ₚ seq 0 (length recipes) →
  ∃ runs evs, Agent_RunMultiple r recipes sched t = Some (runs, t ++ evs) ∧
    length (List.filter isRecordRun evs) = length recipes.
Proof.
  intros Hsched.
  destruct (runGoroutines_reports r recipes sched
              (replicate (length recipes) (Run_zero Recipe_zero)) t)
    as (runs & evs & Hrun & Hcount).
  { apply Forall_forall. intros i Hi. rewrite Hsched in Hi.
    apply elem_of_seq in Hi. lia. }
  exists runs, evs. split; [exact Hrun|].
  by rewrite Hcount, Hsched, length_seq.
Qed.

Lemma RunMultiple_reports_each_run_witness :
  ∃ runs evs,
    Agent_RunMultiple agentHappy [validRecipe; recipeBadExtractor] [1; 0]%nat []
    = Some (runs, evs) ∧
    length (List.filter isRecordRun evs) = 2%nat.
Proof.
  destruct (RunMultiple_reports_each_run agentHappy
              [validRecipe; recipeBadExtractor] [1; 0]%nat [])
    as (runs & evs & Hrun & Hcount); [apply Permutation_swap|].
  by exists runs, evs.
Defined.

(** ** The error of a run whose downstream is clean *)

(** * The run under either order of the writes to [run.Error] *)

Lemma Run_body_under_setup_ok order r recipe :
  forallb (stepOK r) (initPlan recipe) = true →
  ∃ ext, extractorFactory r !! Source_Type (Recipe_Source recipe) = Some ext ∧
    Agent_Run_body_under order r recipe (Run_zero recipe)
    = let '(records, outcome) :=
        Extractor_Extract ext (Source_Config (Recipe_Source recipe)) in
      let '(berr, st, evs) := agentBroadcast r recipe records in
      Some (finishedRun recipe
              (errorAfterBroadcast_under order
                 (errorAfterExtract outcome (Recipe_Source recipe)) berr)
              (recordCount st),
            map initEvent (initPlan recipe)
            ++ EvExtract (Source_Type (Recipe_Source recipe)) :: evs).
Proof.
  rewrite forallb_initPlan. intros [Hsrc [Hprocs Hsinks]%andb_prop]%andb_prop.
  unfold stepOK, initResult in Hsrc. simpl in Hsrc.
  destruct (extractorFactory r !! _) as [ext|] eqn:Hget; [|done].
  simpl in Hsrc. destruct (Extractor_Init ext _) eqn:Hinit; [done|].
  exists ext. split; [done|].
  unfold Agent_Run_body_under, Agent_setupExtractor, Factory_Get.
  rewrite Hget, Hinit.
  rewrite (setupProcessors_ok _ _ _ Hprocs).
  rewrite (setupSinks_ok _ _ _ _ Hsinks).
  rewrite setMiddleware_app, !stream_app_app. simpl. rewrite !app_nil_r.
  unfold extractorGoroutine, runFn.
  destruct (Extractor_Extract ext _) as [records outcome].
  rewrite foldl_push by done.
  rewrite broadcast_ready; simpl; [|done|done|apply agentStream_ready].
  rewrite map_callback_fresh. unfold agentBroadcast, initialState.
  destruct (driveCore _ _ records _) as [[berr st1] evs1].
  destruct (runOnCloses _ st1) as [st2 evs2].
  unfold initPlan. simpl. rewrite map_app, <- !app_assoc. simpl.
  f_equal. f_equal.
  destruct order, outcome as [[err|]|[]], berr as [berr|]; reflexivity.
Qed.

Lemma Agent_Run_under_unfold order r recipe t run evs :
  Agent_Run_body_under order r recipe (Run_zero recipe) = Some (run, evs) →
  let t0 := t ++ [startLog recipe] in
  let d := timerFn r t0 (t0 ++ evs) in
  Agent_Run_under order r recipe t
  = Some (run,
          t0 ++ evs ++
          [EvRecordRun (Run_with_DurationInMs run d);
           closingLog (Run_with_DurationInMs run d) d]).
Proof.
  intros Hbody. unfold Agent_Run_under. rewrite Hbody. simpl.
  by rewrite logAndRecordMetrics_events, <- !app_assoc.
Qed.

(** ** Sink handlers that return nil *)

Lemma sinkHandlers_nil_from r srs : ∀ k,
  (∀ i sr sink, srs !! i = Some sr → sinkFactory r !! Sink_Name sr = Some sink →
     handlerNil (sinkHandler r sink (k + i) sr)) →
  Forall handlerNil (sinkHandlers r k srs).
Proof.
  induction srs as [|sr srs IH]; intros k H; simpl; [done|].
  assert (Forall handlerNil (sinkHandlers r (S k) srs)) as Hrest.
  { apply IH. intros i sr' sink Hi Hget.
    replace (S k + i)%nat with (k + S i)%nat by lia. by apply H. }
  destruct (sinkFactory r !! Sink_Name sr) as [sink|] eqn:Hget; [|done].
  constructor; [|done].
  specialize (H 0%nat sr sink eq_refl Hget). by rewrite Nat.add_0_r in H.
Qed.

Lemma sinkHandlersPass_Forall r srs :
  sinkHandlersPass r srs → Forall handlerNil (sinkHandlers r 0 srs).
Proof.
  intros Hpass. apply sinkHandlers_nil_from.
  intros i sr sink Hi Hget b st. by apply Hpass.
Qed.

(** With [stopOnSinkError] off every sink handler returns [nil]. *)
Lemma sinkHandlersPass_off r srs :
  stopOnSinkError r = false → sinkHandlersPass r srs.
Proof. intros Hstop i sr sink _ _. by apply sinkHandler_nil. Qed.


Lemma agentBroadcast_passes r recipe records :
  sinkHandlersPass r (Recipe_Sinks recipe) →
  Forall (λ d, processorsPass r (Recipe_Processors recipe) d = true) records →
  (agentBroadcast r recipe records).1.1 = None.
Proof.
  intros Hhandlers Hpass. unfold agentBroadcast.
  pose proof (driveCore_nil
    (processorMiddlewares r (Recipe_Processors recipe) ++ [countMiddleware])
    (sinkHandlers r 0 (Recipe_Sinks recipe)) records initialState) as H1.
  destruct (driveCore _ _ records _) as [[e st1] evs1].
  destruct (runOnCloses _ st1) as [st2 evs2]. simpl in *.
  apply H1.
  - eapply Forall_impl; [exact Hpass|]. apply processorMiddlewares_pass.
  - by apply sinkHandlersPass_Forall.
Qed.

(** ** A processor that fails *)

Lemma processorMiddlewares_stop r prs : ∀ d st,
  forallb (stepOK r) (map processorStep prs) = true →
  processorsPass r prs d = false →
  ∀ d', (runMiddlewares (processorMiddlewares r prs ++ [countMiddleware]) d st).1.1
        ≠ MwOk d'.
Proof.
  induction prs as [|pr prs IH]; intros d st Hok Hfail d'; simpl in *; [done|].
  apply andb_prop in Hok as [Hpr Hok].
  unfold stepOK, initResult in Hpr. simpl in Hpr.
  destruct (processorFactory r !! Processor_Name pr) as [proc|]; [|done].
  simpl. destruct (Processor_Process proc _ d) as [d1| |]; [|done..].
  specialize (IH d1 st Hok Hfail d').
  by destruct (runMiddlewares _ d1 st) as [[res st1] evs1].
Qed.

Lemma driveCore_stops r prs cbs records : ∀ st,
  forallb (stepOK r) (map processorStep prs) = true →
  forallb (processorsPass r prs) records = false →
  (driveCore (processorMiddlewares r prs ++ [countMiddleware]) cbs records st).1.1
  ≠ None.
Proof.
  induction records as [|d records IH]; intros st Hok Hfail; [done|].
  cbn [driveCore forallb] in *.
  destruct (processorsPass r prs d) eqn:Hd.
  - destruct (processorMiddlewares_pass r prs d Hd st) as (d' & st1 & evs1 & ->).
    destruct (callAll cbs [d'] st1) as [[e st2] evs2].
    destruct e as [e|]; [done|].
    specialize (IH st2 Hok Hfail).
    by destruct (driveCore _ cbs records st2) as [[e3 st3] evs3].
  - pose proof (processorMiddlewares_stop r prs d st Hok Hd) as Hstop.
    destruct (runMiddlewares _ d st) as [[[d'| |] st1] evs1]; [|done..].
    by specialize (Hstop d').
Qed.

Lemma agentBroadcast_stops r recipe records :
  forallb (stepOK r) (initPlan recipe) = true →
  forallb (processorsPass r (Recipe_Processors recipe)) records = false →
  (agentBroadcast r recipe records).1.1 ≠ None.
Proof.
  rewrite forallb_initPlan. intros [_ [Hprocs _]%andb_prop]%andb_prop Hfail.
  unfold agentBroadcast.
  pose proof (driveCore_stops r (Recipe_Processors recipe)
                (sinkHandlers r 0 (Recipe_Sinks recipe)) records initialState
                Hprocs Hfail) as H1.
  destruct (driveCore _ _ records _) as [[e st1] evs1].
  by destruct (runOnCloses _ st1) as [st2 evs2].
Qed.

(** ** Every record reaches every sink *)

Lemma retry_loop_calls sink i sr b n : ∀ interval st,
  EvSink (Sink_Name sr) b
  ∈ (retry_loop n interval (callSink sink i sr b) (retryNotification sr) st).2.
Proof.
  destruct n as [|n]; intros interval st; simpl.
  - destruct (Syncer_Sink sink _ _ _) as [[]|]; simpl; by left.
  - destruct (Syncer_Sink sink _ _ _) as [e|]; simpl; [|by left].
    destruct e; simpl; try by left.
    match goal with |- context [retry_loop n ?a ?f ?c ?s] =>
      destruct (retry_loop n a f c s) as [[e2 st2] evs2] end.
    simpl. by left.
Qed.

Lemma sinkHandler_calls r sink i sr :
  handlerCalls (Sink_Name sr) (sinkHandler r sink i sr).
Proof.
  intros b st. unfold sinkHandler, retrier_retry.
  pose proof (retry_loop_calls sink i sr b (pred (maxRetries (Agent_retrier r)))
                (initialInterval (Agent_retrier r)) st) as H.
  destruct (retry_loop _ _ _ _ st) as [[e st1] evs]. simpl in H.
  destruct e; simpl; [|done]. apply elem_of_app. by left.
Qed.

Lemma callAll_reaches cbs name b : ∀ st,
  Exists (handlerCalls name) cbs → EvSink name b ∈ (callAll cbs b st).2.
Proof.
  induction cbs as [|cb cbs IH]; intros st Hex; [by inversion Hex|].
  simpl. pose proof (IH) as IH'.
  destruct (cb b st) as [[e1 st1] evs1] eqn:Hcb.
  specialize (IH st1).
  destruct (callAll cbs b st1) as [[e2 st2] evs2]. simpl in *.
  apply elem_of_app. apply Exists_cons in Hex as [Hhere|Hthere].
  - left. specialize (Hhere b st). by rewrite Hcb in Hhere.
  - right. by apply IH.
Qed.

Lemma sinkHandlers_calls r srs sr : ∀ i,
  sr ∈ srs → forallb (stepOK r) (map sinkStep srs) = true →
  Exists (handlerCalls (Sink_Name sr)) (sinkHandlers r i srs).
Proof.
  induction srs as [|sr0 srs IH]; intros i Hin Hok; [by apply elem_of_nil in Hin|].
  simpl in *. apply andb_prop in Hok as [Hsr0 Hok].
  unfold stepOK, initResult in Hsr0. simpl in Hsr0.
  destruct (sinkFactory r !! Sink_Name sr0) as [sink|]; [|done].
  apply elem_of_cons in Hin as [->|Hin].
  - apply Exists_cons_hd, sinkHandler_calls.
  - apply Exists_cons_tl. by apply IH.
Qed.

Lemma driveCore_reaches r prs cbs records name d : ∀ st,
  Forall (λ d, processorsPass r prs d = true) records →
  Forall handlerNil cbs → Exists (handlerCalls name) cbs → d ∈ records →
  EvSink name [applyProcessors r prs d]
  ∈ (driveCore (processorMiddlewares r prs ++ [countMiddleware]) cbs records st).2.
Proof.
  induction records as [|d0 records IH]; intros st Hpass Hnil Hcalls Hin;
    [by apply elem_of_nil in Hin|].
  apply Forall_cons in Hpass as [Hd0 Hpass]. cbn [driveCore].
  destruct (processorMiddlewares_apply r prs d0 st Hd0) as (st1 & evs1 & -> & _).
  pose proof (callAll_nil cbs [applyProcessors r prs d0] st1 Hnil) as Hnone.
  pose proof (callAll_reaches cbs name [applyProcessors r prs d0] st1 Hcalls) as Hcall.
  destruct (callAll cbs _ st1) as [[e st2] evs2]. simpl in Hnone, Hcall. subst e.
  specialize (IH st2 Hpass Hnil Hcalls).
  destruct (driveCore _ cbs records st2) as [[e3 st3] evs3]. simpl in *.
  apply elem_of_app. right. apply elem_of_app.
  apply elem_of_cons in Hin as [->|Hin]; [by left|right; by apply IH].
Qed.

Lemma agentBroadcast_reaches r recipe records sr d :
  forallb (stepOK r) (initPlan recipe) = true →
  Forall (λ d, processorsPass r (Recipe_Processors recipe) d = true) records →
  sinkHandlersPass r (Recipe_Sinks recipe) →
  sr ∈ Recipe_Sinks recipe → d ∈ records →
  EvSink (Sink_Name sr) [applyProcessors r (Recipe_Processors recipe) d]
  ∈ (agentBroadcast r recipe records).2.
Proof.
  rewrite forallb_initPlan. intros [_ [_ Hsinks]%andb_prop]%andb_prop.
  intros Hpass Hhandlers Hsr Hd. unfold agentBroadcast.
  pose proof (driveCore_reaches r (Recipe_Processors recipe)
                (sinkHandlers r 0 (Recipe_Sinks recipe)) records (Sink_Name sr) d
                initialState Hpass (sinkHandlersPass_Forall _ _ Hhandlers)
                (sinkHandlers_calls r _ sr 0 Hsr Hsinks) Hd) as H1.
  destruct (driveCore _ _ records _) as [[e st1] evs1].
  destruct (runOnCloses _ st1) as [st2 evs2]. simpl in *.
  apply elem_of_app. by left.
Qed.

(** ** Batches of one record *)

Lemma sinkHandlers_length r srs : ∀ i,
  forallb (stepOK r) (map sinkStep srs) = true →
  length (sinkHandlers r i srs) = length srs.
Proof.
  induction srs as [|sr srs IH]; intros i Hok; simpl in *; [done|].
  apply andb_prop in Hok as [Hsr Hok].
  unfold stepOK, initResult in Hsr. simpl in Hsr.
  destruct (sinkFactory r !! Sink_Name sr) as [sink|]; [|done].
  simpl. by rewrite IH.
Qed.

Lemma batchSize_fresh cbs :
  map batchSize (map freshSubscriber cbs) = replicate (length cbs) 1%nat.
Proof. induction cbs as [|cb cbs IH]; simpl; [done|]. by rewrite IH. Qed.

(** C10.  [defaultBatchSize] is 1.  [setupSink] of a sink that is registered
    and whose [Init] succeeds returns [nil] and adds exactly one subscriber
    to the stream: the sink's handler, with batch size 1 and an empty
    buffer, whatever the agent and the recipe say; for any other sink it
    returns an error and leaves the stream as it is.  So the loop of [Run]
    over the sinks of a recipe whose sinks can all be set up adds one
    subscriber of batch size 1 per sink.  In every run each call of [Sink]
    receives exactly one record; and when setup succeeds, no processor fails
    and no sink handler returns an error, every sink of the recipe is called
    with the one-record batch of every emitted record. *)
Theorem Run_sinks_get_single_records (r : Agent) (recipe : Recipe) (t : list Event) :
  defaultBatchSize = 1%nat ∧
  (∀ i sr str,
     match sinkFactory r !! Sink_Name sr with
     | Some sink =>
         match Syncer_Init sink (Sink_Config sr) with
         | None =>
             (Agent_setupSink r i sr str).1.1 = None ∧
             subscribers (Agent_setupSink r i sr str).1.2
             = subscribers str ++
               [{| callback := sinkHandler r sink i sr; batchSize := 1; batch := [] |}]
         | Some _ =>
             (Agent_setupSink r i sr str).1.1 ≠ None ∧
             (Agent_setupSink r i sr str).1.2 = str
         end
     | None =>
         (Agent_setupSink r i sr str).1.1 ≠ None ∧
         (Agent_setupSink r i sr str).1.2 = str
     end) ∧
  (∀ str,
     forallb (stepOK r) (map sinkStep (Recipe_Sinks recipe)) = true →
     (setupSinks r 0 (Recipe_Sinks recipe) str).1.1 = None ∧
     map batchSize (subscribers (setupSinks r 0 (Recipe_Sinks recipe) str).1.2)
     = map batchSize (subscribers str)
       ++ replicate (length (Recipe_Sinks recipe)) 1%nat) ∧
  ∃ run evs, Agent_Run r recipe t = Some (run, t ++ evs) ∧
    Forall (λ ev, ∀ name records, ev = EvSink name records → length records = 1%nat)
      evs ∧
    (∀ ext records outcome,
       forallb (stepOK r) (initPlan recipe) = true →
       extractorFactory r !! Source_Type (Recipe_Source recipe) = Some ext →
       Extractor_Extract ext (Source_Config (Recipe_Source recipe))
       = (records, outcome) →
       forallb (processorsPass r (Recipe_Processors recipe)) records = true →
       sinkHandlersPass r (Recipe_Sinks recipe) →
       ∀ sr d, sr ∈ Recipe_Sinks recipe → d ∈ records →
         EvSink (Sink_Name sr) [applyProcessors r (Recipe_Processors recipe) d]
         ∈ evs).
Proof.
  split; [done|]. split; [|split].
  - intros i sr str. unfold Agent_setupSink, Factory_Get.
    destruct (sinkFactory r !! Sink_Name sr) as [sink|]; [|done].
    by destruct (Syncer_Init sink _).
  - intros str Hok. rewrite (setupSinks_ok _ _ _ _ Hok). simpl. split; [done|].
    by rewrite map_app, batchSize_fresh, sinkHandlers_length.
  - destruct (Run_body_facts r recipe) as (run & evs & Hbody & _ & _ & _ & Hevs).
    exists run. eexists. split; [|split].
    + rewrite (Agent_Run_unfold _ _ _ _ _ Hbody), <- app_assoc. reflexivity.
    + constructor; [done|]. apply Forall_app. split.
      * eapply Forall_impl; [exact Hevs|].
        intros ev Hev name records ->. apply bodyEvent_not_oddSink in Hev.
        simpl in Hev. apply negb_false_iff in Hev. by apply bool_decide_eq_true in Hev.
      * constructor; [done|]. constructor; [|done].
        intros name records Heq.
        match type of Heq with closingLog ?a ?b = _ =>
          pose proof (closingLog_isLog a b) as Hlog; by rewrite Heq in Hlog end.
    + intros ext records outcome Hok Hget Hextract Hpass Hhandlers sr d Hsr Hd.
      destruct (Run_body_setup_ok r recipe Hok) as (ext' & Hget' & Hbody').
      rewrite Hget in Hget'. injection Hget' as <-. rewrite Hextract in Hbody'.
      apply forallb_true_Forall in Hpass.
      pose proof (agentBroadcast_reaches r recipe records sr d Hok Hpass Hhandlers
                    Hsr Hd) as Hreach.
      destruct (agentBroadcast r recipe records) as [[berr st] evs'].
      assert (evs = map initEvent (initPlan recipe)
                    ++ EvExtract (Source_Type (Recipe_Source recipe)) :: evs')
        as -> by congruence.
      simpl in Hreach.
      apply elem_of_cons. right. apply elem_of_app. left.
      apply elem_of_app. right. apply elem_of_cons. by right.
Qed.

Lemma Run_sinks_get_single_records_witness :
  ∃ run evs, Agent_Run agentHappy validRecipe [] = Some (run, evs) ∧
    EvSink "test-sink" ["r1"] ∈ evs.
Proof.
  destruct (Run_sinks_get_single_records agentHappy validRecipe [])
    as (_ & _ & _ & run & evs & Hrun & _ & Hreach).
  exists run, evs. split; [exact Hrun|].
  apply (Hreach (mockExtractor ["r1"] (Returned None)) ["r1"] (Returned None)
           eq_refl eq_refl eq_refl eq_refl
           (sinkHandlersPass_off agentHappy _ eq_refl)
           {| Sink_Name := "test-sink";
              Sink_Config := [("url", "http://localhost:3000/data")] |} "r1");
    by left.
Defined.

(** ** A sink handler that returns an error has logged it *)

Lemma sinkHandler_loud r sink i sr : handlerLoud (sinkHandler r sink i sr).
Proof.
  intros b st. unfold sinkHandler.
  destruct (retrier_retry _ _ _ st) as [[e st1] evs].
  destruct e as [e|]; simpl; [|done]. intros _.
  apply Exists_app. right. by left.
Qed.

Lemma callAll_loud cbs b : ∀ st,
  Forall handlerLoud cbs → (callAll cbs b st).1.1 ≠ None →
  Exists (λ ev, isSinkErrorLog ev = true) (callAll cbs b st).2.
Proof.
  induction cbs as [|cb cbs IH]; intros st Hcbs; simpl; [done|].
  apply Forall_cons in Hcbs as [Hcb Hcbs]. specialize (Hcb b st).
  destruct (cb b st) as [[e1 st1] evs1].
  specialize (IH st1 Hcbs).
  destruct (callAll cbs b st1) as [[e2 st2] evs2]. simpl in *.
  intros Hsome. apply Exists_app. destruct e1 as [e1|].
  - left. by apply Hcb.
  - right. by apply IH.
Qed.

Lemma driveCore_loud ms cbs ch : ∀ st,
  Forall (chainPasses ms) ch → Forall handlerLoud cbs →
  (driveCore ms cbs ch st).1.1 ≠ None →
  Exists (λ ev, isSinkErrorLog ev = true) (driveCore ms cbs ch st).2.
Proof.
  induction ch as [|d ch IH]; intros st Hch Hcbs; simpl; [done|].
  apply Forall_cons in Hch as [Hd Hch].
  destruct (Hd st) as (d' & st1 & evs1 & ->).
  pose proof (callAll_loud cbs [d'] st1 Hcbs) as H2.
  destruct (callAll cbs [d'] st1) as [[e st2] evs2]. simpl in H2.
  destruct e as [e|]; simpl.
  - intros _. apply Exists_app. right. by apply H2.
  - specialize (IH st2 Hch Hcbs).
    destruct (driveCore ms cbs ch st2) as [[e3 st3] evs3]. simpl in *.
    intros He3. apply Exists_app. right. apply Exists_app. right. by apply IH.
Qed.

Lemma agentBroadcast_loud r recipe records :
  Forall (λ d, processorsPass r (Recipe_Processors recipe) d = true) records →
  (agentBroadcast r recipe records).1.1 ≠ None →
  Exists (λ ev, isSinkErrorLog ev = true) (agentBroadcast r recipe records).2.
Proof.
  intros Hpass. unfold agentBroadcast.
  pose proof (driveCore_loud
    (processorMiddlewares r (Recipe_Processors recipe) ++ [countMiddleware])
    (sinkHandlers r 0 (Recipe_Sinks recipe)) records initialState) as H1.
  destruct (driveCore _ _ records _) as [[e st1] evs1].
  destruct (runOnCloses _ st1) as [st2 evs2]. simpl in *.
  intros He. apply Exists_app. left. apply H1; [| |done].
  - eapply Forall_impl; [exact Hpass|]. apply processorMiddlewares_pass.
  - apply sinkHandlers_Forall. intros. apply sinkHandler_loud.
Qed.

Lemma noSinkErrorLog_in_run recipe plan name evs x d :
  Forall (λ ev, isSinkErrorLog ev = false)
    (startLog recipe :: (map initEvent plan ++ EvExtract name :: evs)
                        ++ [EvRecordRun x; closingLog x d])
  ↔ Forall (λ ev, isSinkErrorLog ev = false) evs.
Proof.
  split.
  - intros H. apply Forall_cons in H as [_ H]. apply Forall_app in H as [H _].
    apply Forall_app in H as [_ H]. by apply Forall_cons in H as [_ H].
  - intros H. constructor; [done|]. apply Forall_app. split.
    + apply Forall_app. split.
      * apply Forall_map, Forall_true. by intros [[role nm] cfg].
      * by constructor.
    + constructor; [done|]. constructor; [|done].
      unfold closingLog. by destruct (Run_Success x).
Qed.

(** ** A panicking extractor *)

(** C6 (amended).  Let the extractor panic in [Extract] with the value [v],
    before or after emitting records.  Then [Run] returns (the panic is
    recovered and does not crash the process), and the stream is closed all
    the same: every sink of the recipe is closed once.  What [run.Error] is
    depends on [v] and on the result [berr] of [broadcast]:
    - [berr] is [nil] exactly when no processor fails on an emitted record
      and, under [stopOnSinkError], no sink handler logged an error; in
      particular it is [nil] when no processor fails and no sink handler
      returns an error;
    - if [berr] is [nil], [run.Error] is the error whose text is the string
      form of [v], except for [panic(nil)], for which [recover()] returns
      [nil] and no error is recorded: the run then succeeds;
    - if [berr] is an error, the write of the panic's error and the write of
      [berr], wrapped as "failed to broadcast stream", are not ordered by
      the program: [run.Error] is the one written last, and it is the
      wrapped [berr] for [panic(nil)].
    In every case [Success] is [run.Error == nil], so that the run fails for
    every [v] other than [nil]. *)
Theorem extractor_panic (order : WriteOrder) (r : Agent) (recipe : Recipe)
    (t : list Event) (ext : Extractor) (records : list models_Record)
    (v : PanicValue) :
  forallb (stepOK r) (initPlan recipe) = true →
  extractorFactory r !! Source_Type (Recipe_Source recipe) = Some ext →
  Extractor_Extract ext (Source_Config (Recipe_Source recipe)) = (records, Panicked v) →
  ∃ run evs berr, Agent_Run_under order r recipe t = Some (run, t ++ evs) ∧
    List.filter isClose evs ≡ₚ closeEvents (Recipe_Sinks recipe) ∧
    (berr = None
     ↔ forallb (processorsPass r (Recipe_Processors recipe)) records = true ∧
       (stopOnSinkError r = true →
        Forall (λ ev, isSinkErrorLog ev = false) evs)) ∧
    (forallb (processorsPass r (Recipe_Processors recipe)) records = true →
     sinkHandlersPass r (Recipe_Sinks recipe) → berr = None) ∧
    Run_Error run
    = match berr, v with
      | None, PanicNil => None
      | None, _ => Some (Errorf (format_s v))
      | Some e, PanicNil => Some (Wrap e "failed to broadcast stream")
      | Some e, _ =>
          match order with
          | BroadcastLast => Some (Wrap e "failed to broadcast stream")
          | ExtractorLast => Some (Errorf (format_s v))
          end
      end ∧
    Run_Success run = is_nil (Run_Error run) ∧
    (v ≠ PanicNil → Run_Success run = false).
Proof.
  intros Hok Hget Hextract.
  destruct (Run_body_under_setup_ok order r recipe Hok) as (ext' & Hget' & Hbody).
  rewrite Hget in Hget'. injection Hget' as <-. rewrite Hextract in Hbody.
  pose proof (agentBroadcast_passes r recipe records) as Hnil.
  pose proof (agentBroadcast_nil r recipe records) as Hoff.
  pose proof (agentBroadcast_stops r recipe records Hok) as Hstops.
  pose proof (agentBroadcast_quiet r recipe records) as Hquiet.
  pose proof (agentBroadcast_loud r recipe records) as Hloud.
  pose proof (agentBroadcast_closes r recipe records) as Hcloses.
  destruct (agentBroadcast r recipe records) as [[berr st] evs].
  rewrite forallb_initPlan in Hok.
  apply andb_prop in Hok as [_ [_ Hsinks]%andb_prop].
  eexists _, _, berr. split; [|split; [|split; [|split; [|split; [|split]]]]].
  - rewrite (Agent_Run_under_unfold _ _ _ _ _ _ Hbody), <- app_assoc. reflexivity.
  - match goal with |- ?l ≡ₚ _ =>
      assert (l = closeEvents (Recipe_Sinks recipe)) as ->; [|done] end.
    etransitivity; [apply closes_in_run|]. by apply Hcloses.
  - simpl in Hquiet, Hloud, Hstops, Hoff. split.
    + intros ->. split.
      * destruct (forallb _ records); [done|]. by destruct Hstops.
      * intros Hstop. apply (proj2 (noSinkErrorLog_in_run _ _ _ _ _ _)).
        by apply Hquiet.
    + intros [Hpass Hlogs]. apply forallb_true_Forall in Hpass.
      destruct (stopOnSinkError r) eqn:Hstop; [|by apply Hoff].
      destruct berr as [e|]; [|done]. exfalso.
      eapply Forall_Exists_false;
        [apply (proj1 (noSinkErrorLog_in_run _ _ _ _ _ _) (Hlogs eq_refl))|].
      by apply Hloud.
  - intros Hpass Hhandlers. apply forallb_true_Forall in Hpass.
    by apply Hnil.
  - by destruct order, berr, v.
  - done.
  - intros Hv. by destruct order, berr, v.
Qed.

Lemma extractor_panic_witness :
  (∃ run evs, Agent_Run agentExtractorPanics validRecipe [] = Some (run, evs) ∧
     Run_Success run = false ∧
     Run_Error run = Some (Errorf "panicking") ∧
     List.filter isClose evs ≡ₚ [EvClose "test-sink"]) ∧
  (∃ run evs,
     Agent_Run_under ExtractorLast agentPanicAndProcessorFails validRecipe []
     = Some (run, evs) ∧
     Run_Success run = false ∧ Run_Error run = Some (Errorf "boom")).
Proof.
  split.
  - destruct (extractor_panic BroadcastLast agentExtractorPanics validRecipe []
                (mockExtractor [] (Panicked (PanicString "panicking"))) []
                (PanicString "panicking"))
      as (run & evs & berr & Hrun & Hcloses & _ & Hnil & Herr & _ & Hfail);
      [reflexivity..|].
    exists run, evs. split; [exact Hrun|]. split; [by apply Hfail|].
    split; [|exact Hcloses].
    rewrite Herr, (Hnil eq_refl (sinkHandlersPass_off agentExtractorPanics _ eq_refl)).
    reflexivity.
  - destruct (extractor_panic ExtractorLast agentPanicAndProcessorFails validRecipe []
                (mockExtractor ["r1"] (Panicked (PanicString "boom"))) ["r1"]
                (PanicString "boom"))
      as (run & evs & berr & Hrun & _ & Hiff & _ & Herr & _ & Hfail);
      [reflexivity..|].
    exists run, evs. split; [exact Hrun|]. split; [by apply Hfail|].
    rewrite Herr. destruct berr; [reflexivity|].
    by destruct (proj1 Hiff eq_refl) as [Hpass _].
Defined.

(** The claim C6 as stated fails in two ways.  When records were emitted and
    a processor fails on one of them, the error of [broadcast], written
    after the panic's, replaces it: the text of the panic is lost.  And an
    extractor that panics with [nil] does not fail the run at all. *)
Lemma extractor_panic_text_lost :
  (∃ run t' e,
     Extractor_Extract (mockExtractor ["r1"] (Panicked (PanicString "boom"))) noConfig
     = (["r1"], Panicked (PanicString "boom")) ∧
     Agent_Run_under BroadcastLast agentPanicAndProcessorFails validRecipe []
     = Some (run, t') ∧
     Run_Error run = Some e ∧
     contains (Error_text e) (format_s (PanicString "boom")) = false) ∧
  (∃ run t',
     Extractor_Extract (mockExtractor ["r1"] (Panicked PanicNil)) noConfig
     = (["r1"], Panicked PanicNil) ∧
     Agent_Run_under BroadcastLast agentExtractorPanicsNil validRecipe []
     = Some (run, t') ∧
     Agent_Run_under ExtractorLast agentExtractorPanicsNil validRecipe []
     = Some (run, t') ∧
     Run_Success run = true ∧ Run_Error run = None).
Proof.
  split.
  - eexists _, _, _. split; [reflexivity|]. split; [vm_compute; reflexivity|].
    split; reflexivity.
  - eexists _, _. split; [reflexivity|]. split; [vm_compute; reflexivity|].
    split; [vm_compute; reflexivity|]. split; reflexivity.
Qed.

(** Under [stopOnSinkError] a sink error that ends [broadcast] replaces the
    panic's error in the same way. *)
Example test_panic_and_sink_fails :
  ∃ run t',
    Agent_Run agentPanicAndSinkFails validRecipe [] = Some (run, t') ∧
    Run_Error run = Some (Wrap (New "some error") "failed to broadcast stream") ∧
    Run_Success run = false.
Proof. eexists _, _. split; [vm_compute; reflexivity|]. split; reflexivity. Qed.

(** ** The record count *)



(** ** Closing the sinks *)

(** X6.  [Run] closes every sink of the recipe exactly once whenever setup
    succeeded, however the run ends (extractor error or panic, processor
    failure, sink failure, success); when setup failed it closes none.  No
    order among the [Close] calls is stated: they are the sinks of the
    recipe up to a permutation. *)
Theorem Run_closes_sinks (r : Agent) (recipe : Recipe) (t : list Event) :
  ∃ run evs, Agent_Run r recipe t = Some (run, t ++ evs) ∧
    List.filter isClose evs
    ≡ₚ (if forallb (stepOK r) (initPlan recipe)
        then map (λ sr, EvClose (Sink_Name sr)) (Recipe_Sinks recipe)
        else []).
Proof.
  destruct (forallb (stepOK r) (initPlan recipe)) eqn:Hok.
  - destruct (Run_body_setup_ok r recipe Hok) as (ext & _ & Hbody).
    destruct (Extractor_Extract ext _) as [records outcome].
    pose proof (agentBroadcast_closes r recipe records) as Hcloses.
    destruct (agentBroadcast r recipe records) as [[berr st] evs].
    rewrite forallb_initPlan in Hok.
    apply andb_prop in Hok as [_ [_ Hsinks]%andb_prop].
    eexists _, _. split.
    + rewrite (Agent_Run_unfold _ _ _ _ _ Hbody), <- app_assoc. reflexivity.
    + match goal with |- ?l ≡ₚ _ =>
        assert (l = closeEvents (Recipe_Sinks recipe)) as ->; [|done] end.
      etransitivity; [apply closes_in_run|]. by apply Hcloses.
  - destruct (Run_body_setup_failure r recipe Hok) as (err & _ & Hbody).
    eexists _, _. split.
    + rewrite (Agent_Run_unfold _ _ _ _ _ Hbody), <- app_assoc. reflexivity.
    + match goal with |- ?l ≡ₚ _ => assert (l = []) as ->; [|done] end.
      apply filter_none. constructor; [done|]. apply Forall_app. split.
      * unfold initsOf. apply Forall_map, Forall_true. by intros [[role nm] cfg].
      * constructor; [done|]. constructor; [|done].
        match goal with |- context [closingLog ?a ?b] =>
          pose proof (closingLog_isLog a b); by destruct (closingLog a b) end.
Qed.

(** ** Delivery *)

(** The [Sink] calls of a run in the schedule of the model, which serves the
    sinks one after the other for each record. *)
Lemma Run_sink_calls r recipe t ext records outcome :
  forallb (stepOK r) (initPlan recipe) = true →
  extractorFactory r !! Source_Type (Recipe_Source recipe) = Some ext →
  Extractor_Extract ext (Source_Config (Recipe_Source recipe)) = (records, outcome) →
  forallb (processorsPass r (Recipe_Processors recipe)) records = true →
  sinksAccept r (Recipe_Sinks recipe) →
  ∃ run evs, Agent_Run r recipe t = Some (run, t ++ evs) ∧
    List.filter isSink evs
    = flat_map (λ d, map (λ sr, EvSink (Sink_Name sr)
                                  [applyProcessors r (Recipe_Processors recipe) d])
                       (Recipe_Sinks recipe))
        records.
Proof.
  intros Hok Hget Hextract Hpass Haccept.
  destruct (Run_body_setup_ok r recipe Hok) as (ext' & Hget' & Hbody).
  rewrite Hget in Hget'. injection Hget' as <-. rewrite Hextract in Hbody.
  apply forallb_true_Forall in Hpass.
  rewrite forallb_initPlan in Hok.
  apply andb_prop in Hok as [_ [_ Hsinks]%andb_prop].
  assert (List.filter isSink (agentBroadcast r recipe records).2
          = flat_map (λ d, map (λ sr, EvSink (Sink_Name sr)
                                  [applyProcessors r (Recipe_Processors recipe) d])
                             (Recipe_Sinks recipe)) records) as Hsunk.
  { unfold agentBroadcast.
    pose proof (driveCore_delivers r (Recipe_Processors recipe) (Recipe_Sinks recipe)
                  records initialState Hpass Hsinks Haccept) as H1.
    destruct (driveCore _ _ records _) as [[e st1] evs1].
    pose proof (runOnCloses_emits _ _ st1 (sinkCloseHooks_emits r (Recipe_Sinks recipe)))
      as H2.
    destruct (runOnCloses _ st1) as [st2 evs2]. simpl in *.
    rewrite List.filter_app, H1, (filter_none isSink evs2), app_nil_r; [done|].
    eapply Forall_impl; [exact H2|]. by intros [[]| | | | | | |]. }
  destruct (agentBroadcast r recipe records) as [[berr st] evs].
  eexists _, _. split.
  - rewrite (Agent_Run_unfold _ _ _ _ _ Hbody), <- app_assoc. reflexivity.
  - simpl in *. rewrite !List.filter_app. simpl.
    rewrite (filter_none isSink (map initEvent _)), Hsunk.
    + match goal with |- context [closingLog ?a ?b] =>
        pose proof (closingLog_isLog a b); destruct (closingLog a b) end;
        try done. simpl. by rewrite app_nil_r.
    + apply Forall_map, Forall_true. by intros [[role nm] cfg].
Qed.

Lemma filter_isSinkTo_isSink name evs :
  List.filter (isSinkTo name) (List.filter isSink evs)
  = List.filter (isSinkTo name) evs.
Proof.
  induction evs as [|ev evs IH]; simpl; [done|].
  destruct ev; simpl; try done. by rewrite IH.
Qed.

Lemma filter_isSinkTo_absent name b srs :
  name ∉ map Sink_Name srs →
  List.filter (isSinkTo name) (map (λ sr, EvSink (Sink_Name sr) b) srs) = [].
Proof.
  induction srs as [|sr srs IH]; simpl; [done|].
  intros Hnot. apply not_elem_of_cons in Hnot as [Hne Hnot].
  rewrite bool_decide_eq_false_2 by done. by apply IH.
Qed.

Lemma filter_isSinkTo_sinks sr b srs :
  NoDup (map Sink_Name srs) → sr ∈ srs →
  List.filter (isSinkTo (Sink_Name sr)) (map (λ sr, EvSink (Sink_Name sr) b) srs)
  = [EvSink (Sink_Name sr) b].
Proof.
  induction srs as [|sr0 srs IH]; simpl; intros Hnodup Hin;
    [by apply elem_of_nil in Hin|].
  apply NoDup_cons in Hnodup as [Hfresh Hnodup].
  apply elem_of_cons in Hin as [->|Hin].
  - rewrite bool_decide_eq_true_2 by done.
    by rewrite filter_isSinkTo_absent.
  - rewrite bool_decide_eq_false_2; [by apply IH|].
    intros Heq. apply Hfresh. rewrite Heq.
    apply list_elem_of_fmap. by exists sr.
Qed.

Lemma filter_isSinkTo_records sr srs (f : models_Record → models_Record) records :
  NoDup (map Sink_Name srs) → sr ∈ srs →
  List.filter (isSinkTo (Sink_Name sr))
    (flat_map (λ d, map (λ sr, EvSink (Sink_Name sr) [f d]) srs) records)
  = map (λ d, EvSink (Sink_Name sr) [f d]) records.
Proof.
  intros Hnodup Hin. induction records as [|d records IH]; simpl; [done|].
  by rewrite List.filter_app, filter_isSinkTo_sinks, IH.
Qed.

(** X8.  In a run whose setup succeeds, whose processors fail on no emitted
    record and whose sinks (of pairwise different names) accept every
    batch, each sink receives one call of [Sink] per emitted record, in
    emission order, with the one-record batch that holds the record as the
    processors, applied in recipe order, rewrote it.  This holds whether
    [Extract] then returns [nil], an error, or panics.  Nothing is said
    about the order of calls on different sinks. *)
Theorem Run_delivers_in_order (r : Agent) (recipe : Recipe) (t : list Event)
    (ext : Extractor) (records : list models_Record) (outcome : ExtractOutcome) :
  forallb (stepOK r) (initPlan recipe) = true →
  extractorFactory r !! Source_Type (Recipe_Source recipe) = Some ext →
  Extractor_Extract ext (Source_Config (Recipe_Source recipe)) = (records, outcome) →
  forallb (processorsPass r (Recipe_Processors recipe)) records = true →
  sinksAccept r (Recipe_Sinks recipe) →
  NoDup (map Sink_Name (Recipe_Sinks recipe)) →
  ∃ run evs, Agent_Run r recipe t = Some (run, t ++ evs) ∧
    ∀ sr, sr ∈ Recipe_Sinks recipe →
      List.filter (isSinkTo (Sink_Name sr)) evs
      = map (λ d, EvSink (Sink_Name sr)
                    [applyProcessors r (Recipe_Processors recipe) d]) records.
Proof.
  intros Hok Hget Hextract Hpass Haccept Hnodup.
  destruct (Run_sink_calls r recipe t ext records outcome Hok Hget Hextract Hpass
              Haccept) as (run & evs & Hrun & Hsunk).
  exists run, evs. split; [done|]. intros sr Hsr.
  rewrite <- filter_isSinkTo_isSink, Hsunk.
  by apply filter_isSinkTo_records.
Qed.

Lemma Run_delivers_in_order_witness :
  ∃ run evs, Agent_Run agentTwoSinks recipeTwoNamedSinks [] = Some (run, evs) ∧
    List.filter (isSinkTo "test-sink") evs
    = [EvSink "test-sink" ["r1'"]; EvSink "test-sink" ["r2'"]] ∧
    List.filter (isSinkTo "other-sink") evs
    = [EvSink "other-sink" ["r1'"]; EvSink "other-sink" ["r2'"]].
Proof.
  destruct (Run_delivers_in_order agentTwoSinks recipeTwoNamedSinks []
              (mockExtractor ["r1"; "r2"] (Returned None)) ["r1"; "r2"]
              (Returned None))
    as (run & evs & Hrun & Hsunk); [reflexivity..| | |].
  - intros sr sink _ Hget n b. simpl in Hget.
    apply lookup_insert_Some in Hget as [[_ <-]|[_ Hget]]; [reflexivity|].
    apply lookup_singleton_Some in Hget as [_ <-]. reflexivity.
  - by apply (bool_decide_unpack _).
  - exists run, evs. split; [exact Hrun|]. split.
    + apply (Hsunk {| Sink_Name := "test-sink";
                      Sink_Config := [("url", "http://localhost:3000/data")] |}).
      by left.
    + apply (Hsunk {| Sink_Name := "other-sink"; Sink_Config := [] |}).
      right. by left.
Defined.

(** ** The error of a run whose downstream is clean *)


(** * The extractor plugins *)

Lemma excludedMap_lookup_from (names : list string) (m : gmap string bool) (name : string) :
  foldl (λ (m : gmap string bool) n, <[n := true]> m) m names !! name
  = if bool_decide (name ∈ names) then Some true else m !! name.
Proof.
  revert m. induction names as [|n names IH]; intros m; cbn [foldl].
  - case_bool_decide as Hin; [by apply elem_of_nil in Hin|done].
  - rewrite IH. destruct (decide (name ∈ names)) as [Hin|Hin].
    + rewrite (bool_decide_eq_true_2 _ Hin).
      assert (Hin' : name ∈ n :: names) by (by right).
      by rewrite (bool_decide_eq_true_2 _ Hin').
    + rewrite (bool_decide_eq_false_2 _ Hin).
      destruct (decide (name = n)) as [->|Hne].
      * rewrite lookup_insert_eq.
        assert (Hin' : n ∈ n :: names) by (by left).
        by rewrite (bool_decide_eq_true_2 _ Hin').
      * rewrite lookup_insert_ne by done.
        assert (Hin' : name ∉ n :: names) by (intros [?|?]%elem_of_cons; done).
        by rewrite (bool_decide_eq_false_2 _ Hin').
Qed.

Lemma excludedMap_lookup (names : list string) (name : string) :
  excludedMap names !! name = if bool_decide (name ∈ names) then Some true else None.
Proof. unfold excludedMap. by rewrite excludedMap_lookup_from, lookup_empty. Qed.

Lemma mongodb_isDefaultCollection_built (e : mongodb_Extractor) (name : string) :
  mongodb_isDefaultCollection (mongodb_buildExcludedCollections e) name
  = bool_decide (name ∈ mongodb_defaultCollections).
Proof.
  unfold mongodb_isDefaultCollection, mongodb_buildExcludedCollections; cbn [mongodb_excluded].
  change (foldl _ ∅ mongodb_defaultCollections) with (excludedMap mongodb_defaultCollections).
  rewrite excludedMap_lookup. by destruct (bool_decide _).
Qed.

Lemma string_le_iff (a b : string) : string_le a b ↔ a = b ∨ String_as_OT.lt a b.
Proof.
  unfold string_le, string_leb.
  destruct (String_as_OT.compare_spec a b) as [Heq|Hlt|Hgt].
  - split; [by left|done].
  - split; [by right|done].
  - split; [done|]. intros [->|Hlt].
    + exfalso. by apply (StrictOrder_Irreflexive (R:=String_as_OT.lt) b).
    + exfalso. apply (StrictOrder_Irreflexive (R:=String_as_OT.lt) a).
      by apply (StrictOrder_Transitive (R:=String_as_OT.lt) a b a).
Qed.

Lemma string_le_total : Total string_le.
Proof.
  intros a b. rewrite !string_le_iff.
  destruct (String_as_OT.compare_spec a b) as [Heq|Hlt|Hgt]; auto.
Qed.

Lemma string_le_trans : Transitive string_le.
Proof.
  intros a b c. rewrite !string_le_iff. intros [->|Hab] [->|Hbc]; auto.
  right. by apply (StrictOrder_Transitive (R:=String_as_OT.lt) a b c).
Qed.

Lemma sort_Strings_sorted (l : list string) : StronglySorted string_le (sort_Strings l).
Proof.
  pose proof string_le_total. pose proof string_le_trans.
  apply StronglySorted_merge_sort; apply _.
Qed.

Lemma sort_Strings_Permutation (l : list string) : sort_Strings l ≡ₚ l.
Proof. apply merge_sort_Permutation. Qed.

(** ** mongodb *)

Lemma mongodb_isDefaultCollection_New (client : mongo_Client) (c : string) :
  mongodb_isDefaultCollection (mongodb_New client) c
  = bool_decide (c ∈ mongodb_defaultCollections).
Proof. apply mongodb_isDefaultCollection_built. Qed.

Lemma mongodb_emitCollections_names (e : mongodb_Extractor) (db : string)
    (cs : list string) :
  sublist (map Table_Name (mongodb_emitCollections e db cs).1) cs.
Proof.
  induction cs as [|c cs IH]; simpl; [constructor|].
  destruct (mongodb_isDefaultCollection e c); [by constructor|].
  unfold mongodb_buildTable.
  destruct (EstimatedDocumentCount (mongodb_client e) db c) as [n|err]; simpl.
  - destruct (mongodb_emitCollections e db cs) as [emitted err']; simpl in *.
    by constructor.
  - apply sublist_nil_l.
Qed.

Lemma mongodb_emitCollections_origin (client : mongo_Client) (db : string)
    (cs : list string) :
  Forall (λ t, ∃ c n, c ∈ cs ∧ (c ∉ mongodb_defaultCollections) ∧
                 EstimatedDocumentCount client db c = inl n ∧
                 t = mongodb_tableOf db c n)
    (mongodb_emitCollections (mongodb_New client) db cs).1.
Proof.
  induction cs as [|c cs IH]; simpl; [constructor|].
  rewrite mongodb_isDefaultCollection_New.
  case_bool_decide as Hdef; simpl.
  - eapply Forall_impl; [exact IH|]. intros t (c' & n & Hin & Hnd & Hn & ->).
    exists c', n. split_and!; try done. by right.
  - unfold mongodb_buildTable; cbn [mongodb_New mongodb_buildExcludedCollections mongodb_client].
    destruct (EstimatedDocumentCount client db c) as [n|err] eqn:Hn; simpl; [|constructor].
    destruct (mongodb_emitCollections (mongodb_New client) db cs) as [emitted err'];
      simpl in *.
    constructor.
    + exists c, n. split_and!; try done. by left.
    + eapply Forall_impl; [exact IH|]. intros t (c' & n' & Hin & Hnd & Hn' & ->).
      exists c', n'. split_and!; try done. by right.
Qed.

Lemma mongodb_emitCollections_ok (client : mongo_Client) (db : string)
    (cs : list string) :
  (mongodb_emitCollections (mongodb_New client) db cs).2 = None
  ↔ ∀ c, c ∈ cs → c ∉ mongodb_defaultCollections →
      ∃ n, EstimatedDocumentCount client db c = inl n.
Proof.
  induction cs as [|c cs IH]; simpl.
  - split; [|done]. intros _ c Hc. by apply elem_of_nil in Hc.
  - rewrite mongodb_isDefaultCollection_New.
    case_bool_decide as Hdef; simpl.
    + rewrite IH. split.
      * intros H c' [->|Hin]%elem_of_cons Hnd; [done|by apply H].
      * intros H c' Hin. apply H. by right.
    + unfold mongodb_buildTable; cbn [mongodb_New mongodb_buildExcludedCollections mongodb_client].
      destruct (EstimatedDocumentCount client db c) as [n|err] eqn:Hn; simpl.
      * destruct (mongodb_emitCollections (mongodb_New client) db cs) as [emitted err'];
          simpl in *.
        rewrite IH. split.
        -- intros H c' [->|Hin]%elem_of_cons Hnd; [by exists n|by apply H].
        -- intros H c' Hin. apply H. by right.
      * split; [done|]. intros H.
        destruct (H c) as [n Hn']; [by left|done|congruence].
Qed.

Lemma mongodb_emitCollections_complete (client : mongo_Client) (db : string)
    (cs : list string) :
  (mongodb_emitCollections (mongodb_New client) db cs).2 = None →
  (mongodb_emitCollections (mongodb_New client) db cs).1
  = map (λ c, mongodb_tableOf db c (mongodb_countOf client db c))
      (mongodb_userCollections cs).
Proof.
  induction cs as [|c cs IH]; simpl; [done|].
  rewrite mongodb_isDefaultCollection_New.
  case_bool_decide as Hdef; simpl; [done|].
  unfold mongodb_buildTable, mongodb_countOf;
    cbn [mongodb_New mongodb_buildExcludedCollections mongodb_client].
  destruct (EstimatedDocumentCount client db c) as [n|err] eqn:Hn; simpl; [|done].
  destruct (mongodb_emitCollections (mongodb_New client) db cs) as [emitted err'];
    simpl in *.
  intros ->. by rewrite IH.
Qed.

Lemma sublist_StronglySorted {A} (R : relation A) (l k : list A) :
  sublist l k → StronglySorted R k → StronglySorted R l.
Proof.
  intros Hsub. induction Hsub as [|x l k Hsub IH|x l k Hsub IH]; intros Hk.
  - constructor.
  - apply StronglySorted_inv in Hk as [Hk Hall]. constructor; [by apply IH|].
    rewrite Forall_forall in *. intros y Hy. apply Hall.
    by eapply sublist_submseteq, elem_of_submseteq in Hsub.
  - apply StronglySorted_inv in Hk as [Hk _]. by apply IH.
Qed.

(** X12. Within one database the mongodb extractor emits its tables in
    increasing order of the collection name, whatever the order in which the
    server lists them and whether or not the extraction fails on the way;
    the names emitted are taken, each at most once, from the names listed. *)
Theorem mongodb_extractCollections_sorted (e : mongodb_Extractor) (db : string) :
  let names := map Table_Name (mongodb_extractCollections e db).1 in
  StronglySorted string_le names
  ∧ names ⊆+ mongodb_collectionsOf (mongodb_client e) db.
Proof.
  unfold mongodb_extractCollections, mongodb_collectionsOf.
  destruct (ListCollectionNames (mongodb_client e) db) as [cs|err]; simpl.
  - pose proof (mongodb_emitCollections_names e db (sort_Strings cs)) as Hsub.
    split.
    + eapply sublist_StronglySorted; [exact Hsub|apply sort_Strings_sorted].
    + etrans; [by apply sublist_submseteq|].
      by rewrite sort_Strings_Permutation.
  - split; [constructor|done].
Qed.

Lemma mongodb_extractCollections_origin (client : mongo_Client) (db : string) :
  Forall (λ t, ∃ c n, c ∈ mongodb_collectionsOf client db ∧
                 (c ∉ mongodb_defaultCollections) ∧
                 EstimatedDocumentCount client db c = inl n ∧
                 t = mongodb_tableOf db c n)
    (mongodb_extractCollections (mongodb_New client) db).1.
Proof.
  unfold mongodb_extractCollections, mongodb_collectionsOf;
    cbn [mongodb_New mongodb_buildExcludedCollections mongodb_client].
  destruct (ListCollectionNames client db) as [cs|err]; simpl; [|constructor].
  eapply Forall_impl; [apply (mongodb_emitCollections_origin client db)|].
  intros t (c & n & Hin & Hnd & Hn & ->). exists c, n. split_and!; try done.
  by rewrite sort_Strings_Permutation in Hin.
Qed.

Lemma mongodb_extractDatabases_origin (client : mongo_Client) (dbs : list string) :
  Forall (λ t, ∃ db c n, db ∈ dbs ∧ c ∈ mongodb_collectionsOf client db ∧
                 (c ∉ mongodb_defaultCollections) ∧
                 EstimatedDocumentCount client db c = inl n ∧
                 t = mongodb_tableOf db c n)
    (mongodb_extractDatabases (mongodb_New client) dbs).1.
Proof.
  induction dbs as [|db dbs IH]; simpl; [constructor|].
  pose proof (mongodb_extractCollections_origin client db) as Hdb.
  destruct (mongodb_extractCollections (mongodb_New client) db) as [emitted [err|]];
    simpl in *.
  - eapply Forall_impl; [exact Hdb|]. intros t (c & n & ? & ? & ? & ->).
    exists db, c, n. split_and!; try done. by left.
  - destruct (mongodb_extractDatabases (mongodb_New client) dbs) as [emitted' err'];
      simpl in *.
    apply Forall_app. split.
    + eapply Forall_impl; [exact Hdb|]. intros t (c & n & ? & ? & ? & ->).
      exists db, c, n. split_and!; try done. by left.
    + eapply Forall_impl; [exact IH|]. intros t (db' & c & n & ? & ? & ? & ? & ->).
      exists db', c, n. split_and!; try done. by right.
Qed.

(** X11. Whether or not it fails on the way, the mongodb extractor emits
    only tables of collections that the server lists for one of its
    databases and that are not among mongo's default collections, each with
    the URN [db.collection] and the document count the server reports. *)
Theorem mongodb_Extract_emits_user_collections (client : mongo_Client) :
  Forall (λ t, ∃ db c n, db ∈ mongodb_databasesOf client ∧
                 c ∈ mongodb_collectionsOf client db ∧
                 (c ∉ mongodb_defaultCollections) ∧
                 EstimatedDocumentCount client db c = inl n ∧
                 t = mongodb_tableOf db c n)
    (mongodb_Extract (mongodb_New client)).1.
Proof.
  unfold mongodb_Extract, mongodb_databasesOf;
    cbn [mongodb_New mongodb_buildExcludedCollections mongodb_client].
  destruct (ListDatabaseNames client) as [dbs|err]; simpl; [|constructor].
  apply mongodb_extractDatabases_origin.
Qed.

Lemma mongodb_extractCollections_ok (client : mongo_Client) (db : string) :
  (mongodb_extractCollections (mongodb_New client) db).2 = None
  ↔ ∃ cs, ListCollectionNames client db = inl cs ∧
      ∀ c, c ∈ cs → c ∉ mongodb_defaultCollections →
        ∃ n, EstimatedDocumentCount client db c = inl n.
Proof.
  unfold mongodb_extractCollections;
    cbn [mongodb_New mongodb_buildExcludedCollections mongodb_client].
  destruct (ListCollectionNames client db) as [cs|err]; simpl.
  - rewrite (mongodb_emitCollections_ok client db). split.
    + intros H. exists cs. split; [done|]. intros c Hc. apply H.
      by rewrite sort_Strings_Permutation.
    + intros (cs' & [= <-] & H) c Hc. apply H.
      by rewrite sort_Strings_Permutation in Hc.
  - split; [done|]. by intros (cs & ? & _).
Qed.

Lemma mongodb_extractDatabases_ok (client : mongo_Client) (dbs : list string) :
  (mongodb_extractDatabases (mongodb_New client) dbs).2 = None
  ↔ ∀ db, db ∈ dbs → (mongodb_extractCollections (mongodb_New client) db).2 = None.
Proof.
  induction dbs as [|db dbs IH]; simpl.
  - split; [|done]. intros _ db Hdb. by apply elem_of_nil in Hdb.
  - destruct (mongodb_extractCollections (mongodb_New client) db)
      as [emitted [err|]] eqn:Hdb; simpl.
    + split; [done|]. intros H. specialize (H db). rewrite Hdb in H.
      discriminate H. by left.
    + destruct (mongodb_extractDatabases (mongodb_New client) dbs) as [emitted' err'];
        simpl in *.
      rewrite IH. split.
      * intros H db' [->|Hin]%elem_of_cons; [by rewrite Hdb|by apply H].
      * intros H db' Hin. apply H. by right.
Qed.

(** X13. The mongodb extractor returns nil exactly when every call it makes
    of the client succeeds: listing the databases, listing the collections
    of every database, and counting the documents of every collection that
    is not a default one.  A failing count of a default collection is never
    seen. *)
Theorem mongodb_Extract_succeeds_iff (client : mongo_Client) :
  (mongodb_Extract (mongodb_New client)).2 = None ↔ mongodb_healthy client.
Proof.
  unfold mongodb_Extract, mongodb_healthy;
    cbn [mongodb_New mongodb_buildExcludedCollections mongodb_client].
  destruct (ListDatabaseNames client) as [dbs|err]; simpl.
  - change (mongodb_buildExcludedCollections _) with (mongodb_New client).
    rewrite mongodb_extractDatabases_ok. split.
    + intros H. exists dbs. split; [done|]. intros db Hdb.
      by apply mongodb_extractCollections_ok, H.
    + intros (dbs' & [= <-] & H) db Hdb.
      by apply mongodb_extractCollections_ok, H.
  - split; [done|]. by intros (dbs & ? & _).
Qed.

Lemma mongodb_extractDatabases_complete (client : mongo_Client) (dbs : list string) :
  (mongodb_extractDatabases (mongodb_New client) dbs).2 = None →
  (mongodb_extractDatabases (mongodb_New client) dbs).1
  = flat_map (λ db, map (λ c, mongodb_tableOf db c (mongodb_countOf client db c))
                      (mongodb_userCollections
                         (sort_Strings (mongodb_collectionsOf client db)))) dbs.
Proof.
  induction dbs as [|db dbs IH]; simpl; [done|].
  pose proof (mongodb_emitCollections_complete client db
                (sort_Strings (mongodb_collectionsOf client db))) as Hdb.
  unfold mongodb_extractCollections, mongodb_collectionsOf in *;
    cbn [mongodb_New mongodb_buildExcludedCollections mongodb_client] in *.
  change (mongodb_buildExcludedCollections _) with (mongodb_New client) in *.
  destruct (ListCollectionNames client db) as [cs|err]; simpl; [|done].
  destruct (mongodb_emitCollections (mongodb_New client) db (sort_Strings cs))
    as [emitted [err|]]; simpl in *; [done|].
  destruct (mongodb_extractDatabases (mongodb_New client) dbs) as [emitted' err'];
    simpl in *.
  intros ->. by rewrite Hdb, IH.
Qed.

(** X14. When the mongodb extractor returns nil it has emitted, database by
    database in the order the server lists them, one table for every
    collection that is not a default one, in increasing order of the
    collection name. *)
Theorem mongodb_Extract_complete (client : mongo_Client) :
  (mongodb_Extract (mongodb_New client)).2 = None →
  (mongodb_Extract (mongodb_New client)).1
  = flat_map (λ db, map (λ c, mongodb_tableOf db c (mongodb_countOf client db c))
                      (mongodb_userCollections
                         (sort_Strings (mongodb_collectionsOf client db))))
      (mongodb_databasesOf client).
Proof.
  unfold mongodb_Extract, mongodb_databasesOf;
    cbn [mongodb_New mongodb_buildExcludedCollections mongodb_client].
  change (mongodb_buildExcludedCollections _) with (mongodb_New client).
  destruct (ListDatabaseNames client) as [dbs|err]; simpl; [|done].
  apply mongodb_extractDatabases_complete.
Qed.

Lemma mongodb_Extract_complete_witness :
  (mongodb_Extract (mongodb_New testMongo)).2 = None
  ∧ map Table_Urn (mongodb_Extract (mongodb_New testMongo)).1
    = ["MeteorMongoExtractorTest.connections"; "MeteorMongoExtractorTest.posts";
       "MeteorMongoExtractorTest.stats"].
Proof.
  split; [reflexivity|].
  rewrite (mongodb_Extract_complete testMongo); reflexivity.
Defined.

Example test_mongodb_broken :
  mongodb_Extract (mongodb_New brokenMongo)
  = ([mongodb_tableOf "shop" "carts" 7],
     Some (Wrap (Wrap (Wrap (New "cursor closed") "failed to fetch total no of rows")
                   "failed to build table") "failed to extract collections")).
Proof. reflexivity. Qed.

(** ** cassandra *)

Lemma cassandra_isExcludedKeyspace_New (s : gocql_Session) (k : string) :
  cassandra_isExcludedKeyspace (cassandra_New s) k
  = bool_decide (k ∈ cassandra_defaultKeyspaceList).
Proof.
  unfold cassandra_isExcludedKeyspace, cassandra_New, cassandra_buildExcludedKeyspaces;
    cbn [cassandra_excludedKeyspaces].
  change (foldl _ ∅ cassandra_defaultKeyspaceList)
    with (excludedMap cassandra_defaultKeyspaceList).
  rewrite excludedMap_lookup. by destruct (bool_decide _).
Qed.

Lemma lastScanError_cons {T} (row row' : T + error) (rows : list (T + error)) :
  lastScanError (row :: row' :: rows) = lastScanError (row' :: rows).
Proof. unfold lastScanError. by rewrite last_cons_cons. Qed.

Lemma cassandra_scanColumns_spec (rows : list (string * string + error))
    (columns : list Column) (err : option error) :
  cassandra_scanColumns rows columns err
  = (columns ++ cassandra_columnsOf rows,
     match rows with [] => err | _ => lastScanError rows end,
     scanLogs rows).
Proof.
  revert columns err. induction rows as [|row rows IH]; intros columns err.
  - simpl. by rewrite app_nil_r.
  - destruct row as [[f d]|e]; cbn [cassandra_scanColumns].
    + rewrite IH. unfold cassandra_columnsOf, scanLogs, scanErrors; simpl.
      rewrite <- app_assoc. simpl. destruct rows as [|row' rows]; [done|].
      by rewrite lastScanError_cons.
    + rewrite IH. unfold cassandra_columnsOf, scanLogs, scanErrors; simpl.
      destruct rows as [|row' rows]; [done|].
      by rewrite lastScanError_cons.
Qed.

(** X15. [extractColumns] of the cassandra extractor returns the successfully
    scanned rows as columns, in order, and logs every row that could not be
    scanned; the error it returns is that of the last row alone, so a row
    that fails before the last one is dropped without failing the call. *)
Theorem cassandra_extractColumns_result (e : cassandra_Extractor)
    (keyspace tableName : string) :
  let rows := session_columns (cassandra_session e) keyspace tableName in
  cassandra_extractColumns e keyspace tableName
  = (cassandra_columnsOf rows, lastScanError rows, scanLogs rows).
Proof.
  intros rows. unfold cassandra_extractColumns. fold rows.
  rewrite cassandra_scanColumns_spec. simpl. by destruct rows.
Qed.

Example test_cassandra_middle_row :
  cassandra_Extract (cassandra_New cassandraMiddleFails)
  = ([{| Table_Urn := "shop.orders"; Table_Name := "orders";
         Table_Service := EmptyString;
         Table_Schema := Some [cassandra_Column "id" "int";
                               cassandra_Column "name" "text"];
         Table_TotalRows := None |}],
     None,
     logger LevelError "failed to get fields"
       [("error", FError (Some (New "can not unmarshal")))]).
Proof. reflexivity. Qed.

Lemma cassandra_processTable_spec (s : gocql_Session) (k tn : string) :
  cassandra_processTable (cassandra_New s) k tn
  = match lastScanError (session_columns s k tn) with
    | Some err => ([], Some (Wrap err "failed to extract columns"),
                   scanLogs (session_columns s k tn))
    | None => ([cassandra_tableOf s k tn], None, scanLogs (session_columns s k tn))
    end.
Proof.
  unfold cassandra_processTable, cassandra_extractColumns.
  rewrite cassandra_scanColumns_spec.
  cbn [cassandra_New cassandra_buildExcludedKeyspaces cassandra_session].
  simpl. destruct (session_columns s k tn) as [|row rows] eqn:Hrows.
  - unfold cassandra_tableOf. by rewrite Hrows.
  - destruct (lastScanError (row :: rows)); [done|].
    unfold cassandra_tableOf. by rewrite Hrows.
Qed.

Lemma cassandra_scanTables_origin (s : gocql_Session) (k : string)
    (rows : list (string + error)) :
  Forall (λ t, ∃ tn, inl tn ∈ rows ∧ t = cassandra_tableOf s k tn)
    (cassandra_scanTables (cassandra_New s) k rows).1.1.
Proof.
  induction rows as [|[tn|err] rows IH]; cbn [cassandra_scanTables];
    [constructor| |constructor].
  rewrite cassandra_processTable_spec.
  destruct (lastScanError (session_columns s k tn)); [constructor|].
  destruct (cassandra_scanTables (cassandra_New s) k rows) as [[emitted err] logs];
    simpl in *.
  constructor.
  - exists tn. split; [by left|done].
  - eapply Forall_impl; [exact IH|]. intros t (tn' & ? & ->).
    exists tn'. split; [by right|done].
Qed.

Lemma cassandra_scanKeyspaces_origin (s : gocql_Session)
    (rows : list (string + error)) :
  Forall (λ t, ∃ k tn, inl k ∈ rows ∧ (k ∉ cassandra_defaultKeyspaceList) ∧
                 inl tn ∈ session_tables s k ∧ t = cassandra_tableOf s k tn)
    (cassandra_scanKeyspaces (cassandra_New s) rows).1.1.
Proof.
  induction rows as [|[k|err] rows IH]; cbn [cassandra_scanKeyspaces];
    [constructor| |constructor].
  rewrite cassandra_isExcludedKeyspace_New. case_bool_decide as Hdef.
  - eapply Forall_impl; [exact IH|]. intros t (k' & tn & ? & ? & ? & ->).
    exists k', tn. split_and!; try done. by right.
  - pose proof (cassandra_scanTables_origin s k (session_tables s k)) as Hk.
    unfold cassandra_extractTables.
    cbn [cassandra_New cassandra_buildExcludedKeyspaces cassandra_session].
    change (cassandra_buildExcludedKeyspaces _) with (cassandra_New s).
    destruct (cassandra_scanTables (cassandra_New s) k (session_tables s k))
      as [[emitted [err|]] logs]; simpl in *.
    + eapply Forall_impl; [exact Hk|]. intros t (tn & ? & ->).
      exists k, tn. split_and!; try done. by left.
    + destruct (cassandra_scanKeyspaces (cassandra_New s) rows)
        as [[emitted' err'] logs']; simpl in *.
      apply Forall_app. split.
      * eapply Forall_impl; [exact Hk|]. intros t (tn & ? & ->).
        exists k, tn. split_and!; try done. by left.
      * eapply Forall_impl; [exact IH|]. intros t (k' & tn & ? & ? & ? & ->).
        exists k', tn. split_and!; try done. by right.
Qed.

(** X16. Whether or not it fails on the way, the cassandra extractor emits
    only tables listed for a keyspace that is not one of the excluded system
    keyspaces, each with the URN [keyspace.table] and the columns that could
    be scanned. *)
Theorem cassandra_Extract_emits_user_tables (s : gocql_Session) :
  Forall (λ t, ∃ k tn, inl k ∈ session_keyspaces s ∧
                 (k ∉ cassandra_defaultKeyspaceList) ∧
                 inl tn ∈ session_tables s k ∧ t = cassandra_tableOf s k tn)
    (cassandra_Extract (cassandra_New s)).1.1.
Proof. apply cassandra_scanKeyspaces_origin. Qed.

Lemma cassandra_scanTables_ok (s : gocql_Session) (k : string)
    (rows : list (string + error)) :
  (cassandra_scanTables (cassandra_New s) k rows).1.2 = None
  ↔ scanErrors rows = [] ∧
    ∀ tn, inl tn ∈ rows → lastScanError (session_columns s k tn) = None.
Proof.
  induction rows as [|[tn|err] rows IH]; cbn [cassandra_scanTables].
  - split; [|done]. intros _. split; [done|]. intros tn Hin.
    by apply elem_of_nil in Hin.
  - rewrite cassandra_processTable_spec.
    destruct (lastScanError (session_columns s k tn)) as [e|] eqn:Hlast.
    + split; [done|]. intros [_ H]. specialize (H tn). rewrite Hlast in H.
      discriminate H. by left.
    + destruct (cassandra_scanTables (cassandra_New s) k rows)
        as [[emitted err] logs]; simpl in *.
      rewrite IH. unfold scanErrors; simpl. split.
      * intros [Herrs H]. split; [done|].
        intros tn' [[= ->]|Hin]%elem_of_cons; [done|by apply H].
      * intros [Herrs H]. split; [done|]. intros tn' Hin. apply H. by right.
  - split; [done|]. by intros [? _].
Qed.

Lemma cassandra_scanTables_complete (s : gocql_Session) (k : string)
    (rows : list (string + error)) :
  (cassandra_scanTables (cassandra_New s) k rows).1.2 = None →
  (cassandra_scanTables (cassandra_New s) k rows).1.1
  = map (cassandra_tableOf s k) (scanned rows).
Proof.
  induction rows as [|[tn|err] rows IH]; cbn [cassandra_scanTables]; [done| |done].
  rewrite cassandra_processTable_spec.
  destruct (lastScanError (session_columns s k tn)) as [e|]; [done|].
  destruct (cassandra_scanTables (cassandra_New s) k rows)
    as [[emitted err] logs]; simpl in *.
  intros ->. by rewrite IH.
Qed.

Lemma cassandra_extractTables_unfold (s : gocql_Session) (k : string) :
  cassandra_extractTables (cassandra_New s) k
  = cassandra_scanTables (cassandra_New s) k (session_tables s k).
Proof. done. Qed.

Lemma cassandra_scanKeyspaces_ok (s : gocql_Session) (rows : list (string + error)) :
  (cassandra_scanKeyspaces (cassandra_New s) rows).1.2 = None
  ↔ scanErrors rows = [] ∧
    ∀ k, inl k ∈ rows → k ∉ cassandra_defaultKeyspaceList →
      scanErrors (session_tables s k) = [] ∧
      ∀ tn, inl tn ∈ session_tables s k →
        lastScanError (session_columns s k tn) = None.
Proof.
  induction rows as [|[k|err] rows IH]; cbn [cassandra_scanKeyspaces].
  - split; [|done]. intros _. split; [done|]. intros k Hin.
    by apply elem_of_nil in Hin.
  - rewrite cassandra_isExcludedKeyspace_New. case_bool_decide as Hdef.
    + rewrite IH. unfold scanErrors; simpl. split.
      * intros [Herrs H]. split; [done|].
        intros k' [[= ->]|Hin]%elem_of_cons Hnd; [done|by apply H].
      * intros [Herrs H]. split; [done|]. intros k' Hin. apply H. by right.
    + rewrite cassandra_extractTables_unfold.
      pose proof (cassandra_scanTables_ok s k (session_tables s k)) as Hk.
      destruct (cassandra_scanTables (cassandra_New s) k (session_tables s k))
        as [[emitted [err|]] logs]; simpl in *.
      * split; [done|]. intros [_ H].
        destruct Hk as [_ Hk]. discriminate Hk. apply H; [by left|done].
      * destruct (cassandra_scanKeyspaces (cassandra_New s) rows)
          as [[emitted' err'] logs']; simpl in *.
        rewrite IH. unfold scanErrors; simpl. split.
        -- intros [Herrs H]. split; [done|].
           intros k' [[= ->]|Hin]%elem_of_cons Hnd; [by apply Hk|by apply H].
        -- intros [Herrs H]. split; [done|]. intros k' Hin. apply H. by right.
  - split; [done|]. by intros [? _].
Qed.

(** X17. The cassandra extractor returns nil exactly when no scan it relies
    on fails: none of the keyspace rows, none of the table rows of a
    keyspace that is not excluded, and not the last column row of any of
    their tables.  Failures inside excluded keyspaces and failures of column
    rows before the last one do not count. *)
Theorem cassandra_Extract_succeeds_iff (s : gocql_Session) :
  (cassandra_Extract (cassandra_New s)).1.2 = None ↔ cassandra_healthy s.
Proof. apply cassandra_scanKeyspaces_ok. Qed.

Lemma cassandra_scanKeyspaces_complete (s : gocql_Session)
    (rows : list (string + error)) :
  (cassandra_scanKeyspaces (cassandra_New s) rows).1.2 = None →
  (cassandra_scanKeyspaces (cassandra_New s) rows).1.1
  = flat_map (λ k, map (cassandra_tableOf s k) (scanned (session_tables s k)))
      (cassandra_userKeyspaces (scanned rows)).
Proof.
  induction rows as [|[k|err] rows IH]; cbn [cassandra_scanKeyspaces]; [done| |done].
  rewrite cassandra_isExcludedKeyspace_New.
  unfold scanned, cassandra_userKeyspaces in *; simpl.
  case_bool_decide as Hdef; simpl; [done|].
  rewrite cassandra_extractTables_unfold.
  pose proof (cassandra_scanTables_complete s k (session_tables s k)) as Hk.
  destruct (cassandra_scanTables (cassandra_New s) k (session_tables s k))
    as [[emitted [err|]] logs]; simpl in *; [done|].
  destruct (cassandra_scanKeyspaces (cassandra_New s) rows)
    as [[emitted' err'] logs']; simpl in *.
  intros ->. by rewrite Hk, IH.
Qed.

(** X18. When the cassandra extractor returns nil it has emitted, keyspace by
    keyspace in the order of the keyspace rows and skipping the excluded
    system keyspaces, one table for every table row, in row order. *)
Theorem cassandra_Extract_complete (s : gocql_Session) :
  (cassandra_Extract (cassandra_New s)).1.2 = None →
  (cassandra_Extract (cassandra_New s)).1.1
  = flat_map (λ k, map (cassandra_tableOf s k) (scanned (session_tables s k)))
      (cassandra_userKeyspaces (scanned (session_keyspaces s))).
Proof. apply cassandra_scanKeyspaces_complete. Qed.

Lemma cassandra_Extract_complete_witness :
  (cassandra_Extract (cassandra_New testCassandra)).1.2 = None
  ∧ map Table_Urn (cassandra_Extract (cassandra_New testCassandra)).1.1
    = ["cassandra_meteor_test.applicant"; "cassandra_meteor_test.jobs"].
Proof.
  split; [reflexivity|].
  rewrite (cassandra_Extract_complete testCassandra); reflexivity.
Defined.

(** ** github *)

Lemma github_emitUsers_spec (e : github_Extractor) (users : list github_User) :
  Forall (λ u, is_Some (gh_Login u)) users →
  github_emitUsers e users
  = (omap (github_assetOf e) users,
     flat_map (λ err, logger LevelError "failed to fetch user"
                        [("error", FError (Some err))])
       (omap (github_getError e) users),
     Returned None).
Proof.
  induction 1 as [|u users [login Hlogin] _ IH]; [done|].
  cbn [github_emitUsers]. rewrite Hlogin, IH.
  assert (Ha : github_assetOf e u
               = match Users_Get (github_client e) login with
                 | inl usr => Some (github_asset usr)
                 | inr _ => None
                 end) by (unfold github_assetOf; by rewrite Hlogin).
  assert (Hg : github_getError e u
               = match Users_Get (github_client e) login with
                 | inl _ => None
                 | inr err => Some err
                 end) by (unfold github_getError; by rewrite Hlogin).
  simpl. rewrite Ha, Hg.
  by destruct (Users_Get (github_client e) login).
Qed.

Lemma github_found_count (e : github_Extractor) (users : list github_User) :
  Forall (λ u, is_Some (gh_Login u)) users →
  (length (omap (github_assetOf e) users)
   + length (omap (github_getError e) users) = length users)%nat.
Proof.
  induction 1 as [|u users [login Hlogin] _ IH]; [done|].
  assert (Ha : github_assetOf e u
               = match Users_Get (github_client e) login with
                 | inl usr => Some (github_asset usr)
                 | inr _ => None
                 end) by (unfold github_assetOf; by rewrite Hlogin).
  assert (Hg : github_getError e u
               = match Users_Get (github_client e) login with
                 | inl _ => None
                 | inr err => Some err
                 end) by (unfold github_getError; by rewrite Hlogin).
  rewrite length_cons, <- IH. simpl. rewrite Ha, Hg.
  destruct (Users_Get (github_client e) login); simpl;
    [done|by rewrite Nat.add_succ_r].
Qed.

(** X19. When the members of the organisation can be listed (and each has a
    login), the github extractor returns nil whatever [Users.Get] does: it
    emits one user asset per member that can be fetched, in member order,
    logs one error per member that cannot, and so accounts for every member
    exactly once. *)
Theorem github_Extract_emits_found_members (e : github_Extractor)
    (users : list github_User) :
  Organizations_ListMembers (github_client e) (github_Org e) = inl users →
  Forall (λ u, is_Some (gh_Login u)) users →
  let '(emitted, logs, outcome) := github_Extract e in
  outcome = Returned None
  ∧ emitted = omap (github_assetOf e) users
  ∧ (length emitted + length logs = length users)%nat
  ∧ Forall (λ ev, ∃ err, ev = EvLog LevelError "failed to fetch user"
                                [("error", FError (Some err))]) logs.
Proof.
  intros Hlist Hlogins. unfold github_Extract. rewrite Hlist.
  rewrite github_emitUsers_spec by done. split_and!; try done.
  - rewrite <- (github_found_count e users Hlogins). f_equal.
    generalize (omap (github_getError e) users). intros errs.
    induction errs as [|err errs IH]; simpl; [done|by rewrite IH].
  - apply Forall_flat_map, Forall_forall. intros err _.
    constructor; [by exists err|constructor].
Qed.

Lemma github_Extract_emits_found_members_witness :
  (github_Extract testGithub).1.1
  = [github_asset {| gh_Login := Some "ann";
                     gh_URL := Some "https://api.github.com/users/ann";
                     gh_Email := None; gh_Name := Some "ann" |};
     github_asset {| gh_Login := Some "cy";
                     gh_URL := Some "https://api.github.com/users/cy";
                     gh_Email := None; gh_Name := Some "cy" |}].
Proof.
  pose proof (github_Extract_emits_found_members testGithub
                [githubMember "ann"; githubMember "bob"; githubMember "cy"]
                eq_refl) as H.
  destruct (github_Extract testGithub) as [[emitted logs] outcome].
  destruct H as (_ & -> & _).
  - repeat constructor; by eexists.
  - reflexivity.
Defined.

Lemma github_emitUsers_no_error (e : github_Extractor) (users : list github_User)
    (err : error) :
  (github_emitUsers e users).2 ≠ Returned (Some err).
Proof.
  induction users as [|u users IH]; simpl; [done|].
  destruct (gh_Login u) as [login|]; [|done].
  destruct (github_emitUsers e users) as [[emitted logs] outcome].
  by destruct (Users_Get (github_client e) login).
Qed.

(** X20. The github extractor returns an error only when the members of the
    organisation cannot be listed: the error is then the client's, wrapped
    with "failed to fetch organizations", and nothing is emitted or logged.
    A member that cannot be fetched never fails the extraction. *)
Theorem github_Extract_error_iff (e : github_Extractor) (err : error) :
  (github_Extract e).2 = Returned (Some err)
  ↔ ∃ cause, Organizations_ListMembers (github_client e) (github_Org e) = inr cause
             ∧ err = Wrap cause "failed to fetch organizations"
             ∧ github_Extract e = ([], [], Returned (Some err)).
Proof.
  unfold github_Extract.
  destruct (Organizations_ListMembers (github_client e) (github_Org e))
    as [users|cause]; simpl.
  - split.
    + intros H. by apply github_emitUsers_no_error in H.
    + by intros (cause & ? & _).
  - split.
    + intros [= <-]. by exists cause.
    + by intros (cause' & [= <-] & -> & _).
Qed.

(** ** oracle *)

Lemma oracle_scanTables_spec (rows : list (string + error)) (tables : list string) :
  (oracle_scanTables rows tables).1 = tables ++ scannedPrefix rows.
Proof.
  revert tables. induction rows as [|[t|err] rows IH]; intros tables; simpl.
  - by rewrite app_nil_r.
  - by rewrite IH, <- app_assoc.
  - by rewrite app_nil_r.
Qed.

Lemma oracle_getTables_read (db : sql_DB) (dbName userName : string) :
  (oracle_getTables db dbName userName).1 = oracle_tablesRead db userName.
Proof.
  unfold oracle_getTables, oracle_tablesRead.
  destruct (query_tables db userName) as [rows|err]; [|done].
  by rewrite oracle_scanTables_spec.
Qed.

Lemma oracle_scanColumns_spec (rows : list (oracle_ColumnRow + error))
    (result : list Column) :
  (oracle_scanColumns rows result).1 = result ++ map oracle_column (scanned rows).
Proof.
  revert result. induction rows as [|[row|err] rows IH]; intros result; simpl.
  - by rewrite app_nil_r.
  - by rewrite IH, <- app_assoc.
  - specialize (IH result). by destruct (oracle_scanColumns rows result).
Qed.

Lemma oracle_scanCount_spec (rows : list (Z + error)) (rowCount : Z)
    (err : option error) :
  (oracle_scanCount rows rowCount err).1.1 = default rowCount (last (scanned rows)).
Proof.
  revert rowCount err. induction rows as [|[n|e] rows IH]; intros rowCount err;
    cbn [oracle_scanCount]; [done| |].
  - rewrite IH. change (scanned (inl n :: rows)) with (n :: scanned rows).
    destruct (scanned rows) as [|m ms]; [done|]. rewrite last_cons_cons.
    by destruct (proj2 (last_is_Some (m :: ms))) as [k ->].
  - specialize (IH rowCount (Some e)).
    by destruct (oracle_scanCount rows rowCount (Some e)) as [[? ?] ?].
Qed.

Lemma oracle_getTableMetadata_result (db : sql_DB) (database table : string) :
  oracle_countable db table = true →
  ∃ err logs, oracle_getTableMetadata db database table
              = (MetadataReturned (oracle_recordOf db database table) err, logs).
Proof.
  unfold oracle_countable, oracle_getTableMetadata, oracle_getColumnMetadata,
    oracle_recordOf, oracle_rowCount.
  destruct (query_columns db table) as [rows|cerr]; [|by eexists _, _].
  pose proof (oracle_scanColumns_spec rows []) as Hcols.
  destruct (oracle_scanColumns rows []) as [columns logs]; simpl in Hcols.
  destruct (query_count db table) as [counts|qerr]; [|done]. intros _.
  pose proof (oracle_scanCount_spec counts 0 None) as Hcount.
  destruct (oracle_scanCount counts 0 None) as [[rowCount err] logs']; simpl in Hcount.
  subst. by eexists _, _.
Qed.

Lemma oracle_getTableMetadata_panics (db : sql_DB) (database table : string) :
  oracle_countable db table = false →
  ∃ logs, oracle_getTableMetadata db database table
          = (MetadataPanicked nilDereference, logs).
Proof.
  unfold oracle_countable, oracle_getTableMetadata, oracle_getColumnMetadata.
  destruct (query_columns db table) as [rows|cerr]; [|done].
  destruct (oracle_scanColumns rows []) as [columns logs].
  destruct (query_count db table) as [counts|qerr]; [done|]. by eexists.
Qed.

Lemma oracle_emitTables_all (db : sql_DB) (database : string) (tables : list string) :
  Forall (λ t, oracle_countable db t = true) tables →
  (oracle_emitTables db database tables).2 = Returned None
  ∧ (oracle_emitTables db database tables).1.1
    = map (oracle_recordOf db database) tables.
Proof.
  induction 1 as [|t tables Ht _ IH]; [done|].
  cbn [oracle_emitTables].
  destruct (oracle_getTableMetadata_result db database t Ht) as (err & logs & ->).
  destruct (oracle_emitTables db database tables) as [[emitted logs'] outcome];
    simpl in *.
  destruct IH as [-> ->]. done.
Qed.

Lemma oracle_emitTables_panic (db : sql_DB) (database : string)
    (pre post : list string) (t : string) :
  Forall (λ t, oracle_countable db t = true) pre →
  oracle_countable db t = false →
  (oracle_emitTables db database (pre ++ t :: post)).2 = Panicked nilDereference
  ∧ (oracle_emitTables db database (pre ++ t :: post)).1.1
    = map (oracle_recordOf db database) pre.
Proof.
  intros Hpre Ht. induction Hpre as [|p pre Hp _ IH]; cbn [app oracle_emitTables].
  - by destruct (oracle_getTableMetadata_panics db database t Ht) as (logs & ->).
  - destruct (oracle_getTableMetadata_result db database p Hp) as (err & logs & ->).
    destruct (oracle_emitTables db database (pre ++ t :: post))
      as [[emitted logs'] outcome]; simpl in *.
    destruct IH as [-> ->]. done.
Qed.

(** X21. Once the oracle extractor has read the user name and the database
    name it cannot fail any more: unless a count query fails, [Extract]
    returns nil and has emitted exactly one record for every table read
    before the table listing broke off, in order, and the record of a table
    whose columns cannot be queried is a nil table. *)
Theorem oracle_Extract_emits_every_table (db : sql_DB) (userName database : string) :
  oracle_getUserName db = (userName, None) →
  oracle_getDatabaseName db = (database, None) →
  Forall (λ t, oracle_countable db t = true) (oracle_tablesRead db userName) →
  (oracle_Extract db).2 = Returned None
  ∧ (oracle_Extract db).1.1
    = map (oracle_recordOf db database) (oracle_tablesRead db userName).
Proof.
  intros Huser Hdb Hcount. unfold oracle_Extract. rewrite Huser, Hdb.
  pose proof (oracle_getTables_read db database userName) as Htables.
  destruct (oracle_getTables db database userName) as [tables err];
    simpl in Htables; subst tables.
  pose proof (oracle_emitTables_all db database _ Hcount) as [Hout Hemitted].
  by destruct (oracle_emitTables db database (oracle_tablesRead db userName))
    as [[emitted logs] outcome].
Qed.

Lemma oracle_Extract_emits_every_table_witness :
  (oracle_Extract testOracle).2 = Returned None
  ∧ map (option_map Table_Urn) (oracle_Extract testOracle).1.1
    = [Some "XE.employee"; None].
Proof.
  destruct (oracle_Extract_emits_every_table testOracle "admin" "XE")
    as [Hout Hemitted]; [reflexivity|reflexivity|by repeat constructor|].
  split; [exact Hout|]. rewrite Hemitted. reflexivity.
Defined.

(** X22. When the count query of a table fails after its columns could be
    queried, the oracle extractor panics with a nil dereference: the error
    of the query is not looked at before its rows are read.  The records of
    the tables before that one have been emitted. *)
Theorem oracle_Extract_panics_on_failed_count (db : sql_DB)
    (userName database t : string) (pre post : list string) :
  oracle_getUserName db = (userName, None) →
  oracle_getDatabaseName db = (database, None) →
  oracle_tablesRead db userName = pre ++ t :: post →
  Forall (λ t, oracle_countable db t = true) pre →
  oracle_countable db t = false →
  (oracle_Extract db).2 = Panicked nilDereference
  ∧ (oracle_Extract db).1.1 = map (oracle_recordOf db database) pre.
Proof.
  intros Huser Hdb Hread Hpre Ht. unfold oracle_Extract. rewrite Huser, Hdb.
  pose proof (oracle_getTables_read db database userName) as Htables.
  destruct (oracle_getTables db database userName) as [tables err];
    simpl in Htables; subst tables. rewrite Hread.
  pose proof (oracle_emitTables_panic db database pre post t Hpre Ht)
    as [Hout Hemitted].
  by destruct (oracle_emitTables db database (pre ++ t :: post))
    as [[emitted logs] outcome].
Qed.

Lemma oracle_Extract_panics_on_failed_count_witness :
  (oracle_Extract oracleCountFails).2 = Panicked nilDereference
  ∧ map (option_map Table_Urn) (oracle_Extract oracleCountFails).1.1
    = [Some "XE.employee"; None].
Proof.
  destruct (oracle_Extract_panics_on_failed_count oracleCountFails
              "admin" "XE" "payroll" ["employee"; "audit"] [])
    as [Hout Hemitted];
    [reflexivity|reflexivity|reflexivity|by repeat constructor|reflexivity|].
  split; [exact Hout|]. rewrite Hemitted. reflexivity.
Defined.

Lemma oracle_emitTables_no_error (db : sql_DB) (database : string)
    (tables : list string) (err : error) :
  (oracle_emitTables db database tables).2 ≠ Returned (Some err).
Proof.
  induction tables as [|t tables IH]; simpl; [done|].
  destruct (oracle_getTableMetadata db database t) as [[result e|v] logs]; [|done].
  by destruct (oracle_emitTables db database tables) as [[emitted logs'] outcome].
Qed.

(** X23. The oracle extractor returns an error only when the user name or
    the database name cannot be read; it then returns that error as it is,
    logs it once and emits nothing.  No failure of the table listing or of
    a table's metadata is ever returned. *)
Theorem oracle_Extract_error_iff (db : sql_DB) (err : error) :
  (oracle_Extract db).2 = Returned (Some err)
  ↔ ((oracle_getUserName db).2 = Some err
     ∧ oracle_Extract db
       = ([], logger LevelError "failed to get the user name"
                [("error", FError (Some err))], Returned (Some err)))
    ∨ ((oracle_getUserName db).2 = None
       ∧ (oracle_getDatabaseName db).2 = Some err
       ∧ oracle_Extract db
         = ([], logger LevelError "failed to get the database name"
                  [("error", FError (Some err))], Returned (Some err))).
Proof.
  unfold oracle_Extract.
  destruct (oracle_getUserName db) as [userName [uerr|]]; simpl.
  - split.
    + intros [= <-]. by left.
    + intros [[[= <-] _]|[? _]]; done.
  - destruct (oracle_getDatabaseName db) as [database [derr|]]; simpl.
    + split.
      * intros [= <-]. by right.
      * intros [[? _]|(_ & [= <-] & _)]; done.
    + destruct (oracle_getTables db database userName) as [tables terr].
      pose proof (oracle_emitTables_no_error db database tables err) as Hno.
      destruct (oracle_emitTables db database tables) as [[emitted logs] outcome];
        simpl in *.
      split; [done|]. intros [[? _]|(_ & ? & _)]; done.
Qed.

Example test_oracle_nameless :
  oracle_Extract oracleNameless
  = ([], logger LevelError "failed to get the database name"
           [("error", FError (Some (New "ORA-03113")))],
     Returned (Some (New "ORA-03113"))).
Proof. reflexivity. Qed.
